(** * dlt-parser: a shallow embedding of the DLT file parser

    The development follows the C++ sources:
    - [exceptions.h]         the two exception classes,
    - [filereader.h/.cpp]    the byte source ([reader], [file_precache], [file_map]),
    - [endian.h]             the endian codec,
    - [argparser.h]          the verbose-payload argument parser,
    - [record.cpp]           the record parser and the public record view,
    - [thread_supervisor.*]  the worker task and the supervisor.

    Machine integers are modelled as [Z] with the wrap-around written out,
    bytes as [Byte.byte], [std::string] as [string], [std::vector] as [list].
    Mutable objects are threaded explicitly: every operation returns the new
    state of the object next to its outcome, so that what an operation wrote
    before it threw stays observable, as it does in C++. *)

From Stdlib Require Import ZArith List String Ascii Lia Bool.
From Stdlib Require DecimalString HexadecimalString.
From Stdlib.Strings Require Import Byte.
Import ListNotations.
Open Scope Z_scope.

(* ================================================================== *)
(** * exceptions.h and the outcomes of a call *)

(** [except::eof], [except::parse_exception] and the standard library's
    [std::bad_optional_access].  A [parse_exception] may carry a nested
    exception ([std::throw_with_nested]); the only site that nests one nests
    an [eof], so the nested exception is a flag. *)
Inductive exn : Type :=
| eof
| parse_exception (what : string) (nested_eof : bool)
| bad_optional_access.

(** How a call ends.  [AssertFailed] is a failed [assert], which ends the
    process; [Undefined] is a read through a pointer that left the file
    buffer; [OutOfFuel] belongs to the embedding only (loops are unrolled
    with fuel). *)
Inductive outcome (A : Type) : Type :=
| Ret (a : A)
| Throw (e : exn)
| AssertFailed
| Undefined
| OutOfFuel.
Arguments Ret {A} a.
Arguments Throw {A} e.
Arguments AssertFailed {A}.
Arguments Undefined {A}.
Arguments OutOfFuel {A}.

(** Propagation of everything that is not a normal return. *)
Definition bind {A B : Type} (o : outcome A) (k : A -> outcome B) : outcome B :=
  match o with
  | Ret a => k a
  | Throw e => Throw e
  | AssertFailed => AssertFailed
  | Undefined => Undefined
  | OutOfFuel => OutOfFuel
  end.

Notation "x <- c ;; k" := (bind c (fun x => k))
  (at level 61, c at next level, right associativity).

(* ================================================================== *)
(** * Fixed-width integers *)

Definition wrap (bits : Z) (x : Z) : Z := x mod 2 ^ bits.

(** [std::size_t] on the 64-bit hosts the program is built for. *)
Definition size_t (x : Z) : Z := wrap 64 x.
Definition uint8_t (x : Z) : Z := wrap 8 x.
Definition uint16_t (x : Z) : Z := wrap 16 x.
Definition uint32_t (x : Z) : Z := wrap 32 x.

(** Reinterpretation of a [bits]-wide unsigned value as two's complement. *)
Definition to_signed (bits : Z) (x : Z) : Z :=
  if x <? 2 ^ (bits - 1) then x else x - 2 ^ bits.

Definition byte_val (b : byte) : Z := Z.of_N (Byte.to_N b).

(** A little-endian load, as a [reinterpret_cast] of the buffer does on the
    little-endian host that [endian.h] asserts. *)
Fixpoint le_load (bs : list byte) : Z :=
  match bs with
  | [] => 0
  | b :: rest => byte_val b + 256 * le_load rest
  end.

(** Bytes shown as characters ([std::copy] from the payload into a string). *)
Definition text_of_bytes (bs : list byte) : string := string_of_list_byte bs.

(* ================================================================== *)
(** * filereader.h / filereader.cpp *)

Module fs.

Inductive reader_type : Type := file_precache | file_map.

(** [reader::OVERRUN_EOF]. *)
Definition OVERRUN_EOF : Z := 2 ^ 64 - 1.

(** The fields of [reader]; [data_] stands for the shared immutable bytes
    ([buffer_] of [file_precache], [mapped_file_] of [file_map]) and
    [impl] records which of the two final classes the object is. *)
Record reader : Type := mk_reader {
  impl : reader_type;
  data_ : list byte;
  pos_ : Z;
  len_ : Z;
  chunk_len_ : Z;
  overrun_ : Z;
  current_offset_ : Z;
  first_valid_offset_ : Z
}.

Definition with_pos (p : Z) (r : reader) : reader :=
  mk_reader (impl r) (data_ r) p (len_ r) (chunk_len_ r) (overrun_ r)
            (current_offset_ r) (first_valid_offset_ r).

Definition with_chunk_len (c : Z) (r : reader) : reader :=
  mk_reader (impl r) (data_ r) (pos_ r) (len_ r) c (overrun_ r)
            (current_offset_ r) (first_valid_offset_ r).

Definition with_overrun (o : Z) (r : reader) : reader :=
  mk_reader (impl r) (data_ r) (pos_ r) (len_ r) (chunk_len_ r) o
            (current_offset_ r) (first_valid_offset_ r).

Definition with_first_valid_offset (o : Z) (r : reader) : reader :=
  mk_reader (impl r) (data_ r) (pos_ r) (len_ r) (chunk_len_ r) (overrun_ r)
            (current_offset_ r) o.

(** The constructors of [file_precache] and [file_map] over the bytes of
    the file: [len_] is the file size, every other field keeps its default
    member initializer. *)
Definition factory (type : reader_type) (file : list byte) : reader :=
  mk_reader type file 0 (Z.of_nat (List.length file)) (2 ^ 64 - 1) 0 0 0.

(** [clone()] copy-constructs the object. *)
Definition clone (r : reader) : reader := r.

(** [reader::split]. *)
Definition split (r : reader) (num : Z) : outcome (list reader) :=
  if len_ r =? 0 then Throw eof
  else
    Ret (map (fun k : nat =>
                let i := Z.of_nat k in
                let reader_begin := size_t (len_ r / num * i) in
                let reader_end := size_t (len_ r / num * (i + 1) - 1) in
                with_chunk_len reader_end (with_pos reader_begin (clone r)))
             (seq 0 (Z.to_nat num))).

Definition get_overrun (r : reader) : Z := overrun_ r.
Definition get_first_valid_offset (r : reader) : Z := first_valid_offset_ r.

(** [reader::notify_success]: the object after the call and how the call
    ended. *)
Definition notify_success (r : reader) (offset : Z) : outcome unit * reader :=
  let r1 := if first_valid_offset_ r =? 0
            then with_first_valid_offset offset r else r in
  if pos_ r1 =? len_ r1 then (Throw eof, r1) else (Ret tt, r1).

(** [file_precache::read]; the returned pointer is modelled by its offset
    into the buffer. *)
Definition file_precache_read (r : reader) (bytes_to_read : Z)
  : outcome Z * reader :=
  let new_pos := size_t (pos_ r + bytes_to_read) in
  if len_ r <? new_pos then
    (Throw (parse_exception "file ended with incomplete record" true),
     with_overrun OVERRUN_EOF r)
  else
    let r1 := if chunk_len_ r <? new_pos then with_overrun new_pos r else r in
    (Ret (pos_ r), with_pos new_pos r1).

(** [file_map::read]. *)
Definition file_map_read (r : reader) (bytes_to_read : Z)
  : outcome Z * reader :=
  if len_ r <? size_t (pos_ r + bytes_to_read) then (Throw eof, r)
  else (Ret (pos_ r), with_pos (size_t (pos_ r + bytes_to_read)) r).

(** The virtual call [reader::read]. *)
Definition read (r : reader) (bytes_to_read : Z) : outcome Z * reader :=
  match impl r with
  | file_precache => file_precache_read r bytes_to_read
  | file_map => file_map_read r bytes_to_read
  end.

(** [set_pos] is the same in both classes: an [assert], then the store.
    [assertions] tells whether [assert] is compiled in (it is not under
    [NDEBUG]). *)
Definition set_pos (assertions : bool) (r : reader) (pos : Z)
  : outcome unit * reader :=
  if assertions && negb (pos <? len_ r) then (AssertFailed, r)
  else (Ret tt, with_pos pos r).

Definition get_pos (r : reader) : Z := pos_ r.

(** The bytes behind a pointer returned by [read]: from the offset to the
    end of the buffer. *)
Definition deref (r : reader) (ptr : Z) : list byte :=
  skipn (Z.to_nat ptr) (data_ r).

End fs.

(* ================================================================== *)
(** * endian.h *)

Module endian.

Definition bswap16 (val : Z) : Z :=
  Z.lor (Z.land (Z.shiftr val 8) 0x00FF) (Z.land (Z.shiftl val 8) 0xFF00).

Definition bswap32 (val : Z) : Z :=
  Z.lor (Z.lor (Z.land (Z.shiftr val 24) 0x000000FF)
               (Z.land (Z.shiftr val 8) 0x0000FF00))
        (Z.lor (Z.land (Z.shiftl val 8) 0x00FF0000)
               (Z.land (Z.shiftl val 24) 0xFF000000)).

Definition bswap64 (val : Z) : Z :=
  Z.lor
    (Z.lor (Z.lor (Z.land (Z.shiftr val 56) 0x00000000000000FF)
                  (Z.land (Z.shiftr val 40) 0x000000000000FF00))
           (Z.lor (Z.land (Z.shiftr val 24) 0x0000000000FF0000)
                  (Z.land (Z.shiftr val 8) 0x00000000FF000000)))
    (Z.lor (Z.lor (Z.land (Z.shiftl val 8) 0x000000FF00000000)
                  (Z.land (Z.shiftl val 24) 0x0000FF0000000000))
           (Z.lor (Z.land (Z.shiftl val 40) 0x00FF000000000000)
                  (Z.land (Z.shiftl val 56) 0xFF00000000000000))).

Definition read16_swap (val : Z) (big_endian : bool) : Z :=
  if negb big_endian then val else bswap16 val.
Definition read32_swap (val : Z) (big_endian : bool) : Z :=
  if negb big_endian then val else bswap32 val.
Definition read64_swap (val : Z) (big_endian : bool) : Z :=
  if negb big_endian then val else bswap64 val.

(** A load of [n] bytes through a pointer into the file buffer; [buf] is
    what lies between the pointer and the end of the buffer.  The header
    says "we assume buf contains enough bytes": past the buffer the load
    has no defined behaviour. *)
Definition load (n : nat) (buf : list byte) : outcome Z :=
  if (List.length buf <? n)%nat then Undefined else Ret (le_load (firstn n buf)).

Definition read8 (buf : list byte) (big_endian : bool) : outcome Z :=
  load 1 buf.
Definition read16 (buf : list byte) (big_endian : bool) : outcome Z :=
  val <- load 2 buf ;; Ret (read16_swap val big_endian).
Definition read32 (buf : list byte) (big_endian : bool) : outcome Z :=
  val <- load 4 buf ;; Ret (read32_swap val big_endian).
Definition read64 (buf : list byte) (big_endian : bool) : outcome Z :=
  val <- load 8 buf ;; Ret (read64_swap val big_endian).

(** [read<T>]: [read_helper<T>] selects by [sizeof(T)]; the value is
    returned as the unsigned bit pattern, the caller reinterprets it. *)
Definition read (size : nat) (payload : list byte) (big_endian : bool)
  : outcome Z :=
  match size with
  | 1%nat => read8 payload big_endian
  | 2%nat => read16 payload big_endian
  | 4%nat => read32 payload big_endian
  | _ => read64 payload big_endian
  end.

(** [extract<T>]: the value and the advanced pointer. *)
Definition extract (size : nat) (payload : list byte) (big_endian : bool)
  : outcome (Z * list byte) :=
  val <- read size payload big_endian ;; Ret (val, skipn size payload).

End endian.

(* ================================================================== *)
(** * The formatting library used by argparser.h

    [fmt::format_to] and [std::to_string] are not part of the repository.
    Integers are rendered as the library documents them; the shortest
    round-trip rendering of floating point values is left to an interface. *)

Module fmt.

(** ["{}"] on an integer, and [std::to_string]. *)
Definition dec (val : Z) : string :=
  DecimalString.NilZero.string_of_int (Z.to_int val).

(** ["{:#x}"] on an unsigned integer. *)
Definition hex (val : Z) : string :=
  ("0x" ++ HexadecimalString.NilZero.string_of_uint (N.to_hex_uint (Z.to_N val)))%string.

Fixpoint bin_digits (p : positive) (acc : string) : string :=
  match p with
  | xH => String "1" acc
  | xO q => bin_digits q (String "0" acc)
  | xI q => bin_digits q (String "1" acc)
  end.

(** ["{:#b}"] on an unsigned integer. *)
Definition bin (val : Z) : string :=
  match val with
  | Zpos p => ("0b" ++ bin_digits p "")%string
  | _ => "0b0"%string
  end.

(** ["{}"] on a [bool]. *)
Definition boolean (val : Z) : string :=
  if val =? 0 then "false"%string else "true"%string.

(** ["{}"] on a [float] and on a [double], from the bit pattern. *)
Class FloatFormat : Type := {
  float32 : Z -> string;
  float64 : Z -> string
}.

End fmt.

(* ================================================================== *)
(** * std::string operations used on the output buffer *)

(** [resize(n)]: truncates, or pads with the NUL character. *)
Fixpoint resize (n : nat) (s : string) : string :=
  match n with
  | O => EmptyString
  | S n' =>
      match s with
      | EmptyString => String Ascii.zero (resize n' EmptyString)
      | String c s' => String c (resize n' s')
      end
  end.

(** Stores of the characters of [t] over [s] from its first character on;
    a store past the end of [s] is dropped. *)
Fixpoint overwrite (t s : string) : string :=
  match t, s with
  | String c t', String _ s' => String c (overwrite t' s')
  | _, _ => s
  end.

(** The same stores from index [offset] on. *)
Fixpoint write_at (offset : nat) (t s : string) : string :=
  match offset, s with
  | O, _ => overwrite t s
  | S o, String c s' => String c (write_at o t s')
  | S _, EmptyString => EmptyString
  end.

(** What a [const char*] obtained from [c_str()] reads as. *)
Fixpoint c_str (s : string) : string :=
  match s with
  | EmptyString => EmptyString
  | String c s' =>
      if Ascii.eqb c Ascii.zero then EmptyString else String c (c_str s')
  end.

Definition push_back (c : ascii) (s : string) : string :=
  (s ++ String c EmptyString)%string.

(* ================================================================== *)
(** * argparser.h *)

Module conformance_arg.

(** [enum class ArgType]. *)
Definition INFO_BOOL : Z := 0x00000010.
Definition INFO_SINT : Z := 0x00000020.
Definition INFO_UINT : Z := 0x00000040.
Definition INFO_FLOA : Z := 0x00000080.
Definition INFO_ARAY : Z := 0x00000100.
Definition INFO_STRG : Z := 0x00000200.
Definition INFO_RAWD : Z := 0x00000400.
Definition INFO_VARI : Z := 0x00000800.
Definition INFO_FIXP : Z := 0x00001000.
Definition INFO_TRAI : Z := 0x00002000.
Definition INFO_STRU : Z := 0x00004000.

Definition ArgTyleMask : Z := 0x0000000f.
Definition ArgCodingMask : Z := 0x00038000.

(** [enum class TyleType]. *)
Definition TYLE_8BIT : Z := 1.
Definition TYLE_16BIT : Z := 2.
Definition TYLE_32BIT : Z := 3.
Definition TYLE_64BIT : Z := 4.
Definition TYLE_128BIT : Z := 5.

(** [enum class CodingType]. *)
Definition SCOD_ASCII : Z := 0x00000000.
Definition SCOD_UTF8 : Z := 0x00008000.
Definition SCOD_HEX : Z := 0x00010000.
Definition SCOD_BIN : Z := 0x00018000.

End conformance_arg.

Module ArgParser.
Import conformance_arg.

(** [detail::operator&] on [ArgType]: the masked underlying value; in a
    condition it is tested against zero. *)
Definition has (type mask : Z) : bool := negb (Z.land type mask =? 0).

(** The members of the class. *)
Record t : Type := mk {
  payload_ : list byte;
  output_ : string
}.

Definition hexLiterals : list ascii :=
  ["0"; "1"; "2"; "3"; "4"; "5"; "6"; "7";
   "8"; "9"; "A"; "B"; "C"; "D"; "E"; "F"]%char.

Definition hexLiteral (i : Z) : ascii := nth (Z.to_nat i) hexLiterals Ascii.zero.

(** The two characters the loop of [parseRaw] stores for each byte. *)
Fixpoint raw_hex (bs : list byte) : string :=
  match bs with
  | [] => EmptyString
  | b :: rest =>
      String (hexLiteral (Z.shiftr (byte_val b) 4))
             (String (hexLiteral (Z.land (byte_val b) 0x0F)) (raw_hex rest))
  end.

(** The types [parseTyle] is instantiated at. *)
Inductive tyle : Type :=
| T_uint (size : nat)
| T_int (size : nat)
| T_float
| T_double
| T_bool.

Definition sizeof (T : tyle) : nat :=
  match T with
  | T_uint size | T_int size => size
  | T_float => 4%nat
  | T_double => 8%nat
  | T_bool => 1%nat
  end.

Inductive Radix : Type := DEC | HEX | BIN.

Section Parser.
Context {FF : fmt.FloatFormat}.
(** The template parameter of the class. *)
Variable BigEndian : bool.

(** ["{}"] at type [T] on the bits read from the payload. *)
Definition format_default (T : tyle) (bits : Z) : string :=
  match T with
  | T_uint _ => fmt.dec bits
  | T_int size => fmt.dec (to_signed (8 * Z.of_nat size) bits)
  | T_float => fmt.float32 bits
  | T_double => fmt.float64 bits
  | T_bool => fmt.boolean bits
  end.

(** [parseTyle<T, R>()]. *)
Definition parseTyle_radix (T : tyle) (R : Radix) (p : t) : outcome t :=
  ve <- endian.extract (sizeof T) (payload_ p) BigEndian ;;
  let val := fst ve in
  let out1 :=
    match R with
    | HEX => (output_ p ++ fmt.hex val)%string
    | BIN => (output_ p ++ fmt.bin val)%string
    | DEC => output_ p
    end in
  Ret (mk (snd ve) (out1 ++ format_default T val)%string).

(** [parseTyle<T>(scod_type)]. *)
Definition parseTyle (T : tyle) (scod_type : Z) (p : t) : outcome t :=
  if scod_type =? SCOD_HEX then parseTyle_radix T HEX p
  else if scod_type =? SCOD_BIN then parseTyle_radix T BIN p
  else parseTyle_radix T DEC p.

Definition parseUInt (tyle_type scod_type : Z) (p : t) : outcome t :=
  if tyle_type =? TYLE_8BIT then parseTyle (T_uint 1) scod_type p
  else if tyle_type =? TYLE_16BIT then parseTyle (T_uint 2) scod_type p
  else if tyle_type =? TYLE_32BIT then parseTyle (T_uint 4) scod_type p
  else if tyle_type =? TYLE_64BIT then parseTyle (T_uint 8) scod_type p
  else if tyle_type =? TYLE_128BIT
       then Throw (parse_exception "not supported yet" false)
  else Throw (parse_exception "unknown tyle type" false).

Definition parseSInt (tyle_type : Z) (p : t) : outcome t :=
  if tyle_type =? TYLE_8BIT then parseTyle_radix (T_int 1) DEC p
  else if tyle_type =? TYLE_16BIT then parseTyle_radix (T_int 2) DEC p
  else if tyle_type =? TYLE_32BIT then parseTyle_radix (T_int 4) DEC p
  else if tyle_type =? TYLE_64BIT then parseTyle_radix (T_int 8) DEC p
  else if tyle_type =? TYLE_128BIT
       then Throw (parse_exception "not supported yet" false)
  else Throw (parse_exception "unknown tyle type" false).

Definition parseFloat (tyle_type : Z) (p : t) : outcome t :=
  if tyle_type =? TYLE_32BIT then parseTyle_radix T_float DEC p
  else if tyle_type =? TYLE_64BIT then parseTyle_radix T_double DEC p
  else Throw (parse_exception "unknown tyle type" false).

Definition parseBool (p : t) : outcome t := parseTyle_radix T_bool DEC p.

(** [parseStr]. *)
Definition parseStr (scod_type : Z) (p : t) : outcome t :=
  len <- endian.read 2 (payload_ p) BigEndian ;;
  if len =? 0 then Throw (parse_exception "INFO_STRG len is 0" false)
  else
    let payload := skipn 2 (payload_ p) in
    let offset := String.length (output_ p) in
    let output :=
      resize (Z.to_nat (Z.of_nat (String.length (output_ p)) + len - 1))
             (output_ p) in
    if scod_type =? SCOD_ASCII then
      match nth_error payload (Z.to_nat (len - 1)) with
      | None => Undefined
      | Some last =>
          if negb (byte_val last =? 0)
          then Throw (parse_exception "string is not null-terminated" false)
          else
            Ret (mk (skipn (Z.to_nat len) payload)
                    (write_at offset
                       (text_of_bytes (firstn (Z.to_nat (len - 1)) payload))
                       output))
      end
    else if scod_type =? SCOD_UTF8
         then Throw (parse_exception "SCOD_UTF8 is not supported yet" false)
    else Throw (parse_exception "incorrect CodingType of string" false).

(** [parseRaw]. *)
Definition parseRaw (p : t) : outcome t :=
  len <- endian.read 2 (payload_ p) BigEndian ;;
  let payload := skipn 2 (payload_ p) in
  let offset := String.length (output_ p) in
  let output :=
    resize (Z.to_nat (Z.of_nat (String.length (output_ p)) + len * 2 + 1))
           (output_ p) in
  if (List.length payload <? Z.to_nat len)%nat then Undefined
  else
    Ret (mk (skipn (Z.to_nat len) payload)
            (write_at offset (raw_hex (firstn (Z.to_nat len) payload)) output)).

(** [parse()]: one argument. *)
Definition parse (p : t) : outcome t :=
  type <- endian.read 4 (payload_ p) BigEndian ;;
  let p := mk (skipn 4 (payload_ p)) (output_ p) in
  if has type INFO_STRG then
    if has type INFO_VARI
    then Throw (parse_exception "how could string be variable?" false)
    else parseStr (Z.land type ArgCodingMask) p
  else if has type INFO_UINT
       then parseUInt (Z.land type ArgTyleMask) (Z.land type ArgCodingMask) p
  else if has type INFO_SINT then parseSInt (Z.land type ArgTyleMask) p
  else if has type INFO_FLOA then parseFloat (Z.land type ArgTyleMask) p
  else if has type INFO_BOOL then parseBool p
  else if has type INFO_RAWD then parseRaw p
  else if has type INFO_FIXP || has type INFO_TRAI || has type INFO_STRU
       then Throw (parse_exception "not supported yet" false)
  else Throw (parse_exception "unknown argument type" false).

(** The loops of the constructor, [count] arguments to go. *)
Fixpoint parse_args (count : nat) (p : t) : outcome t :=
  match count with
  | O => Ret p
  | S O => parse p
  | S count' =>
      p1 <- parse p ;;
      parse_args count' (mk (payload_ p1) (push_back " " (output_ p1)))
  end.

(** The constructor followed by the conversion to [std::string]. *)
Definition run (payload : list byte) (count : Z) : outcome string :=
  p <- parse_args (Z.to_nat count) (mk payload EmptyString) ;;
  Ret (output_ p).

End Parser.

End ArgParser.

(* ================================================================== *)
(** * record.cpp: the conformance layer *)

Module conformance.

Definition DLT_ID_SIZE : Z := 4.

(** [enum class HtypMask]. *)
Definition UEH : Z := 0x01.
Definition MSBF : Z := 0x02.
Definition WEID : Z := 0x04.
Definition WSID : Z := 0x08.
Definition WTMS : Z := 0x10.
Definition VERS : Z := 0xe0.

(** [enum class MsinMask]. *)
Definition VERB : Z := 0x01.
Definition MSTP : Z := 0x0e.
Definition MTIN : Z := 0xf0.

Inductive Mode : Type := Unknown | NonVerbose | Verbose.

(** [enum class MsgType : int8_t]; [type_] receives any value of the
    three-bit MSTP field, so it is kept as a number. *)
Definition TypeUnknown : Z := -2.
Definition TypeLog : Z := 0.
Definition TypeAppTrace : Z := 1.
Definition TypeNwTrace : Z := 2.
Definition TypeControl : Z := 3.

(** [enum class ControlType]. *)
Definition ControlRequest : Z := 1.
Definition ControlResponse : Z := 2.
Definition ControlTime : Z := 3.

(** [enum class CtrlServiceId], the members the code names. *)
Definition SET_LOG_LEVEL : Z := 1.
Definition GET_SOFTWARE_VERSION : Z := 19.
Definition MESSAGE_BUFFER_OVERFLOW : Z := 20.
Definition UNREGISTER_CONTEXT : Z := 0xf01.
Definition CONNECTION_INFO : Z := 0xf02.
Definition TIMEZONE : Z := 0xf03.
Definition MARKER : Z := 0xf04.
Definition CALLSW_CINJECTION : Z := 0xFFF.

Definition CtrlServiceIdStrings : list string :=
  [""; "set_log_level"; "set_trace_status"; "get_log_info";
   "get_default_log_level"; "store_config"; "reset_to_factory_default";
   "set_com_interface_status"; "set_com_interface_max_bandwidth";
   "set_verbose_mode"; "set_message_filtering"; "set_timing_packets";
   "get_local_time"; "use_ecu_id"; "use_session_id"; "use_timestamp";
   "use_extended_header"; "set_default_log_level";
   "set_default_trace_status"; "get_software_version";
   "message_buffer_overflow"]%string.

Definition getCtrlServiceIdName (id : Z) : string :=
  let index := id in
  if (index <? SET_LOG_LEVEL) || (MESSAGE_BUFFER_OVERFLOW <? index)
  then ("service(" ++ fmt.dec index ++ ")")%string
  else nth (Z.to_nat index) CtrlServiceIdStrings EmptyString.

Definition CtrlReturnTypeStrings : list string :=
  ["ok"; "not_supported"; "error"; "3"; "4"; "5"; "6"; "7";
   "no_matching_context_id"]%string.

Definition getCtrlReturnTypeName (type : Z) : outcome string :=
  let index := type in
  if Z.of_nat (List.length CtrlReturnTypeStrings) <=? index
  then Throw (parse_exception "invalid CtrlReturnType" false)
  else Ret (nth (Z.to_nat index) CtrlReturnTypeStrings EmptyString).

(** [enum class ConnectionStatus]: DISCONNECTED = 1, CONNECTED = 2. *)
Definition getConnectionStatus (status : Z) : string :=
  if status =? 1 then "disconnected"%string
  else if status =? 2 then "connected"%string
  else "unknown"%string.

Definition extractHtyp (htyp mask : Z) : bool := negb (Z.land htyp mask =? 0).

(** [extractMsin<mask>]: the shift is 0 for VERB, 1 for MSTP, 4 for MTIN. *)
Definition extractMsin (mask : Z) (msin : Z) : Z :=
  let shift := if mask =? VERB then 0 else if mask =? MSTP then 1 else 4 in
  uint8_t (Z.shiftr (Z.land msin mask) shift).

(** The packed structures; an [ID4] is its four bytes. *)
Record DltStorageHeader : Type := mk_storage {
  pattern : list byte;
  seconds : Z;
  microseconds : Z;
  st_ecu : list byte
}.

Record DltStandardHeader : Type := mk_standard {
  htyp : Z;
  mcnt : Z;
  len : Z
}.

Record DltStandardHeaderExtra : Type := mk_extra {
  ex_ecu : list byte;
  seid : Z;
  tmsp : Z
}.

Record DltExtendedHeader : Type := mk_extended {
  msin : Z;
  noar : Z;
  apid : list byte;
  ctid : list byte
}.

Definition sizeof_DltStorageHeader : Z := 16.
Definition sizeof_DltStandardHeader : Z := 4.
Definition sizeof_DltExtendedHeader : Z := 10.

Definition ID4_zero : list byte := [x00; x00; x00; x00].

End conformance.

(* ================================================================== *)
(** * record.cpp: Record::Impl *)

Module Impl.
Import conformance.

Definition SUBTYPE_UNKNOWN : Z := -2.

(** The data members of [Record::Impl]. *)
Record t : Type := mk {
  corruptionCause_ : option string;
  storageHeader_ : DltStorageHeader;
  standardHeader_ : DltStandardHeader;
  standartHeaderExtra_ : DltStandardHeaderExtra;
  extendedHeader_ : DltExtendedHeader;
  isBigEndian_ : bool;
  mode_ : Mode;
  type_ : Z;
  subType_ : Z;
  ctrlReturnType_ : Z;
  ctrlServiceId_ : Z;
  message_ : string
}.

(** [Impl() = default]: the default member initializers. *)
Definition default : t :=
  mk None
     (mk_storage ID4_zero 0 0 ID4_zero)
     (mk_standard 0 0 0)
     (mk_extra ID4_zero 0 0)
     (mk_extended 0 0 ID4_zero ID4_zero)
     false NonVerbose TypeUnknown SUBTYPE_UNKNOWN 0 0 EmptyString.

Definition with_corruptionCause (c : option string) (r : t) : t :=
  mk c (storageHeader_ r) (standardHeader_ r) (standartHeaderExtra_ r)
     (extendedHeader_ r) (isBigEndian_ r) (mode_ r) (type_ r) (subType_ r)
     (ctrlReturnType_ r) (ctrlServiceId_ r) (message_ r).

Definition with_storageHeader (h : DltStorageHeader) (r : t) : t :=
  mk (corruptionCause_ r) h (standardHeader_ r) (standartHeaderExtra_ r)
     (extendedHeader_ r) (isBigEndian_ r) (mode_ r) (type_ r) (subType_ r)
     (ctrlReturnType_ r) (ctrlServiceId_ r) (message_ r).

Definition with_standardHeader (h : DltStandardHeader) (r : t) : t :=
  mk (corruptionCause_ r) (storageHeader_ r) h (standartHeaderExtra_ r)
     (extendedHeader_ r) (isBigEndian_ r) (mode_ r) (type_ r) (subType_ r)
     (ctrlReturnType_ r) (ctrlServiceId_ r) (message_ r).

Definition with_standartHeaderExtra (h : DltStandardHeaderExtra) (r : t) : t :=
  mk (corruptionCause_ r) (storageHeader_ r) (standardHeader_ r) h
     (extendedHeader_ r) (isBigEndian_ r) (mode_ r) (type_ r) (subType_ r)
     (ctrlReturnType_ r) (ctrlServiceId_ r) (message_ r).

Definition with_extendedHeader (h : DltExtendedHeader) (r : t) : t :=
  mk (corruptionCause_ r) (storageHeader_ r) (standardHeader_ r)
     (standartHeaderExtra_ r) h (isBigEndian_ r) (mode_ r) (type_ r)
     (subType_ r) (ctrlReturnType_ r) (ctrlServiceId_ r) (message_ r).

Definition with_isBigEndian (b : bool) (r : t) : t :=
  mk (corruptionCause_ r) (storageHeader_ r) (standardHeader_ r)
     (standartHeaderExtra_ r) (extendedHeader_ r) b (mode_ r) (type_ r)
     (subType_ r) (ctrlReturnType_ r) (ctrlServiceId_ r) (message_ r).

Definition with_mode (m : Mode) (r : t) : t :=
  mk (corruptionCause_ r) (storageHeader_ r) (standardHeader_ r)
     (standartHeaderExtra_ r) (extendedHeader_ r) (isBigEndian_ r) m (type_ r)
     (subType_ r) (ctrlReturnType_ r) (ctrlServiceId_ r) (message_ r).

Definition with_type (ty : Z) (r : t) : t :=
  mk (corruptionCause_ r) (storageHeader_ r) (standardHeader_ r)
     (standartHeaderExtra_ r) (extendedHeader_ r) (isBigEndian_ r) (mode_ r) ty
     (subType_ r) (ctrlReturnType_ r) (ctrlServiceId_ r) (message_ r).

Definition with_subType (st : Z) (r : t) : t :=
  mk (corruptionCause_ r) (storageHeader_ r) (standardHeader_ r)
     (standartHeaderExtra_ r) (extendedHeader_ r) (isBigEndian_ r) (mode_ r)
     (type_ r) st (ctrlReturnType_ r) (ctrlServiceId_ r) (message_ r).

Definition with_ctrlReturnType (c : Z) (r : t) : t :=
  mk (corruptionCause_ r) (storageHeader_ r) (standardHeader_ r)
     (standartHeaderExtra_ r) (extendedHeader_ r) (isBigEndian_ r) (mode_ r)
     (type_ r) (subType_ r) c (ctrlServiceId_ r) (message_ r).

Definition with_ctrlServiceId (c : Z) (r : t) : t :=
  mk (corruptionCause_ r) (storageHeader_ r) (standardHeader_ r)
     (standartHeaderExtra_ r) (extendedHeader_ r) (isBigEndian_ r) (mode_ r)
     (type_ r) (subType_ r) (ctrlReturnType_ r) c (message_ r).

Definition with_message (m : string) (r : t) : t :=
  mk (corruptionCause_ r) (storageHeader_ r) (standardHeader_ r)
     (standartHeaderExtra_ r) (extendedHeader_ r) (isBigEndian_ r) (mode_ r)
     (type_ r) (subType_ r) (ctrlReturnType_ r) (ctrlServiceId_ r) m.

(** [get_view]. *)
Definition get_view (field : list byte) : string :=
  let at_ (i : nat) := byte_val (nth i field x00) in
  let len := if negb (at_ 3%nat =? 0) then 4%nat
             else if negb (at_ 2%nat =? 0) then 3%nat
             else if negb (at_ 1%nat =? 0) then 2%nat
             else if negb (at_ 0%nat =? 0) then 1%nat else 0%nat in
  text_of_bytes (firstn len field).

(** ** The private [parse(fs::reader&)]

    The function works on the reader, on [*this] and on its local [len];
    the three are threaded together. *)
Record pstate : Type := mk_pstate {
  p_reader : fs.reader;
  p_self : t;
  p_len : Z
}.

Definition M (A : Type) : Type := pstate -> outcome A * pstate.

Definition ret {A : Type} (a : A) : M A := fun s => (Ret a, s).

Definition seq_ {A B : Type} (m : M A) (k : A -> M B) : M B :=
  fun s =>
    match m s with
    | (Ret a, s1) => k a s1
    | (Throw e, s1) => (Throw e, s1)
    | (AssertFailed, s1) => (AssertFailed, s1)
    | (Undefined, s1) => (Undefined, s1)
    | (OutOfFuel, s1) => (OutOfFuel, s1)
    end.

Definition throw {A : Type} (e : exn) : M A := fun s => (Throw e, s).

Definition when (c : bool) (m : M unit) : M unit := if c then m else ret tt.

(** A store into [*this]. *)
Definition modify (f : t -> t) : M unit :=
  fun s => (Ret tt, mk_pstate (p_reader s) (f (p_self s)) (p_len s)).

Definition get_self : M t := fun s => (Ret (p_self s), s).

(** [reader.read(n)], returning the bytes behind the pointer. *)
Definition reader_read (n : Z) : M (list byte) :=
  fun s =>
    match fs.read (p_reader s) n with
    | (Ret ptr, rd) => (Ret (fs.deref rd ptr), mk_pstate rd (p_self s) (p_len s))
    | (Throw e, rd) => (Throw e, mk_pstate rd (p_self s) (p_len s))
    | (AssertFailed, rd) => (AssertFailed, mk_pstate rd (p_self s) (p_len s))
    | (Undefined, rd) => (Undefined, mk_pstate rd (p_self s) (p_len s))
    | (OutOfFuel, rd) => (OutOfFuel, mk_pstate rd (p_self s) (p_len s))
    end.

(** The lambda [readData]: [memcpy] of [size] bytes into the field, then
    [len += sizeof(field)] on the 16-bit local. *)
Definition readData (size : Z) (store : list byte -> t -> t) : M unit :=
  fun s =>
    match reader_read size s with
    | (Ret data, s1) =>
        (Ret tt,
         mk_pstate (p_reader s1)
                   (store (firstn (Z.to_nat size) data) (p_self s1))
                   (uint16_t (p_len s1 + size)))
    | (Throw e, s1) => (Throw e, s1)
    | (AssertFailed, s1) => (AssertFailed, s1)
    | (Undefined, s1) => (Undefined, s1)
    | (OutOfFuel, s1) => (OutOfFuel, s1)
    end.

Definition lift {A : Type} (o : outcome A) : M A := fun s => (o, s).

Notation "x <~ c ;; k" := (seq_ c (fun x => k))
  (at level 61, c at next level, right associativity).

Definition signature_ok (pattern : list byte) : bool :=
  negb (negb (Byte.eqb (nth 0 pattern x00) "D"%byte)
        || negb (Byte.eqb (nth 1 pattern x00) "L"%byte)
        || negb (Byte.eqb (nth 2 pattern x00) "T"%byte)
        || negb (Byte.eqb (nth 3 pattern x00) x01)).

(** The stores of the [memcpy]s into the packed structures. *)
Definition store_pattern (b : list byte) (r : t) : t :=
  let h := storageHeader_ r in
  with_storageHeader (mk_storage b (seconds h) (microseconds h) (st_ecu h)) r.
Definition store_seconds (b : list byte) (r : t) : t :=
  let h := storageHeader_ r in
  with_storageHeader (mk_storage (pattern h) (le_load b) (microseconds h) (st_ecu h)) r.
Definition store_microseconds (b : list byte) (r : t) : t :=
  let h := storageHeader_ r in
  with_storageHeader (mk_storage (pattern h) (seconds h) (le_load b) (st_ecu h)) r.
Definition store_storage_ecu (b : list byte) (r : t) : t :=
  let h := storageHeader_ r in
  with_storageHeader (mk_storage (pattern h) (seconds h) (microseconds h) b) r.
Definition store_standardHeader (b : list byte) (r : t) : t :=
  with_standardHeader
    (mk_standard (le_load (firstn 1 b)) (le_load (firstn 1 (skipn 1 b)))
                 (le_load (skipn 2 b))) r.
Definition store_extra_ecu (b : list byte) (r : t) : t :=
  let h := standartHeaderExtra_ r in
  with_standartHeaderExtra (mk_extra b (seid h) (tmsp h)) r.
Definition store_seid (b : list byte) (r : t) : t :=
  let h := standartHeaderExtra_ r in
  with_standartHeaderExtra
    (mk_extra (ex_ecu h) (endian.read32_swap (le_load b) true) (tmsp h)) r.
Definition store_tmsp (b : list byte) (r : t) : t :=
  let h := standartHeaderExtra_ r in
  with_standartHeaderExtra
    (mk_extra (ex_ecu h) (seid h) (endian.read32_swap (le_load b) true)) r.
Definition store_extendedHeader (b : list byte) (r : t) : t :=
  with_extendedHeader
    (mk_extended (le_load (firstn 1 b)) (le_load (firstn 1 (skipn 1 b)))
                 (firstn 4 (skipn 2 b)) (firstn 4 (skipn 6 b))) r.

(** The mode, type and subtype taken from [msin]. *)
Definition store_msin_fields (r : t) : t :=
  let msin := msin (extendedHeader_ r) in
  let r1 := if negb (extractMsin VERB msin =? 0) then with_mode Verbose r else r in
  with_subType (extractMsin MTIN msin) (with_type (extractMsin MSTP msin) r1).

(** [parse(reader)] up to the computation of the body length. *)
Definition parse_headers : M Z :=
  _ <~ readData 4 store_pattern ;;
  self <~ get_self ;;
  if negb (signature_ok (pattern (storageHeader_ self)))
  then throw (parse_exception "invalid DLT signature" false)
  else
    _ <~ readData 4 store_seconds ;;
    _ <~ readData 4 store_microseconds ;;
    _ <~ readData 4 store_storage_ecu ;;
    _ <~ readData sizeof_DltStandardHeader store_standardHeader ;;
    self <~ get_self ;;
    let htyp := htyp (standardHeader_ self) in
    _ <~ modify (with_isBigEndian (extractHtyp htyp MSBF)) ;;
    _ <~ when (extractHtyp htyp WEID) (readData 4 store_extra_ecu) ;;
    _ <~ when (extractHtyp htyp WSID) (readData 4 store_seid) ;;
    _ <~ when (extractHtyp htyp WTMS) (readData 4 store_tmsp) ;;
    _ <~ when (extractHtyp htyp UEH)
           (_ <~ readData sizeof_DltExtendedHeader store_extendedHeader ;;
            modify store_msin_fields) ;;
    fun s =>
      (Ret (uint16_t
              (size_t (endian.read16_swap (len (standardHeader_ (p_self s))) true
                       - size_t (p_len s - sizeof_DltStorageHeader)))),
       s).

Section Parse.
Context {FF : fmt.FloatFormat}.

(** The tail of the control-response branch, after the header text. *)
Definition control_response_details (id : Z) (header : string)
           (payload_ : list byte) : M unit :=
  if id =? GET_SOFTWARE_VERSION then
    lp <~ lift (endian.extract 4 payload_ false) ;;
    let len := fst lp in
    let payload_ := snd lp in
    if (List.length payload_ <? Z.to_nat len)%nat then lift Undefined
    else modify (with_message
                   (header ++ text_of_bytes (firstn (Z.to_nat len) payload_)))
  else if id =? CONNECTION_INFO then
    sp <~ lift (endian.extract 1 payload_ false) ;;
    let payload_ := snd sp in
    let message := (header ++ getConnectionStatus (fst sp) ++ " ")%string in
    if (List.length payload_ <? Z.to_nat DLT_ID_SIZE)%nat then lift Undefined
    else modify (with_message
                   (message ++ text_of_bytes
                                 (firstn (Z.to_nat DLT_ID_SIZE) payload_)))
  else if id =? TIMEZONE then
    tp <~ lift (endian.extract 4 payload_ false) ;;
    _ <~ modify (with_message (fmt.dec (fst tp))) ;;
    dp <~ lift (endian.extract 1 (snd tp) false) ;;
    if negb (fst dp =? 0)
    then modify (with_message (fmt.dec (fst tp) ++ "DST"))
    else ret tt
  else ret tt.

(** [assembleMessage]. *)
Definition assembleMessage (payload_ : list byte) : M unit :=
  self <~ get_self ;;
  if type_ self =? TypeControl then
    match mode_ self with
    | Verbose =>
        throw (parse_exception
                 "no support for verbose ctrl messages. is it required?" false)
    | _ =>
        ip <~ lift (endian.extract 4 payload_ (isBigEndian_ self)) ;;
        let id := fst ip in
        let payload_ := snd ip in
        _ <~ modify (with_ctrlServiceId id) ;;
        if subType_ self =? ControlResponse then
          rp <~ lift (endian.extract 1 payload_ false) ;;
          let payload_ := snd rp in
          _ <~ modify (with_ctrlReturnType (fst rp)) ;;
          if id =? MARKER then modify (with_message "MARKER")
          else
            name <~ lift (getCtrlReturnTypeName (fst rp)) ;;
            let header :=
              ("[" ++ getCtrlServiceIdName id ++ " " ++ name ++ "] ")%string in
            _ <~ modify (with_message header) ;;
            control_response_details id header payload_
        else
          modify (with_message ("[" ++ getCtrlServiceIdName id ++ "]"))
    end
  else
    match mode_ self with
    | Verbose =>
        if 0 <? noar (extendedHeader_ self) then
          message <~ lift (ArgParser.run (isBigEndian_ self) payload_
                                         (noar (extendedHeader_ self))) ;;
          modify (with_message message)
        else ret tt
    | _ =>
        ip <~ lift (endian.extract 4 payload_ false) ;;
        modify (with_message ("[" ++ fmt.dec (fst ip) ++ "]"))
    end.

(** The private [parse(fs::reader&)]. *)
Definition parse_body : M unit :=
  len <~ parse_headers ;;
  data <~ reader_read len ;;
  assembleMessage data.

Definition parse_reader (reader : fs.reader) (self : t)
  : outcome unit * fs.reader * t :=
  let '(o, s) := parse_body (mk_pstate reader self 0) in
  (o, p_reader s, p_self s).

(** The public [parse(self, reader, parse_except_handler)].  The handler
    is a callback into its owner: [H] is the state the callback captures
    by reference. *)
Fixpoint parse {H : Type} (assertions : bool) (fuel : nat)
         (parse_except_handler : option (t -> H -> H))
         (reader : fs.reader) (self : t) (h : H)
  : outcome unit * fs.reader * t * H :=
  match fuel with
  | O => (OutOfFuel, reader, self, h)
  | S fuel' =>
      let current_pos := fs.get_pos reader in
      match parse_reader reader self with
      | (Ret _, reader1, self1) =>
          let '(o, reader2) := fs.notify_success reader1 current_pos in
          (o, reader2, self1, h)
      | (Throw (parse_exception what nested), reader1, self1) =>
          let '(self2, h1) :=
            match parse_except_handler with
            | Some handler =>
                (with_corruptionCause None self1,
                 handler (with_corruptionCause (Some what) self1) h)
            | None => (self1, h)
            end in
          if nested then
            (* std::rethrow_if_nested *)
            (Throw eof, reader1, self2, h1)
          else
            match fs.set_pos assertions reader1 (size_t (current_pos + 1)) with
            | (Ret _, reader2) =>
                parse assertions fuel' parse_except_handler reader2 self2 h1
            | (o, reader2) => (o, reader2, self2, h1)
            end
      | (o, reader1, self1) => (o, reader1, self1, h)
      end
  end.

Definition isCorrupted (r : t) : bool :=
  match corruptionCause_ r with Some _ => true | None => false end.

(** [std::optional::value()] throws when the optional is empty. *)
Definition getCorruptionCause (r : t) : outcome string :=
  match corruptionCause_ r with
  | Some cause => Ret cause
  | None => Throw bad_optional_access
  end.

(** [Record::getMessage] hands out [message_.c_str()]: a reader of the
    [const char*] sees the text up to the first NUL character. *)
Definition getMessage (r : t) : string := c_str (message_ r).

End Parse.

End Impl.

(** [Record] is a handle on its [Impl]; copying a record clones the [Impl],
    so a record is modelled by the value of its [Impl]. *)
Definition Record : Type := Impl.t.

(* ================================================================== *)
(** * thread_supervisor.h / thread_supervisor.cpp *)

Module task.

Record t : Type := mk {
  reader_ : fs.reader;
  records_ : list Record
}.

(** [task::task]. *)
Definition make (reader : fs.reader) : t := mk reader [].

Definition get_reader (tk : t) : fs.reader := reader_ tk.
Definition result (tk : t) : list Record := records_ tk.

(** The lambda [parse_exception_handler]; it captures [this] and works on
    [records_]. *)
Definition parse_exception_handler (record : Record) (records : list Record)
  : list Record :=
  if (List.length records =? 0)%nat
     || negb (Impl.isCorrupted (last records Impl.default))
  then records ++ [record]
  else records.

Section Execute.
Context {FF : fmt.FloatFormat}.

(** [task::execute].  [holder] is [supervisor::exception_ptr_holder];
    [fuel] bounds the iterations of the loop and of the loop inside
    [Record::parse]. *)
Fixpoint execute_loop (assertions : bool) (fuel inner : nat)
         (holder : option exn) (tk : t)
  : outcome unit * t * option exn :=
  match fuel with
  | O => (OutOfFuel, tk, holder)
  | S fuel' =>
      let record := Impl.default in
      match Impl.parse assertions inner (Some parse_exception_handler)
                       (reader_ tk) record (records_ tk) with
      | (Ret _, reader, record, records) =>
          let tk1 := mk reader (records ++ [record]) in
          if 0 <? fs.get_overrun reader then (Ret tt, tk1, holder)
          else
            match holder with
            | Some _ => (Ret tt, tk1, holder)
            | None => execute_loop assertions fuel' inner holder tk1
            end
      | (Throw eof, reader, _, records) => (Ret tt, mk reader records, holder)
      | (Throw e, reader, _, records) => (Ret tt, mk reader records, Some e)
      | (o, reader, _, records) => (o, mk reader records, holder)
      end
  end.

(** Every iteration of either loop moves the cursor forward, so the
    length of the file bounds both. *)
Definition fuel_for (tk : t) : nat := S (Z.to_nat (fs.len_ (reader_ tk))).

Definition execute (assertions : bool) (holder : option exn) (tk : t)
  : outcome unit * t * option exn :=
  execute_loop assertions (fuel_for tk) (fuel_for tk) holder tk.

End Execute.

End task.

Module supervisor.

Record t : Type := mk {
  threads_num_ : Z;
  tasks_ : list task.t
}.

(** [supervisor::supervisor]; [cores_num] is what the host reports (at
    least 1), stored into the 8-bit [threads_num_]. *)
Definition make (reader : fs.reader) (cores_num : Z) : outcome t :=
  let threads_num := uint8_t cores_num in
  readers <- fs.split reader threads_num ;;
  Ret (mk threads_num (map task.make readers)).

Definition default_task : task.t := task.make (fs.factory fs.file_precache []).

(** The decision taken for chunk [i] in the merge loop.  [assertions] tells
    whether [assert] is compiled in (it is not under [NDEBUG]). *)
Definition skip_first_record (assertions : bool) (tasks : list task.t)
           (results : list (list Record)) (i : nat) : outcome bool :=
  let results_i := nth i results [] in
  if (0 <? List.length results_i)%nat
     && Impl.isCorrupted (nth 0 results_i Impl.default)
  then
    let prev_overrun :=
      fs.get_overrun (task.get_reader (nth (i - 1) tasks default_task)) in
    let cur_overrun :=
      fs.get_overrun (task.get_reader (nth i tasks default_task)) in
    let cur_valid_offset :=
      fs.get_first_valid_offset (task.get_reader (nth i tasks default_task)) in
    if (0 <? prev_overrun) && (prev_overrun =? cur_valid_offset) then Ret true
    else if (prev_overrun =? fs.OVERRUN_EOF) && (cur_overrun =? fs.OVERRUN_EOF)
    then
      if assertions && negb (List.length results_i =? 1)%nat then AssertFailed
      else Ret true
    else Ret false
  else Ret false.

(** The merge loop, [count] chunks to go from chunk [i] on. *)
Fixpoint merge_loop (assertions : bool) (tasks : list task.t)
         (results : list (list Record)) (count i : nat)
         (records : list Record) : outcome (list Record) :=
  match count with
  | O => Ret records
  | S count' =>
      skip <- skip_first_record assertions tasks results i ;;
      merge_loop assertions tasks results count' (S i)
                 (records ++ skipn (if skip : bool then 1 else 0)
                                   (nth i results []))
  end.

(** The second half of [supervisor::execute]: [records] is assigned the
    first result, the others are appended. *)
Definition merge (assertions : bool) (threads_num : Z) (tasks : list task.t)
           (results : list (list Record)) : outcome (list Record) :=
  match results with
  | [] => Undefined
  | results_0 :: _ =>
      merge_loop assertions tasks results (Z.to_nat threads_num - 1) 1 results_0
  end.

Section Execute.
Context {FF : fmt.FloatFormat}.

(** The threads.  A task touches its own reader and record list only; the
    one shared cell is [exception_ptr_holder], which no task writes
    unless something other than [eof] escapes [Record::parse].  The
    tasks are therefore run one after the other, in chunk order. *)
Fixpoint run_tasks (assertions : bool) (holder : option exn)
         (tasks : list task.t)
  : outcome (list task.t) * option exn :=
  match tasks with
  | [] => (Ret [], holder)
  | tk :: rest =>
      match task.execute assertions holder tk with
      | (Ret _, tk1, holder1) =>
          match run_tasks assertions holder1 rest with
          | (Ret rest1, holder2) => (Ret (tk1 :: rest1), holder2)
          | other => other
          end
      | (Throw e, _, holder1) => (Throw e, holder1)
      | (AssertFailed, _, holder1) => (AssertFailed, holder1)
      | (Undefined, _, holder1) => (Undefined, holder1)
      | (OutOfFuel, _, holder1) => (OutOfFuel, holder1)
      end
  end.

(** [supervisor::execute(records)]: the records and the exception the
    call rethrows, if any. *)
Definition execute (assertions : bool) (s : t) : outcome (list Record) :=
  match run_tasks assertions None (tasks_ s) with
  | (Ret tasks, holder) =>
      let results := map task.result tasks in
      records <- merge assertions (threads_num_ s) tasks results ;;
      match holder with
      | Some e => Throw e
      | None => Ret records
      end
  | (Throw e, _) => Throw e
  | (AssertFailed, _) => AssertFailed
  | (Undefined, _) => Undefined
  | (OutOfFuel, _) => OutOfFuel
  end.

(** What [dlt_file_adapter::parse] (interface.cpp) does with the bytes of
    a file, for a given reader and number of cores: an [eof] that leaves
    the supervisor is swallowed and the record list stays empty. *)
Definition parse_file (assertions : bool) (type : fs.reader_type)
           (file : list byte) (cores_num : Z) : outcome (list Record) :=
  match (s <- make (fs.factory type file) cores_num ;; execute assertions s) with
  | Throw eof => Ret []
  | other => other
  end.

End Execute.

End supervisor.

(* ================================================================== *)
(** * record.cpp: the accessors of the public record view *)

Module view.

(** [getApid], [getCtid], [getEcu] and [getEcuExtra]: the identifier up to
    its last byte that is not zero. *)
Definition getApid (r : Record) : string :=
  Impl.get_view (conformance.apid (Impl.extendedHeader_ r)).
Definition getCtid (r : Record) : string :=
  Impl.get_view (conformance.ctid (Impl.extendedHeader_ r)).
Definition getEcu (r : Record) : string :=
  Impl.get_view (conformance.st_ecu (Impl.storageHeader_ r)).
Definition getEcuExtra (r : Record) : string :=
  Impl.get_view (conformance.ex_ecu (Impl.standartHeaderExtra_ r)).

(** [getTimestamp]: the seconds are widened to 64 bits before the
    multiplication. *)
Definition getTimestamp (r : Record) : Z :=
  wrap 64 (wrap 64 (conformance.seconds (Impl.storageHeader_ r) * 1000000)
           + conformance.microseconds (Impl.storageHeader_ r)).

Definition getTimestampExtra (r : Record) : Z :=
  conformance.tmsp (Impl.standartHeaderExtra_ r).
Definition getSessionId (r : Record) : Z :=
  conformance.seid (Impl.standartHeaderExtra_ r).
Definition getMessageCounter (r : Record) : Z :=
  conformance.mcnt (Impl.standardHeader_ r).
Definition getType (r : Record) : Z := Impl.type_ r.
Definition getSubType (r : Record) : Z := Impl.subType_ r.

End view.

(* ================================================================== *)
(** * lazy.h *)

Module lazy.

(** The members of [lazy::string] that carry its value: the parts in the
    order they were added and the flag of the one allowed evaluation.
    [pointers_] only keeps the buffers of the parts alive. *)
Record t : Type := mk {
  parts_ : list string;
  is_evaluated_ : bool
}.

(** A default-constructed [lazy::string]. *)
Definition empty : t := mk [] false.

(** [operator+] and [operator+=]. *)
Definition plus (s : t) (str : string) : t :=
  mk (parts_ s ++ [str]) (is_evaluated_ s).

(** [append(ptr, length)]: the part is the first [length] characters of
    the buffer handed over. *)
Definition append (s : t) (buffer : string) (length : nat) : t :=
  plus s (substring 0 length buffer).

(** How the conversion to [std::string] ends. *)
Inductive evaluation : Type :=
| evaluated (text : string)
| logic_error (what : string).

(** [operator std::string()]: the result, and the object after the call.
    The length summed in the first pass only sizes the reservation. *)
Definition to_string (s : t) : evaluation * t :=
  if is_evaluated_ s
  then (logic_error "this string is already evaluated", s)
  else (evaluated (fold_left String.append (parts_ s) EmptyString),
        mk (parts_ s) true).

End lazy.

(** No two records in a row are corrupted placeholders. *)
Fixpoint no_corrupted_pair (records : list Record) : bool :=
  match records with
  | a :: rest =>
      match rest with
      | b :: _ => negb (Impl.isCorrupted a && Impl.isCorrupted b)
      | [] => true
      end && no_corrupted_pair rest
  | [] => true
  end.

(** Whether a string holds a NUL character. *)
Fixpoint has_nul (s : string) : bool :=
  match s with
  | EmptyString => false
  | String c s' => Ascii.eqb c Ascii.zero || has_nul s'
  end.

(* ================================================================== *)
(** * Example inputs *)

Module samples.

(** A rendering of floating point values by their bit pattern, for the
    examples; none of them contains a FLOAT argument. *)
Definition bit_patterns : fmt.FloatFormat :=
  fmt.Build_FloatFormat fmt.hex fmt.hex.

(** A non-verbose log record with an extended header: storage header
    (signature, seconds 1, microseconds 2, ECU1), [htyp] 0x21, counter 7,
    length 18, [msin] 0x40, no arguments, APP1, CTX1, message id 42. *)
Definition log_record : list byte :=
  [x44; x4c; x54; x01;  x01; x00; x00; x00;  x02; x00; x00; x00;
   x45; x43; x55; x31;
   x21; x07; x00; x12;
   x40; x00;  x41; x50; x50; x31;  x43; x54; x58; x31;
   x2a; x00; x00; x00].

(** A record without extended header: [htyp] 0x20, counter 8, length 8,
    message id 7. *)
Definition short_record : list byte :=
  [x44; x4c; x54; x01;  x01; x00; x00; x00;  x03; x00; x00; x00;
   x45; x43; x55; x31;
   x20; x08; x00; x08;
   x07; x00; x00; x00].

(** A verbose log record that announces no argument: [msin] 0x41, [noar]
    0, length 16, and two body bytes that nothing reads. *)
Definition verbose_empty_record : list byte :=
  [x44; x4c; x54; x01;  x01; x00; x00; x00;  x04; x00; x00; x00;
   x45; x43; x55; x31;
   x21; x09; x00; x10;
   x41; x00;  x41; x50; x50; x31;  x43; x54; x58; x31;
   xaa; xbb].

(** Verbose payloads in little-endian records: a 32-bit UINT with HEX
    coding, a RAW argument of three bytes, the string "hi!". *)
Definition uint_hex_arg : list byte :=
  [x43; x00; x01; x00;  x78; x56; x34; x12].
Definition raw_arg : list byte :=
  [x00; x04; x00; x00;  x03; x00;  xde; xad; xbe].
Definition string_arg : list byte :=
  [x00; x02; x00; x00;  x04; x00;  x68; x69; x21; x00].

Definition five_bytes : list byte := [x00; x01; x02; x03; x04].

(** A record like [short_record] with counter 9 and message id 8. *)
Definition tail_record : list byte :=
  [x44; x4c; x54; x01;  x01; x00; x00; x00;  x03; x00; x00; x00;
   x45; x43; x55; x31;
   x20; x09; x00; x08;
   x08; x00; x00; x00].

(** A valid file of 51 records of 24 bytes each: 49 times [short_record],
    then [tail_record] at offsets 1176 to 1199, then [short_record] once
    more. *)
Definition file_with_tail : list byte :=
  List.concat (repeat short_record 49) ++ tail_record ++ short_record.

(** The same cursor over the same bytes, once as [file_precache] and once
    as [file_map]: four bytes, the cursor at 0, the chunk fence at 1. *)
Definition fenced_source (type : fs.reader_type) : fs.reader :=
  fs.with_chunk_len 1 (fs.factory type [x0a; x0b; x0c; x0d]).

(** The private [parse(reader)] on a file that holds the verbose record. *)
Definition verbose_empty_parse : outcome unit * fs.reader * Impl.t :=
  Impl.parse_reader (FF := bit_patterns)
                    (fs.factory fs.file_precache verbose_empty_record)
                    Impl.default.

End samples.

(* ================================================================== *)
(** * The statements of the specification *)

(** When a STRING argument of announced length [len], with [data] behind the
    length field, is a parse failure. *)
Definition string_argument_fails (type len : Z) (data : list byte) : bool :=
  (len =? 0)
  || negb (Z.land type conformance_arg.ArgCodingMask =? conformance_arg.SCOD_ASCII)
  || negb (byte_val (nth (Z.to_nat (len - 1)) data x00) =? 0)
  || ArgParser.has type conformance_arg.INFO_VARI.

(** Leading-corruption reconciliation: the first record of a chunk is
    dropped iff it is corrupted and either the previous chunk overran to
    exactly the first valid offset of this one, or both chunks ran off the
    end of the file. *)
Definition leading_record_dropped (prev cur : fs.reader) (chunk : list Record)
  : bool :=
  match chunk with
  | [] => false
  | first :: _ =>
      Impl.isCorrupted first
      && (((0 <? fs.get_overrun prev)
           && (fs.get_overrun prev =? fs.get_first_valid_offset cur))
          || ((fs.get_overrun prev =? fs.OVERRUN_EOF)
              && (fs.get_overrun cur =? fs.OVERRUN_EOF)))
  end.

(** What chunk [i > 0] contributes to the merged list. *)
Definition chunk_contribution (tasks : list task.t)
           (results : list (list Record)) (i : nat) : list Record :=
  let prev := task.get_reader (nth (i - 1) tasks supervisor.default_task) in
  let cur := task.get_reader (nth i tasks supervisor.default_task) in
  let chunk := nth i results [] in
  if leading_record_dropped prev cur chunk then tl chunk else chunk.

(** The merged list: the first chunk whole, then the contributions of the
    chunks 1 to [threads_num - 1] in order. *)
Definition merged (threads_num : Z) (tasks : list task.t)
           (results : list (list Record)) : list Record :=
  nth 0 results []
  ++ List.concat (map (chunk_contribution tasks results)
                 (seq 1 (Z.to_nat threads_num - 1))).

(** The one [assert] of the merge: it is reached for a chunk dropped on the
    second ground only, and fails when that chunk has more than its
    corrupted record. *)
Definition assert_fails (tasks : list task.t) (results : list (list Record))
           (i : nat) : bool :=
  let prev := task.get_reader (nth (i - 1) tasks supervisor.default_task) in
  let cur := task.get_reader (nth i tasks supervisor.default_task) in
  let chunk := nth i results [] in
  leading_record_dropped prev cur chunk
  && negb ((0 <? fs.get_overrun prev)
           && (fs.get_overrun prev =? fs.get_first_valid_offset cur))
  && negb (List.length chunk =? 1)%nat.

(** What the specification promises about worker [i] of [n] on a file of
    [len] bytes. *)
Definition split_as_specified (len n : Z) (i : nat) (w : fs.reader) : Prop :=
  fs.pos_ w = len * Z.of_nat i / n /\
  fs.chunk_len_ w = len * (Z.of_nat i + 1) / n - 1.

(** A step of [parse(reader)] that leaves an observation [proj] of [*this]
    as it found it, however the step ends. *)
Definition keeps {X A : Type} (proj : Impl.t -> X) (m : Impl.M A) : Prop :=
  forall s, proj (Impl.p_self (snd (m s))) = proj (Impl.p_self s).

(** What decides the branch of [assembleMessage]. *)
Definition kind_of (r : Impl.t) : conformance.Mode * Z * conformance.DltExtendedHeader :=
  (Impl.mode_ r, Impl.type_ r, Impl.extendedHeader_ r).

(* ================================================================== *)
(** * Further statements about the code *)

(** The reader after a run of [notify_success] calls, one per offset; an
    [eof] thrown by a call leaves the object as the call made it. *)
Definition notify_all (r : fs.reader) (offsets : list Z) : fs.reader :=
  fold_left (fun rd offset => snd (fs.notify_success rd offset)) offsets r.

(** The first offset that is not 0, or 0 when there is none. *)
Definition first_nonzero (offsets : list Z) : Z :=
  hd 0 (filter (fun offset => negb (offset =? 0)) offsets).

(** Offset [b] lies in the region of the cursor [w]: between its start and
    its fence. *)
Definition in_region (b : Z) (w : fs.reader) : Prop :=
  fs.pos_ w <= b <= fs.chunk_len_ w.

(** The kind bit that decides how [ArgParser::parse] treats a type-info
    word: the first one set, in the order of the tests. *)
Definition dispatched (type : Z) : option Z :=
  find (ArgParser.has type)
       [conformance_arg.INFO_STRG; conformance_arg.INFO_UINT;
        conformance_arg.INFO_SINT; conformance_arg.INFO_FLOA;
        conformance_arg.INFO_BOOL; conformance_arg.INFO_RAWD].

(** The bytes of an integer as [read<T>] orders them. *)
Definition in_order (big_endian : bool) (bs : list byte) : list byte :=
  if big_endian then rev bs else bs.

(** A file in which no offset starts with the storage-header signature. *)
Definition no_signature (data : list byte) : Prop :=
  forall p : nat, Impl.signature_ok (firstn 4 (skipn p data)) = false.

(** A cursor of [file_precache] as the program builds them: the length is
    that of the buffer, the cursor is inside the file, and the file is small
    enough for offsets not to wrap. *)
Definition precache_cursor (r : fs.reader) : Prop :=
  fs.impl r = fs.file_precache /\
  fs.len_ r = Z.of_nat (List.length (fs.data_ r)) /\
  0 <= fs.pos_ r <= fs.len_ r /\
  fs.len_ r < 2 ^ 63.

(** The cause recorded for a placeholder when the attempt at offset [pos]
    fails on a file of [len] bytes without signature. *)
Definition cause_at (pos len : Z) : string :=
  if pos + 4 <=? len then "invalid DLT signature"%string
  else "file ended with incomplete record"%string.

(** A task that ended with one corrupted placeholder and nothing else, its
    cursor having run off the end of the file before any record was found. *)
Definition spent_on_garbage (tk : task.t) : Prop :=
  exists placeholder,
    task.records_ tk = [placeholder] /\
    Impl.isCorrupted placeholder = true /\
    fs.get_overrun (task.reader_ tk) = fs.OVERRUN_EOF /\
    fs.get_first_valid_offset (task.reader_ tk) = 0.

(** A task as the supervisor builds it over a file without signature. *)
Definition ready_on_garbage (tk : task.t) : Prop :=
  task.records_ tk = [] /\
  precache_cursor (task.reader_ tk) /\
  no_signature (fs.data_ (task.reader_ tk)) /\
  fs.get_first_valid_offset (task.reader_ tk) = 0.

(** A cursor inside its file, the file small enough for offsets not to
    wrap. *)
Definition cursor_ok (r : fs.reader) : Prop :=
  0 <= fs.pos_ r <= fs.len_ r /\ fs.len_ r < 2 ^ 63.

(** What reading may do to a reader: the kind, the bytes, the length, the
    fence and the first valid offset stay, the cursor does not move back and
    stays inside the file. *)
Definition reader_advanced (r r' : fs.reader) : Prop :=
  fs.impl r' = fs.impl r /\
  fs.data_ r' = fs.data_ r /\
  fs.len_ r' = fs.len_ r /\
  fs.chunk_len_ r' = fs.chunk_len_ r /\
  fs.first_valid_offset_ r' = fs.first_valid_offset_ r /\
  fs.pos_ r <= fs.pos_ r' <= fs.len_ r'.

(** A step of [parse(reader)] that treats the reader so and is not cut short
    by the fuel of the embedding. *)
Definition sound_step {A : Type} (m : Impl.M A) : Prop :=
  forall s,
    cursor_ok (Impl.p_reader s) ->
    reader_advanced (Impl.p_reader s) (Impl.p_reader (snd (m s))) /\
    fst (m s) <> OutOfFuel.

(** A step whose results all satisfy [P]. *)
Definition returns_in {A : Type} (P : A -> Prop) (m : Impl.M A) : Prop :=
  forall s a, fst (m s) = Ret a -> P a.

(** The outcomes of an attempt after which the cursor is known to have
    passed the signature: a record, or a parse failure that is not the end
    of the file. *)
Definition past_signature {A : Type} (o : outcome A) : bool :=
  match o with
  | Ret _ => true
  | Throw (parse_exception _ false) => true
  | _ => false
  end.

(** The same file behind two states of a reader. *)
Definition same_file (r r' : fs.reader) : Prop :=
  fs.impl r' = fs.impl r /\ fs.data_ r' = fs.data_ r /\
  fs.len_ r' = fs.len_ r /\ fs.chunk_len_ r' = fs.chunk_len_ r.

(** The bytes that [parse(reader)] reads after the storage header and
    before the payload: the standard header, the extra fields that [htyp]
    announces and the extended header. *)
Definition header_size (htyp : Z) : Z :=
  conformance.sizeof_DltStandardHeader
  + (if conformance.extractHtyp htyp conformance.WEID then 4 else 0)
  + (if conformance.extractHtyp htyp conformance.WSID then 4 else 0)
  + (if conformance.extractHtyp htyp conformance.WTMS then 4 else 0)
  + (if conformance.extractHtyp htyp conformance.UEH
     then conformance.sizeof_DltExtendedHeader else 0).

(** The length that the standard header of a record declares: its [len]
    field read as big endian. *)
Definition declared_length (r : Impl.t) : Z :=
  endian.read16_swap (conformance.len (Impl.standardHeader_ r)) true.

(** A step that leaves the reader alone. *)
Definition leaves_reader {A : Type} (m : Impl.M A) : Prop :=
  forall s, Impl.p_reader (snd (m s)) = Impl.p_reader s.

(** An outcome other than the escape of [std::bad_optional_access]. *)
Definition no_bad_access {A : Type} (o : outcome A) : Prop :=
  o <> Throw bad_optional_access.

(** A step of [parse(reader)] that never lets [std::bad_optional_access]
    escape. *)
Definition step_no_bad_access {A : Type} (m : Impl.M A) : Prop :=
  forall s, no_bad_access (fst (m s)).

(** The texts of [count] arguments, each rendered on its own from where the
    one before it ended. *)
Fixpoint argument_texts {FF : fmt.FloatFormat} (BigEndian : bool)
         (count : nat) (payload : list byte) : outcome (list string) :=
  match count with
  | O => Ret []
  | S count' =>
      q <- ArgParser.parse BigEndian (ArgParser.mk payload EmptyString) ;;
      rest <- argument_texts BigEndian count' (ArgParser.payload_ q) ;;
      Ret (ArgParser.output_ q :: rest)
  end.

(* ================================================================== *)
(** * The byte source *)

Lemma size_t_small (x : Z) : 0 <= x < 2 ^ 64 -> size_t x = x.
Proof. intros H. unfold size_t, wrap. now apply Z.mod_small. Qed.

Lemma nth_map_seq {A : Type} (f : nat -> A) (n i : nat) (d : A) :
  (i < n)%nat -> nth i (map f (seq 0 n)) d = f i.
Proof.
  intros Hi.
  rewrite (nth_indep _ d (f 0%nat)) by now rewrite length_map, length_seq.
  rewrite map_nth, seq_nth by assumption.
  reflexivity.
Qed.

(** The smallest case: on a file of five bytes split in two, the fence of
    worker 1 is 3 and not [floor(5*2/2) - 1 = 4]. *)
Lemma split_fence_is_not_floor :
  exists readers,
    fs.split (fs.factory fs.file_precache samples.five_bytes) 2 = Ret readers /\
    fs.chunk_len_ (nth 1 readers (fs.factory fs.file_precache [])) = 3 /\
    ~ split_as_specified 5 2 1 (nth 1 readers (fs.factory fs.file_precache [])).
Proof.
  eexists. split; [reflexivity|]. split; [reflexivity|].
  unfold split_as_specified. cbn. intros [_ H]. discriminate H.
Qed.

(** The cursor and the fence of every worker, as [split] computes them. *)
Lemma split_worker (r : fs.reader) (n : Z) :
  0 < fs.len_ r < 2 ^ 64 ->
  1 <= n <= 255 ->
  exists readers,
    fs.split r n = Ret readers /\
    List.length readers = Z.to_nat n /\
    forall (i : nat) (d : fs.reader),
      (i < Z.to_nat n)%nat ->
      fs.pos_ (nth i readers d) = fs.len_ r / n * Z.of_nat i /\
      fs.chunk_len_ (nth i readers d)
      = size_t (fs.len_ r / n * (Z.of_nat i + 1) - 1).
Proof.
  intros Hlen Hn. unfold fs.split.
  destruct (Z.eqb_spec (fs.len_ r) 0) as [E|_]; [lia|].
  eexists. split; [reflexivity|].
  split; [now rewrite length_map, length_seq|].
  intros i d Hi. rewrite nth_map_seq by assumption. cbn.
  split; [|reflexivity].
  apply size_t_small.
  assert (0 <= fs.len_ r / n) by (apply Z.div_pos; lia).
  assert (n * (fs.len_ r / n) <= fs.len_ r) by (apply Z.mul_div_le; lia).
  nia.
Qed.

(** C4: [split] takes the quotient [len / num] before it multiplies, also
    for the last worker, so the end of the file belongs to no worker.  On
    the valid file of 51 records of 24 bytes split in 49, worker 48 starts
    at 1152 with the fence 1175 where [floor(1224*48/49) = 1199] and
    [floor(1224*49/49) - 1 = 1223] are promised, and the offsets from 1176
    on lie in the region of no worker.  The record that starts at 1176 is
    valid: one worker returns it as its last record, 49 workers return the
    49 records before it and never parse it. *)
Theorem split_leaves_the_tail_unparsed :
  forall (FF : fmt.FloatFormat) (assertions : bool),
    (exists readers,
        fs.split (fs.factory fs.file_precache samples.file_with_tail) 49
        = Ret readers /\
        List.length readers = 49%nat /\
        fs.pos_ (nth 48 readers (fs.factory fs.file_precache [])) = 1152 /\
        fs.chunk_len_ (nth 48 readers (fs.factory fs.file_precache [])) = 1175 /\
        ~ split_as_specified 1224 49 48
            (nth 48 readers (fs.factory fs.file_precache [])) /\
        forall (j : nat) (b : Z),
          (j < 49)%nat -> 1176 <= b < 1224 ->
          ~ in_region b (nth j readers (fs.factory fs.file_precache []))) /\
    (exists one many lost,
        supervisor.parse_file assertions fs.file_precache
          samples.file_with_tail 1
        = Ret one /\
        supervisor.parse_file assertions fs.file_precache
          samples.file_with_tail 49
        = Ret many /\
        one = many ++ [lost] /\
        List.length many = 49%nat /\
        Impl.isCorrupted lost = false /\
        Impl.message_ lost = "[8]"%string).
Proof.
  intros FF assertions. split.
  - destruct (split_worker
                (fs.factory fs.file_precache samples.file_with_tail) 49)
      as (readers & Hsplit & Hcount & Hnth).
    { vm_compute. split; reflexivity. }
    { lia. }
    exists readers. split; [exact Hsplit|]. split; [exact Hcount|].
    change (fs.len_ (fs.factory fs.file_precache samples.file_with_tail))
      with 1224 in Hnth.
    destruct (Hnth 48%nat (fs.factory fs.file_precache []) ltac:(cbn; lia))
      as [Hpos Hfence].
    rewrite size_t_small in Hfence
      by (vm_compute; split; [discriminate | reflexivity]).
    split; [rewrite Hpos; reflexivity|].
    split; [rewrite Hfence; reflexivity|].
    split.
    + unfold split_as_specified. rewrite Hpos. intros [H _].
      vm_compute in H. discriminate H.
    + intros j b Hj Hb. unfold in_region.
      destruct (Hnth j (fs.factory fs.file_precache []) ltac:(cbn; lia))
        as [Hp Hf].
      rewrite Hp, Hf. change (1224 / 49) with 24.
      rewrite size_t_small by lia. lia.
  - eexists. eexists. eexists.
    split; [destruct assertions; vm_compute; reflexivity|].
    split; [destruct assertions; vm_compute; reflexivity|].
    split; [reflexivity|].
    repeat split.
Qed.

(** C2: the two byte sources are told apart by their observation fields and
    by the exception they raise.  A read of three bytes crosses the fence:
    [file_precache] records the overrun 3, [file_map] leaves it 0.  A read of
    five bytes passes the end of the file: [file_precache] sets the overrun
    to [OVERRUN_EOF] and throws a [parse_exception] nesting [eof],
    [file_map] throws a bare [eof] and leaves the overrun 0. *)
Theorem byte_sources_differ :
  (fst (fs.read (samples.fenced_source fs.file_precache) 3) = Ret 0 /\
   fst (fs.read (samples.fenced_source fs.file_map) 3) = Ret 0 /\
   fs.get_overrun (snd (fs.read (samples.fenced_source fs.file_precache) 3)) = 3 /\
   fs.get_overrun (snd (fs.read (samples.fenced_source fs.file_map) 3)) = 0) /\
  (fs.read (samples.fenced_source fs.file_precache) 5 =
     (Throw (parse_exception "file ended with incomplete record" true),
      fs.with_overrun fs.OVERRUN_EOF (samples.fenced_source fs.file_precache)) /\
   fs.read (samples.fenced_source fs.file_map) 5 =
     (Throw eof, samples.fenced_source fs.file_map)).
Proof. repeat split. Qed.

(* ================================================================== *)
(** * The public record view *)

(** C9: on a record that is not corrupted, [getCorruptionCause] does not
    return a text: [value()] on the empty optional throws
    [std::bad_optional_access]. *)
Theorem getCorruptionCause_throws_when_valid :
  forall r : Record,
    Impl.isCorrupted r = false ->
    Impl.getCorruptionCause r = Throw bad_optional_access.
Proof.
  intros r H. unfold Impl.isCorrupted in H. unfold Impl.getCorruptionCause.
  destruct (Impl.corruptionCause_ r); [discriminate H | reflexivity].
Qed.

Lemma getCorruptionCause_throws_when_valid_witness :
  Impl.isCorrupted Impl.default = false /\
  Impl.getCorruptionCause Impl.default = Throw bad_optional_access.
Proof.
  split; [reflexivity|].
  apply (getCorruptionCause_throws_when_valid Impl.default). reflexivity.
Defined.

(* ================================================================== *)
(** * The record parser *)

Section Keeps.
Import Impl.
Context {X : Type} (proj : Impl.t -> X).

Lemma keeps_ret {A : Type} (a : A) : keeps proj (ret a).
Proof. intro s. reflexivity. Qed.

Lemma keeps_throw {A : Type} (e : exn) : keeps proj (@throw A e).
Proof. intro s. reflexivity. Qed.

Lemma keeps_lift {A : Type} (o : outcome A) : keeps proj (lift o).
Proof. intro s. reflexivity. Qed.

Lemma keeps_get_self : keeps proj get_self.
Proof. intro s. reflexivity. Qed.

Lemma keeps_reader_read (n : Z) : keeps proj (reader_read n).
Proof.
  intro s. unfold reader_read.
  destruct (fs.read (p_reader s) n) as [[ | | | | ] rd]; reflexivity.
Qed.

Lemma keeps_seq {A B : Type} (m : M A) (k : A -> M B) :
  keeps proj m -> (forall a, keeps proj (k a)) -> keeps proj (seq_ m k).
Proof.
  intros Hm Hk s. unfold seq_.
  specialize (Hm s).
  destruct (m s) as [[a | e | | | ] s1]; cbn in Hm |- *; try assumption.
  rewrite <- Hm. apply Hk.
Qed.

Lemma keeps_modify (f : Impl.t -> Impl.t) :
  (forall r, proj (f r) = proj r) -> keeps proj (modify f).
Proof. intros Hf s. cbn. apply Hf. Qed.

Lemma keeps_readData (n : Z) (store : list byte -> Impl.t -> Impl.t) :
  (forall b r, proj (store b r) = proj r) -> keeps proj (readData n store).
Proof.
  intros Hs s. unfold readData.
  pose proof (keeps_reader_read n s) as Hr.
  destruct (reader_read n s) as [[data | e | | | ] s1]; cbn in Hr |- *;
    try assumption.
  rewrite Hs. assumption.
Qed.

Lemma keeps_when (c : bool) (m : M unit) : keeps proj m -> keeps proj (when c m).
Proof. intros Hm. destruct c; [assumption | apply keeps_ret]. Qed.

End Keeps.

#[local] Ltac keeps_step :=
  first
    [ apply keeps_ret | apply keeps_throw | apply keeps_lift
    | apply keeps_get_self | apply keeps_reader_read
    | apply keeps_when
    | apply keeps_seq; [ | intros ? ]
    | apply keeps_modify; intros; reflexivity
    | apply keeps_readData; intros; reflexivity
    | match goal with
      | |- keeps _ (if ?c then _ else _) => destruct c
      | |- keeps _ (match ?x with _ => _ end) => destruct x
      end ].

(** The headers are read without touching [message_]. *)
Lemma parse_headers_keeps_message : keeps Impl.message_ Impl.parse_headers.
Proof.
  unfold Impl.parse_headers.
  repeat keeps_step.
  all: try (intro s; reflexivity).
  apply keeps_modify. intros r. unfold Impl.store_msin_fields.
  destruct (negb _); reflexivity.
Qed.

Lemma assembleMessage_keeps_kind {FF : fmt.FloatFormat} (payload : list byte) :
  keeps kind_of (Impl.assembleMessage payload).
Proof.
  unfold Impl.assembleMessage, Impl.control_response_details.
  repeat keeps_step.
Qed.

(** C10: when [parse(reader)] succeeds on a record that started with an empty
    message and the record is verbose, not a control message, and announces
    no argument, its message is empty: [assembleMessage] neither runs the
    argument parser nor reads a message id from the body. *)
Theorem verbose_without_arguments_has_empty_message :
  forall (FF : fmt.FloatFormat) (reader reader' : fs.reader) (self self' : Impl.t),
    Impl.message_ self = EmptyString ->
    Impl.parse_reader reader self = (Ret tt, reader', self') ->
    Impl.mode_ self' = conformance.Verbose ->
    Impl.type_ self' <> conformance.TypeControl ->
    conformance.noar (Impl.extendedHeader_ self') = 0 ->
    Impl.message_ self' = EmptyString /\ Impl.getMessage self' = EmptyString.
Proof.
  intros FF reader reader' self self' Hmsg Hparse Hmode Htype Hnoar.
  assert (Hgoal : Impl.message_ self' = EmptyString);
    [ | split; [exact Hgoal | unfold Impl.getMessage; now rewrite Hgoal] ].
  unfold Impl.parse_reader, Impl.parse_body in Hparse.
  set (s0 := Impl.mk_pstate reader self 0) in Hparse.
  pose proof (parse_headers_keeps_message s0) as Hh.
  unfold Impl.seq_ at 1 in Hparse.
  destruct (Impl.parse_headers s0) as [[len | e | | | ] s1]; cbn in Hh;
    try (cbn in Hparse; discriminate Hparse).
  pose proof (keeps_reader_read Impl.message_ len s1) as Hr.
  unfold Impl.seq_ at 1 in Hparse.
  destruct (Impl.reader_read len s1) as [[data | e | | | ] s2]; cbn in Hr;
    try (cbn in Hparse; discriminate Hparse).
  pose proof (assembleMessage_keeps_kind data s2) as Hk.
  destruct (Impl.assembleMessage data s2) as [o s3] eqn:Ha.
  injection Hparse as Ho Hrd Hself. subst self'.
  cbn in Hk. unfold kind_of in Hk. injection Hk as Hk1 Hk2 Hk3.
  rewrite Hk1 in Hmode. rewrite Hk2 in Htype. rewrite Hk3 in Hnoar.
  unfold Impl.assembleMessage, Impl.seq_ at 1, Impl.get_self in Ha.
  destruct (Z.eqb_spec (Impl.type_ (Impl.p_self s2)) conformance.TypeControl)
    as [E | _]; [contradiction|].
  rewrite Hmode, Hnoar in Ha. cbn in Ha.
  injection Ha as _ Hs. subst s3.
  rewrite Hr, Hh. exact Hmsg.
Qed.

Lemma verbose_without_arguments_has_empty_message_witness :
  fst (fst (samples.verbose_empty_parse)) = Ret tt /\
  Impl.message_ (snd samples.verbose_empty_parse) = EmptyString /\
  Impl.getMessage (snd samples.verbose_empty_parse) = EmptyString.
Proof.
  split; [reflexivity|].
  apply (verbose_without_arguments_has_empty_message
           samples.bit_patterns
           (fs.factory fs.file_precache samples.verbose_empty_record)
           (snd (fst samples.verbose_empty_parse))
           Impl.default
           (snd samples.verbose_empty_parse)).
  - reflexivity.
  - vm_compute. reflexivity.
  - vm_compute. reflexivity.
  - vm_compute. discriminate.
  - vm_compute. reflexivity.
Defined.

(* ================================================================== *)
(** * The argument parser *)

Lemma length_text_of_bytes (bs : list byte) :
  String.length (text_of_bytes bs) = List.length bs.
Proof.
  unfold text_of_bytes, string_of_list_byte.
  induction bs as [|b bs IH]; cbn; [reflexivity|].
  now rewrite IH.
Qed.

Lemma overwrite_padding (t : string) :
  overwrite t (resize (String.length t) EmptyString) = t.
Proof. induction t as [|c t IH]; cbn; [reflexivity | now rewrite IH]. Qed.

(** Growing the output by the length of a text and storing the text at the
    old end appends the text. *)
Lemma write_at_end_of_resized (s t : string) :
  write_at (String.length s) t (resize (String.length s + String.length t) s)
  = (s ++ t)%string.
Proof.
  induction s as [|c s IH]; cbn.
  - destruct t as [|c t]; cbn; [reflexivity|]. now rewrite overwrite_padding.
  - now rewrite IH.
Qed.

Lemma le_load_nonneg (bs : list byte) : 0 <= le_load bs.
Proof.
  induction bs as [|b bs IH]; [cbn; lia|].
  change (le_load (b :: bs)) with (byte_val b + 256 * le_load bs).
  pose proof (N2Z.is_nonneg (Byte.to_N b)) as Hb.
  unfold byte_val. lia.
Qed.

Lemma read_2_nonneg (buf : list byte) (big_endian : bool) (val : Z) :
  endian.read 2 buf big_endian = Ret val -> 0 <= val.
Proof.
  unfold endian.read, endian.read16, endian.load.
  destruct (List.length buf <? 2)%nat; cbn; [discriminate|].
  intros H. injection H as <-.
  pose proof (le_load_nonneg (firstn 2 buf)) as Hn.
  unfold endian.read16_swap. destruct big_endian; cbn; [|assumption].
  unfold endian.bswap16.
  apply Z.lor_nonneg. split; apply Z.land_nonneg; right; lia.
Qed.

(** C6: a STRING argument.  The payload starts with a type-info word that
    has the STRING bit, then the 16-bit length [len], then at least [len]
    bytes.  [parse] throws a parse failure exactly when [len] is 0, the
    coding is not ASCII, byte [len-1] is not NUL or the VARIABLE bit is set;
    otherwise it returns, having consumed exactly [len] bytes after the
    length and appended the first [len-1] of them to the output. *)
Theorem string_argument_parsed :
  forall (FF : fmt.FloatFormat) (BigEndian : bool) (p : ArgParser.t)
         (type len : Z),
    endian.read 4 (ArgParser.payload_ p) BigEndian = Ret type ->
    ArgParser.has type conformance_arg.INFO_STRG = true ->
    endian.read 2 (skipn 4 (ArgParser.payload_ p)) BigEndian = Ret len ->
    (Z.to_nat len <= List.length (skipn 6 (ArgParser.payload_ p)))%nat ->
    match ArgParser.parse BigEndian p with
    | Ret p' =>
        string_argument_fails type len (skipn 6 (ArgParser.payload_ p)) = false /\
        ArgParser.payload_ p' =
          skipn (Z.to_nat len) (skipn 6 (ArgParser.payload_ p)) /\
        ArgParser.output_ p' =
          (ArgParser.output_ p
           ++ text_of_bytes (firstn (Z.to_nat (len - 1))
                                    (skipn 6 (ArgParser.payload_ p))))%string
    | Throw (parse_exception _ false) =>
        string_argument_fails type len (skipn 6 (ArgParser.payload_ p)) = true
    | _ => False
    end.
Proof.
  intros FF BigEndian p type len Htype Hstrg Hlen Hdata.
  pose proof (read_2_nonneg _ _ _ Hlen) as Hnn.
  unfold ArgParser.parse. rewrite Htype. cbn [bind]. rewrite Hstrg.
  unfold string_argument_fails.
  destruct (ArgParser.has type conformance_arg.INFO_VARI).
  { now rewrite !orb_true_r. }
  rewrite orb_false_r.
  unfold ArgParser.parseStr. cbn [ArgParser.payload_ ArgParser.output_].
  rewrite Hlen. cbn [bind].
  rewrite skipn_skipn. change (2 + 4)%nat with 6%nat.
  set (data := skipn 6 (ArgParser.payload_ p)) in *.
  destruct (Z.eqb_spec len 0) as [E0 | N0]; [reflexivity|].
  cbn [orb].
  destruct (Z.eqb_spec (Z.land type conformance_arg.ArgCodingMask)
                       conformance_arg.SCOD_ASCII) as [Ea | Na].
  2:{ cbn [negb orb].
      destruct (Z.land type conformance_arg.ArgCodingMask
                =? conformance_arg.SCOD_UTF8); reflexivity. }
  cbn [negb orb].
  assert (Hlt : (Z.to_nat (len - 1) < List.length data)%nat) by lia.
  destruct (nth_error data (Z.to_nat (len - 1))) as [last|] eqn:Hnth.
  2:{ apply nth_error_None in Hnth. lia. }
  rewrite (nth_error_nth _ _ x00 Hnth).
  destruct (byte_val last =? 0); cbn [negb]; [|reflexivity].
  split; [reflexivity|]. split; [reflexivity|].
  cbn [ArgParser.output_].
  set (text := text_of_bytes (firstn (Z.to_nat (len - 1)) data)).
  assert (Htext : String.length text = Z.to_nat (len - 1)).
  { unfold text. rewrite length_text_of_bytes, length_firstn. lia. }
  replace (Z.to_nat (Z.of_nat (String.length (ArgParser.output_ p)) + len - 1))
    with (String.length (ArgParser.output_ p) + String.length text)%nat by lia.
  apply write_at_end_of_resized.
Qed.

Lemma string_argument_parsed_witness :
  ArgParser.parse (FF := samples.bit_patterns) false
                  (ArgParser.mk samples.string_arg EmptyString)
  = Ret (ArgParser.mk [] "hi!"%string).
Proof.
  pose proof (string_argument_parsed samples.bit_patterns false
                (ArgParser.mk samples.string_arg EmptyString) 0x200 4
                eq_refl eq_refl eq_refl) as H.
  cbn [ArgParser.payload_] in H.
  specialize (H ltac:(cbn; lia)).
  destruct (ArgParser.parse false (ArgParser.mk samples.string_arg EmptyString))
    as [p' | [ | what [|] | ] | | | ]; try contradiction; try discriminate H.
  destruct H as (_ & Hp & Ho). destruct p' as [pl out]. cbn in Hp, Ho.
  now subst.
Defined.

(* ================================================================== *)
(** * The supervisor: merging the chunks *)

Section Merge.
Variable assertions : bool.
Variable tasks : list task.t.
Variable results : list (list Record).

Lemma skip_first_record_spec (i : nat) :
  supervisor.skip_first_record assertions tasks results i =
  if assertions && assert_fails tasks results i then AssertFailed
  else Ret (leading_record_dropped
              (task.get_reader (nth (i - 1) tasks supervisor.default_task))
              (task.get_reader (nth i tasks supervisor.default_task))
              (nth i results [])).
Proof.
  unfold supervisor.skip_first_record, assert_fails, leading_record_dropped.
  destruct (nth i results []) as [|first rest].
  { cbn. now rewrite andb_false_r. }
  cbn [List.length Nat.ltb Nat.leb andb nth].
  destruct (Impl.isCorrupted first); cbn [andb];
    [ | now rewrite andb_false_r ].
  destruct ((0 <? _) && (_ =? _)); cbn [orb negb andb];
    [ now rewrite andb_false_r | ].
  destruct ((_ =? fs.OVERRUN_EOF) && (_ =? fs.OVERRUN_EOF)); cbn [andb];
    [ | now rewrite andb_false_r ].
  reflexivity.
Qed.

Lemma skipn_dropped (b : bool) (chunk : list Record) :
  skipn (if b then 1 else 0) chunk = if b then tl chunk else chunk.
Proof. destruct b, chunk; reflexivity. Qed.

Lemma merge_loop_spec (count : nat) :
  forall (i : nat) (records : list Record),
    supervisor.merge_loop assertions tasks results count i records =
    if assertions && existsb (assert_fails tasks results) (seq i count)
    then AssertFailed
    else Ret (records
              ++ List.concat (map (chunk_contribution tasks results) (seq i count))).
Proof.
  induction count as [|count IH]; intros i records.
  - cbn. rewrite andb_false_r, app_nil_r. reflexivity.
  - cbn [supervisor.merge_loop seq existsb map List.concat].
    rewrite skip_first_record_spec.
    destruct assertions eqn:Ha; cbn [andb] in *.
    + destruct (assert_fails tasks results i); cbn [orb bind]; [reflexivity|].
      rewrite IH, skipn_dropped, <- app_assoc. reflexivity.
    + cbn [bind]. rewrite IH, skipn_dropped, <- app_assoc. reflexivity.
Qed.

End Merge.

(** C8: the merge of [supervisor::execute].  The first chunk is taken whole;
    of every later chunk the leading record is dropped iff it is corrupted
    and either the previous overrun is positive and equals the chunk's first
    valid offset, or both overruns are [OVERRUN_EOF]; everything else is
    appended unchanged, in chunk order.  With [assert] compiled in, the call
    aborts instead when a chunk dropped on the second ground holds more than
    one record. *)
Theorem merge_reconciles_leading_corruption :
  forall (assertions : bool) (threads_num : Z) (tasks : list task.t)
         (results_0 : list Record) (others : list (list Record)),
    supervisor.merge assertions threads_num tasks (results_0 :: others) =
    if assertions
       && existsb (assert_fails tasks (results_0 :: others))
                  (seq 1 (Z.to_nat threads_num - 1))
    then AssertFailed
    else Ret (merged threads_num tasks (results_0 :: others)).
Proof.
  intros. unfold supervisor.merge, merged.
  rewrite merge_loop_spec. reflexivity.
Qed.

(* ================================================================== *)
(** * Renderings of UINT and RAW arguments *)

Lemma string_append_assoc (a b c : string) :
  ((a ++ b) ++ c = a ++ (b ++ c))%string.
Proof. induction a as [|x a IH]; cbn; [reflexivity | now rewrite IH]. Qed.

(** With HEX coding [parseTyle] appends the hexadecimal text and then, with
    no [else] in front of the last [format_to], the decimal text as well. *)
Lemma parseTyle_hex_appends_both (FF : fmt.FloatFormat) (BigEndian : bool)
      (size : nat) (p : ArgParser.t) (val : Z) (rest : list byte) :
  endian.extract size (ArgParser.payload_ p) BigEndian = Ret (val, rest) ->
  ArgParser.parseTyle BigEndian (ArgParser.T_uint size) conformance_arg.SCOD_HEX p
  = Ret (ArgParser.mk rest
           (ArgParser.output_ p ++ fmt.hex val ++ fmt.dec val)%string).
Proof.
  intros H. unfold ArgParser.parseTyle, ArgParser.parseTyle_radix.
  cbn [Z.eqb conformance_arg.SCOD_HEX Pos.eqb ArgParser.sizeof].
  rewrite H. cbn [bind fst snd ArgParser.format_default].
  now rewrite string_append_assoc.
Qed.

(** C5: the 32-bit UINT 0x12345678 with HEX coding is rendered as the
    hexadecimal text followed by the decimal text 305419896, not as
    [0x12345678] alone. *)
Theorem uint_hex_argument_rendered_twice :
  forall FF : fmt.FloatFormat,
    ArgParser.run false samples.uint_hex_arg 1
    = Ret "0x12345678305419896"%string.
Proof. intros FF. vm_compute. reflexivity. Qed.

Lemma length_resize (n : nat) (s : string) : String.length (resize n s) = n.
Proof.
  revert s. induction n as [|n IH]; intros s; [reflexivity|].
  destruct s; cbn; now rewrite IH.
Qed.

Lemma length_overwrite (t s : string) :
  String.length (overwrite t s) = String.length s.
Proof.
  revert s. induction t as [|c t IH]; intros [|d s]; cbn; try reflexivity.
  now rewrite IH.
Qed.

Lemma length_write_at (offset : nat) (t s : string) :
  String.length (write_at offset t s) = String.length s.
Proof.
  revert s. induction offset as [|o IH]; intros s.
  - destruct s; apply length_overwrite.
  - destruct s as [|c s]; cbn; [reflexivity | now rewrite IH].
Qed.

(** Whenever [parseRaw] returns, the output has grown by [2*len + 1]
    characters, [len] being the announced length. *)
Lemma parseRaw_grows_by_2len_plus_1 (BigEndian : bool) (p p' : ArgParser.t)
      (len : Z) :
  endian.read 2 (ArgParser.payload_ p) BigEndian = Ret len ->
  ArgParser.parseRaw BigEndian p = Ret p' ->
  Z.of_nat (String.length (ArgParser.output_ p'))
  = Z.of_nat (String.length (ArgParser.output_ p)) + 2 * len + 1.
Proof.
  intros Hlen. pose proof (read_2_nonneg _ _ _ Hlen) as Hnn.
  unfold ArgParser.parseRaw. rewrite Hlen. cbn [bind].
  destruct (_ <? _)%nat; [discriminate|].
  intros H. injection H as <-. cbn [ArgParser.output_].
  rewrite length_write_at, length_resize. lia.
Qed.

(** C7: the RAW argument DE AD BE is rendered as seven characters, the six
    hexadecimal digits and a NUL character after them. *)
Theorem raw_argument_rendered_with_trailing_nul :
  forall FF : fmt.FloatFormat,
    ArgParser.run false samples.raw_arg 1
    = Ret ("DEADBE" ++ String Ascii.zero EmptyString)%string /\
    (forall out, ArgParser.run false samples.raw_arg 1 = Ret out ->
                 String.length out = 7%nat).
Proof.
  intros FF. split.
  - vm_compute. reflexivity.
  - intros out H. vm_compute in H. injection H as <-. reflexivity.
Qed.

(* ================================================================== *)
(** * The worker and the supervisor on whole files *)

(** When the private [parse(reader)] succeeds with the cursor at the end of
    the file, [Record::parse] ends with [eof]: [notify_success] throws it
    and nothing on the way catches it. *)
Lemma parse_ending_the_file_throws_eof
      (FF : fmt.FloatFormat) (H : Type) (assertions : bool) (fuel : nat)
      (handler : option (Impl.t -> H -> H))
      (reader reader1 : fs.reader) (self self1 : Impl.t) (h : H) :
  Impl.parse_reader reader self = (Ret tt, reader1, self1) ->
  fs.pos_ reader1 = fs.len_ reader1 ->
  Impl.parse assertions (S fuel) handler reader self h
  = (Throw eof, snd (fs.notify_success reader1 (fs.get_pos reader)), self1, h).
Proof.
  intros Hparse Hend. cbn [Impl.parse]. rewrite Hparse.
  unfold fs.notify_success.
  destruct (fs.first_valid_offset_ reader1 =? 0); cbn;
    rewrite Hend, Z.eqb_refl; reflexivity.
Qed.

(** In that case [task::execute] leaves its loop with [records_] as it was
    before the attempt: the record that was parsed is not appended. *)
Lemma execute_drops_record_ending_the_file
      (FF : fmt.FloatFormat) (assertions : bool) (fuel inner : nat)
      (holder : option exn)
      (tk : task.t) (reader1 : fs.reader) (self1 : Impl.t) :
  Impl.parse_reader (task.reader_ tk) Impl.default = (Ret tt, reader1, self1) ->
  fs.pos_ reader1 = fs.len_ reader1 ->
  exists reader2,
    task.execute_loop assertions (S fuel) (S inner) holder tk
    = (Ret tt, task.mk reader2 (task.records_ tk), holder).
Proof.
  intros Hparse Hend. eexists. cbn [task.execute_loop].
  rewrite (parse_ending_the_file_throws_eof
             FF _ assertions inner _ _ _ _ _ _ Hparse Hend).
  reflexivity.
Qed.

(** C3: a file that holds exactly one record.  The parse attempt succeeds and
    leaves the cursor at the end of the file; [notify_success] then throws
    [eof] out of [Record::parse], past the [push_back] of [task::execute]:
    the worker ends with an empty record list. *)
Theorem record_ending_the_file_is_lost :
  forall FF : fmt.FloatFormat,
    (exists reader record,
        Impl.parse_reader (fs.factory fs.file_precache samples.log_record)
                          Impl.default
        = (Ret tt, reader, record) /\
        fs.get_pos reader = fs.len_ reader /\
        Impl.message_ record = "[42]"%string) /\
    (forall assertions,
      exists tk holder,
        task.execute assertions None
          (task.make (fs.with_chunk_len 33
                        (fs.factory fs.file_precache samples.log_record)))
        = (Ret tt, tk, holder) /\
        task.result tk = []) /\
    (forall assertions,
        supervisor.parse_file assertions fs.file_precache samples.log_record 1
        = Ret []).
Proof.
  intros FF. split; [|split].
  - eexists. eexists. split; [vm_compute; reflexivity|].
    split; reflexivity.
  - intros assertions. eexists. eexists.
    split; [vm_compute; reflexivity | reflexivity].
  - intros assertions. vm_compute. reflexivity.
Qed.

(** C1: a valid file of two records, the chunk boundary of two workers
    falling inside the second.  One worker returns the first record only;
    two workers return the first record and a corrupted placeholder. *)
Theorem two_workers_differ_from_one :
  forall (FF : fmt.FloatFormat) (assertions : bool),
    exists first placeholder,
      supervisor.parse_file assertions fs.file_precache
        (samples.short_record ++ samples.log_record) 1
      = Ret [first] /\
      supervisor.parse_file assertions fs.file_precache
        (samples.short_record ++ samples.log_record) 2
      = Ret [first; placeholder] /\
      Impl.isCorrupted first = false /\
      Impl.message_ first = "[7]"%string /\
      Impl.corruptionCause_ placeholder = Some "invalid DLT signature"%string.
Proof.
  intros FF assertions. eexists. eexists.
  split; [vm_compute; reflexivity|].
  split; [destruct assertions; vm_compute; reflexivity|].
  repeat split.
Qed.

(* ================================================================== *)
(** * More on the byte source *)

(** X1: a read that stays inside the file and does not pass the chunk fence
    gives the same result in both implementations: the pointer is the old
    cursor, the cursor advances by the size of the read, nothing else
    changes, and the bytes asked for are all behind the pointer. *)
Theorem read_inside_file_and_fence :
  forall (r : fs.reader) (n : Z),
    fs.len_ r = Z.of_nat (List.length (fs.data_ r)) ->
    fs.len_ r < 2 ^ 64 ->
    0 <= fs.pos_ r -> 0 <= n ->
    fs.pos_ r + n <= fs.len_ r ->
    fs.pos_ r + n <= fs.chunk_len_ r ->
    fs.read r n = (Ret (fs.pos_ r), fs.with_pos (fs.pos_ r + n) r) /\
    List.length (firstn (Z.to_nat n)
                        (fs.deref (fs.with_pos (fs.pos_ r + n) r) (fs.pos_ r)))
    = Z.to_nat n.
Proof.
  intros r n Hdata Hlen Hpos Hn Hfile Hfence.
  split.
  - unfold fs.read, fs.file_precache_read, fs.file_map_read.
    rewrite size_t_small by lia.
    destruct (Z.ltb_spec (fs.len_ r) (fs.pos_ r + n)) as [|_]; [lia|].
    destruct (Z.ltb_spec (fs.chunk_len_ r) (fs.pos_ r + n)) as [|_]; [lia|].
    destruct (fs.impl r); reflexivity.
  - unfold fs.deref. cbn. rewrite length_firstn, length_skipn. lia.
Qed.

Lemma read_inside_file_and_fence_witness :
  fs.read (fs.factory fs.file_map samples.five_bytes) 3
  = (Ret 0, fs.with_pos 3 (fs.factory fs.file_map samples.five_bytes)).
Proof.
  apply (read_inside_file_and_fence
           (fs.factory fs.file_map samples.five_bytes) 3);
    cbn; lia.
Defined.

(** X2: whatever the size asked for, a read in either implementation leaves
    the cursor inside the file when it was inside before, never touches the
    bytes, the length, the fence or the first valid offset, and does not move
    the cursor when it fails. *)
Theorem read_keeps_cursor_inside_file :
  forall (r : fs.reader) (n : Z),
    fs.pos_ r <= fs.len_ r ->
    fs.pos_ (snd (fs.read r n)) <= fs.len_ (snd (fs.read r n)) /\
    fs.len_ (snd (fs.read r n)) = fs.len_ r /\
    fs.data_ (snd (fs.read r n)) = fs.data_ r /\
    fs.chunk_len_ (snd (fs.read r n)) = fs.chunk_len_ r /\
    fs.first_valid_offset_ (snd (fs.read r n)) = fs.first_valid_offset_ r /\
    (forall ptr, fst (fs.read r n) = Ret ptr -> ptr = fs.pos_ r) /\
    ((forall ptr, fst (fs.read r n) <> Ret ptr) ->
     fs.pos_ (snd (fs.read r n)) = fs.pos_ r).
Proof.
  intros r n Hpos.
  unfold fs.read, fs.file_precache_read, fs.file_map_read.
  destruct (fs.impl r);
    destruct (Z.ltb_spec (fs.len_ r) (size_t (fs.pos_ r + n))) as [Hover|Hin];
    try destruct (fs.chunk_len_ r <? size_t (fs.pos_ r + n));
    cbn; repeat split; try assumption; try reflexivity;
    try (intros ptr H; congruence);
    try (intros H; exfalso; eapply H; reflexivity).
Qed.

Lemma read_keeps_cursor_inside_file_witness :
  fs.pos_ (snd (fs.read (samples.fenced_source fs.file_precache) 9)) = 0.
Proof.
  apply (read_keeps_cursor_inside_file (samples.fenced_source fs.file_precache) 9).
  - cbn. lia.
  - intros ptr H. discriminate H.
Defined.

Lemma notify_all_latched (offsets : list Z) :
  forall r, fs.first_valid_offset_ r <> 0 ->
            fs.first_valid_offset_ (notify_all r offsets)
            = fs.first_valid_offset_ r.
Proof.
  unfold notify_all.
  induction offsets as [|o rest IH]; intros r Hr; [reflexivity|].
  cbn [fold_left].
  assert (Hstep : fs.first_valid_offset_ (snd (fs.notify_success r o))
                  = fs.first_valid_offset_ r).
  { unfold fs.notify_success.
    destruct (Z.eqb_spec (fs.first_valid_offset_ r) 0) as [E|_]; [contradiction|].
    destruct (fs.pos_ r =? fs.len_ r); reflexivity. }
  rewrite IH by (rewrite Hstep; assumption).
  exact Hstep.
Qed.

(** X3: the first valid offset of a cursor is the first offset other than 0
    that [notify_success] was called with, and never changes afterwards; a
    record that starts at offset 0 is not captured, the field stays 0 and
    takes the offset of a later record. *)
Theorem first_valid_offset_is_first_nonzero :
  forall (r : fs.reader) (offsets : list Z),
    fs.first_valid_offset_ (notify_all r offsets)
    = first_nonzero (fs.first_valid_offset_ r :: offsets).
Proof.
  intros r offsets. revert r.
  induction offsets as [|o rest IH]; intros r.
  - unfold first_nonzero. cbn.
    destruct (Z.eqb_spec (fs.first_valid_offset_ r) 0) as [E|N]; cbn; congruence.
  - destruct (Z.eqb_spec (fs.first_valid_offset_ r) 0) as [E|N].
    + change (notify_all r (o :: rest))
        with (notify_all (snd (fs.notify_success r o)) rest).
      rewrite IH.
      assert (Hstep : fs.first_valid_offset_ (snd (fs.notify_success r o)) = o).
      { unfold fs.notify_success. rewrite E. cbn.
        destruct (fs.pos_ _ =? fs.len_ _); reflexivity. }
      rewrite Hstep. unfold first_nonzero. cbn [filter]. rewrite E. reflexivity.
    + rewrite notify_all_latched by assumption.
      unfold first_nonzero. cbn [filter].
      destruct (Z.eqb_spec (fs.first_valid_offset_ r) 0); [contradiction|].
      reflexivity.
Qed.

(** X4: when the file has at least as many bytes as there are workers, the
    regions of the cursors that [split] returns have [floor(len/n)] bytes
    each and follow one another from offset 0: an offset below
    [floor(len/n) * n] lies in the region of exactly one worker, and the
    offsets from there to the end of the file lie in no region. *)
Theorem split_regions :
  forall (r : fs.reader) (n : Z),
    0 < fs.len_ r < 2 ^ 64 ->
    1 <= n <= 255 ->
    n <= fs.len_ r ->
    exists readers,
      fs.split r n = Ret readers /\
      forall b : Z,
        0 <= b < fs.len_ r ->
        (b < fs.len_ r / n * n ->
         exists i : nat,
           (i < Z.to_nat n)%nat /\
           forall (j : nat) (d : fs.reader),
             (j < Z.to_nat n)%nat -> (in_region b (nth j readers d) <-> j = i)) /\
        (fs.len_ r / n * n <= b ->
         forall (j : nat) (d : fs.reader),
           (j < Z.to_nat n)%nat -> ~ in_region b (nth j readers d)).
Proof.
  intros r n Hlen Hn Hle.
  destruct (split_worker r n Hlen Hn) as (readers & Hsplit & _ & Hnth).
  exists readers. split; [assumption|].
  set (len := fs.len_ r) in *. set (q := len / n) in *.
  assert (Hqn : n * q <= len) by (apply Z.mul_div_le; lia).
  assert (Hq1 : 1 <= q).
  { unfold q. apply Z.div_le_lower_bound; lia. }
  intros b Hb. split.
  - intros Hlow.
    assert (Hbq : 0 <= b / q < n).
    { split; [apply Z.div_pos; lia|]. apply Z.div_lt_upper_bound; lia. }
    assert (Hlo : q * (b / q) <= b) by (apply Z.mul_div_le; lia).
    assert (Hhi : b < q * Z.succ (b / q)) by (apply Z.mul_succ_div_gt; lia).
    exists (Z.to_nat (b / q)). split; [lia|].
    intros j d Hj. destruct (Hnth j d Hj) as [Hpos Hfence].
    unfold in_region. rewrite Hpos, Hfence. rewrite size_t_small by nia.
    split.
    + intros [H1 H2]. assert (Z.of_nat j = b / q) by nia. lia.
    + intros ->. rewrite Z2Nat.id by lia. lia.
  - intros Hhigh j d Hj. destruct (Hnth j d Hj) as [Hpos Hfence].
    unfold in_region. rewrite Hpos, Hfence. rewrite size_t_small by nia.
    nia.
Qed.

Lemma split_regions_witness :
  exists readers,
    fs.split (fs.factory fs.file_precache samples.five_bytes) 2 = Ret readers /\
    forall b : Z,
      0 <= b < 5 ->
      (b < 5 / 2 * 2 ->
       exists i : nat,
         (i < 2)%nat /\
         forall (j : nat) (d : fs.reader),
           (j < 2)%nat -> (in_region b (nth j readers d) <-> j = i)) /\
      (5 / 2 * 2 <= b ->
       forall (j : nat) (d : fs.reader),
         (j < 2)%nat -> ~ in_region b (nth j readers d)).
Proof.
  apply (split_regions (fs.factory fs.file_precache samples.five_bytes) 2);
    cbn; lia.
Defined.

(** X5: when the file has fewer bytes than there are workers, every cursor
    that [split] returns starts at offset 0 and its fence is the largest
    [size_t]: each worker is given the whole file. *)
Theorem split_of_short_file :
  forall (r : fs.reader) (n : Z) (i : nat) (d : fs.reader),
    0 < fs.len_ r < n ->
    n <= 255 ->
    (i < Z.to_nat n)%nat ->
    exists readers,
      fs.split r n = Ret readers /\
      fs.pos_ (nth i readers d) = 0 /\
      fs.chunk_len_ (nth i readers d) = 2 ^ 64 - 1.
Proof.
  intros r n i d Hlen Hn Hi.
  destruct (split_worker r n ltac:(lia) ltac:(lia)) as (readers & Hsplit & _ & Hnth).
  exists readers. split; [assumption|].
  destruct (Hnth i d Hi) as [Hpos Hfence].
  rewrite Hpos, Hfence, Z.div_small by lia.
  split; reflexivity.
Qed.

Lemma split_of_short_file_witness :
  exists readers,
    fs.split (fs.factory fs.file_precache samples.five_bytes) 8 = Ret readers /\
    fs.pos_ (nth 7 readers (fs.factory fs.file_map [])) = 0 /\
    fs.chunk_len_ (nth 7 readers (fs.factory fs.file_map [])) = 2 ^ 64 - 1.
Proof.
  apply (split_of_short_file
           (fs.factory fs.file_precache samples.five_bytes) 8 7
           (fs.factory fs.file_map []));
    cbn; lia.
Defined.

(** X6: an empty file gives no record and no error, whatever the reader, the
    number of cores and the build: [split] throws [eof] before any worker
    exists and the caller of the supervisor swallows it. *)
Theorem empty_file_has_no_records :
  forall (FF : fmt.FloatFormat) (assertions : bool) (type : fs.reader_type)
         (cores_num : Z),
    supervisor.parse_file assertions type [] cores_num = Ret [] /\
    supervisor.make (fs.factory type []) cores_num = Throw eof.
Proof. intros. split; reflexivity. Qed.

(* ================================================================== *)
(** * The endian codec *)

Lemma mask_field (y k : Z) :
  0 <= k -> Z.land y (Z.shiftl 255 k) = (y / 2 ^ k) mod 256 * 2 ^ k.
Proof.
  intros Hk.
  change 255 with (Z.ones 8). change 256 with (2 ^ 8).
  rewrite <- Z.land_ones, <- Z.shiftr_div_pow2, <- Z.shiftl_mul_pow2 by lia.
  apply Z.bits_inj'. intros n Hn.
  rewrite Z.land_spec, !Z.shiftl_spec, Z.land_spec by lia.
  destruct (Z.ltb_spec n k) as [Hlt|Hge].
  - rewrite !(Z.testbit_neg_r _ (n - k)) by lia. now rewrite andb_false_r.
  - rewrite Z.shiftr_spec by lia. now replace (n - k + k) with n by lia.
Qed.

Lemma lor_disjoint (a b m k : Z) :
  0 <= k -> m = 2 ^ k -> 0 <= a < m -> Z.lor a (b * m) = a + b * m.
Proof.
  intros Hk -> Ha.
  assert (Hland : Z.land a (b * 2 ^ k) = 0).
  { apply Z.bits_inj'. intros n Hn.
    rewrite Z.land_spec, Z.bits_0.
    destruct (Z.ltb_spec n k) as [Hlt|Hge].
    - rewrite Z.mul_pow2_bits_low by lia. apply andb_false_r.
    - rewrite <- (Z.mod_small a (2 ^ k)) by lia.
      rewrite Z.mod_pow2_bits_high by lia. reflexivity. }
  rewrite Z.add_nocarry_lxor by assumption.
  symmetry. now apply Z.lxor_lor.
Qed.

Lemma byte_val_range (b : byte) : 0 <= byte_val b < 256.
Proof.
  unfold byte_val. pose proof (Byte.to_N_bounded b). lia.
Qed.

Lemma lor_sum (a b c m k : Z) :
  0 <= k -> m = 2 ^ k -> 0 <= a < m -> b = c * m -> Z.lor a b = a + b.
Proof. intros Hk Hm Ha ->. now apply (lor_disjoint a c m k). Qed.

Lemma bswap16_bytes (a0 a1 : Z) :
  0 <= a0 < 256 -> 0 <= a1 < 256 ->
  endian.bswap16 (a0 + 256 * a1) = a1 + 256 * a0.
Proof.
  intros H0 H1. unfold endian.bswap16.
  change 0x00FF with (Z.shiftl 255 0). change 0xFF00 with (Z.shiftl 255 8).
  rewrite !mask_field by lia.
  rewrite Z.shiftr_div_pow2, Z.shiftl_mul_pow2 by lia.
  change (2 ^ 0) with 1. change (2 ^ 8) with 256.
  rewrite Z.div_1_r, Z.mul_1_r.
  replace ((a0 + 256 * a1) / 256 mod 256) with a1
    by (Z.div_mod_to_equations; lia).
  replace ((a0 + 256 * a1) * 256 / 256 mod 256) with a0
    by (Z.div_mod_to_equations; lia).
  rewrite (lor_sum a1 _ a0 256 8) by (reflexivity || lia). lia.
Qed.

Lemma bswap32_bytes (a0 a1 a2 a3 : Z) :
  0 <= a0 < 256 -> 0 <= a1 < 256 -> 0 <= a2 < 256 -> 0 <= a3 < 256 ->
  endian.bswap32 (a0 + 256 * (a1 + 256 * (a2 + 256 * a3)))
  = a3 + 256 * (a2 + 256 * (a1 + 256 * a0)).
Proof.
  intros H0 H1 H2 H3. unfold endian.bswap32.
  set (x := a0 + 256 * (a1 + 256 * (a2 + 256 * a3))).
  change 0x000000FF with (Z.shiftl 255 0). change 0x0000FF00 with (Z.shiftl 255 8).
  change 0x00FF0000 with (Z.shiftl 255 16). change 0xFF000000 with (Z.shiftl 255 24).
  rewrite !mask_field by lia.
  rewrite !Z.shiftr_div_pow2, !Z.shiftl_mul_pow2 by lia.
  change (2 ^ 0) with 1. change (2 ^ 8) with 256.
  change (2 ^ 16) with 65536. change (2 ^ 24) with 16777216.
  rewrite Z.div_1_r, Z.mul_1_r.
  replace (x / 16777216 mod 256) with a3 by (unfold x; Z.div_mod_to_equations; lia).
  replace (x / 256 / 256 mod 256) with a2 by (unfold x; Z.div_mod_to_equations; lia).
  replace (x * 256 / 65536 mod 256) with a1 by (unfold x; Z.div_mod_to_equations; lia).
  replace (x * 16777216 / 16777216 mod 256) with a0
    by (unfold x; Z.div_mod_to_equations; lia).
  rewrite (lor_sum a3 _ a2 256 8) by (reflexivity || lia).
  rewrite (lor_sum (a1 * 65536) _ a0 16777216 24) by (reflexivity || lia).
  rewrite (lor_sum _ _ (a1 + a0 * 256) 65536 16) by (reflexivity || lia).
  lia.
Qed.

Lemma bswap64_bytes (a0 a1 a2 a3 a4 a5 a6 a7 : Z) :
  0 <= a0 < 256 -> 0 <= a1 < 256 -> 0 <= a2 < 256 -> 0 <= a3 < 256 ->
  0 <= a4 < 256 -> 0 <= a5 < 256 -> 0 <= a6 < 256 -> 0 <= a7 < 256 ->
  endian.bswap64
    (a0 + 256 * (a1 + 256 * (a2 + 256 * (a3 + 256 *
       (a4 + 256 * (a5 + 256 * (a6 + 256 * a7)))))))
  = a7 + 256 * (a6 + 256 * (a5 + 256 * (a4 + 256 *
       (a3 + 256 * (a2 + 256 * (a1 + 256 * a0)))))).
Proof.
  intros H0 H1 H2 H3 H4 H5 H6 H7. unfold endian.bswap64.
  set (x := a0 + 256 * _).
  change 0x00000000000000FF with (Z.shiftl 255 0).
  change 0x000000000000FF00 with (Z.shiftl 255 8).
  change 0x0000000000FF0000 with (Z.shiftl 255 16).
  change 0x00000000FF000000 with (Z.shiftl 255 24).
  change 0x000000FF00000000 with (Z.shiftl 255 32).
  change 0x0000FF0000000000 with (Z.shiftl 255 40).
  change 0x00FF000000000000 with (Z.shiftl 255 48).
  change 0xFF00000000000000 with (Z.shiftl 255 56).
  rewrite !mask_field by lia.
  rewrite !Z.shiftr_div_pow2, !Z.shiftl_mul_pow2 by lia.
  replace (x / 2 ^ 56 / 2 ^ 0 mod 256) with a7
    by (unfold x; Z.div_mod_to_equations; lia).
  replace (x / 2 ^ 40 / 2 ^ 8 mod 256) with a6
    by (unfold x; Z.div_mod_to_equations; lia).
  replace (x / 2 ^ 24 / 2 ^ 16 mod 256) with a5
    by (unfold x; Z.div_mod_to_equations; lia).
  replace (x / 2 ^ 8 / 2 ^ 24 mod 256) with a4
    by (unfold x; Z.div_mod_to_equations; lia).
  replace (x * 2 ^ 8 / 2 ^ 32 mod 256) with a3
    by (unfold x; Z.div_mod_to_equations; lia).
  replace (x * 2 ^ 24 / 2 ^ 40 mod 256) with a2
    by (unfold x; Z.div_mod_to_equations; lia).
  replace (x * 2 ^ 40 / 2 ^ 48 mod 256) with a1
    by (unfold x; Z.div_mod_to_equations; lia).
  replace (x * 2 ^ 56 / 2 ^ 56 mod 256) with a0
    by (unfold x; Z.div_mod_to_equations; lia).
  rewrite (lor_sum (a7 * 2 ^ 0) _ a6 (2 ^ 8) 8) by (reflexivity || lia).
  rewrite (lor_sum (a5 * 2 ^ 16) _ a4 (2 ^ 24) 24) by (reflexivity || lia).
  rewrite (lor_sum (a3 * 2 ^ 32) _ a2 (2 ^ 40) 40) by (reflexivity || lia).
  rewrite (lor_sum (a1 * 2 ^ 48) _ a0 (2 ^ 56) 56) by (reflexivity || lia).
  rewrite (lor_sum (a7 * 2 ^ 0 + _) _ (a5 + a4 * 2 ^ 8) (2 ^ 16) 16)
    by (reflexivity || lia).
  rewrite (lor_sum (a3 * 2 ^ 32 + _) _ (a1 + a0 * 2 ^ 8) (2 ^ 48) 48)
    by (reflexivity || lia).
  rewrite (lor_sum _ _ (a3 + a2 * 2 ^ 8 + a1 * 2 ^ 16 + a0 * 2 ^ 24) (2 ^ 32) 32)
    by (reflexivity || lia).
  lia.
Qed.

Lemma le_load_bound (bs : list byte) :
  0 <= le_load bs < 256 ^ Z.of_nat (List.length bs).
Proof.
  induction bs as [|b bs IH]; [cbn; lia|].
  change (le_load (b :: bs)) with (byte_val b + 256 * le_load bs).
  rewrite length_cons, Nat2Z.inj_succ, Z.pow_succ_r by lia.
  pose proof (byte_val_range b). lia.
Qed.

(** What [read<T>] returns when the buffer holds the bytes: the little-endian
    value of the first [size] bytes, taken in reverse order when
    [big_endian] is set. *)
Lemma read_value (size : nat) (buf : list byte) (big_endian : bool) :
  In size [1; 2; 4; 8]%nat ->
  (size <= List.length buf)%nat ->
  endian.read size buf big_endian
  = Ret (le_load (if big_endian then rev (firstn size buf) else firstn size buf)).
Proof.
  intros Hsize Hlen.
  assert (Hload : endian.load size buf = Ret (le_load (firstn size buf))).
  { unfold endian.load. destruct (Nat.ltb_spec (List.length buf) size); [lia|].
    reflexivity. }
  destruct Hsize as [<-|[<-|[<-|[<-|[]]]]];
    unfold endian.read, endian.read8, endian.read16, endian.read32, endian.read64;
    rewrite Hload; cbn [bind].
  - destruct buf as [|a0 rest]; [cbn in Hlen; lia|]. now destruct big_endian.
  - destruct buf as [|a0 [|a1 rest]]; try (cbn in Hlen; lia).
    destruct big_endian; [|reflexivity].
    cbn [firstn rev app le_load endian.read16_swap negb].
    rewrite !Z.mul_0_r, !Z.add_0_r.
    now rewrite bswap16_bytes by apply byte_val_range.
  - destruct buf as [|a0 [|a1 [|a2 [|a3 rest]]]]; try (cbn in Hlen; lia).
    destruct big_endian; [|reflexivity].
    cbn [firstn rev app le_load endian.read32_swap negb].
    rewrite !Z.mul_0_r, !Z.add_0_r.
    now rewrite bswap32_bytes by apply byte_val_range.
  - destruct buf as [|a0 [|a1 [|a2 [|a3 [|a4 [|a5 [|a6 [|a7 rest]]]]]]]];
      try (cbn in Hlen; lia).
    destruct big_endian; [|reflexivity].
    cbn [firstn rev app le_load endian.read64_swap negb].
    rewrite !Z.mul_0_r, !Z.add_0_r.
    now rewrite bswap64_bytes by apply byte_val_range.
Qed.

Lemma read_returns_when_bytes_present (size : nat) (buf : list byte)
      (big_endian : bool) (val : Z) :
  In size [1; 2; 4; 8]%nat ->
  endian.read size buf big_endian = Ret val ->
  (size <= List.length buf)%nat.
Proof.
  intros Hsize.
  destruct (Nat.ltb_spec (List.length buf) size) as [Hlt|]; [|intros; assumption].
  assert (Hload : endian.load size buf = Undefined).
  { unfold endian.load. apply Nat.ltb_lt in Hlt. now rewrite Hlt. }
  destruct Hsize as [<-|[<-|[<-|[<-|[]]]]];
    unfold endian.read, endian.read8, endian.read16, endian.read32, endian.read64;
    rewrite Hload; discriminate.
Qed.

(** X7: the endian codec.  On a buffer that holds them, [read<T>] of a 1, 2,
    4 or 8 byte type is the little-endian value of the first bytes, and with
    [big_endian] set the value of the same bytes in reverse order, that is
    their big-endian value; [extract<T>] returns the same value and advances
    the pointer by the size of the type. *)
Theorem read_is_little_or_big_endian_value :
  forall (size : nat) (buf : list byte),
    In size [1; 2; 4; 8]%nat ->
    (size <= List.length buf)%nat ->
    endian.read size buf false = Ret (le_load (firstn size buf)) /\
    endian.read size buf true = Ret (le_load (rev (firstn size buf))) /\
    (forall big_endian val,
        endian.read size buf big_endian = Ret val ->
        endian.extract size buf big_endian = Ret (val, skipn size buf)).
Proof.
  intros size buf Hsize Hlen.
  split; [exact (read_value size buf false Hsize Hlen)|].
  split; [exact (read_value size buf true Hsize Hlen)|].
  intros big_endian val H. unfold endian.extract. now rewrite H.
Qed.

Lemma read_is_little_or_big_endian_value_witness :
  endian.read 4 (skipn 4 samples.uint_hex_arg) false = Ret 0x12345678 /\
  endian.read 4 (skipn 4 samples.uint_hex_arg) true = Ret 0x78563412.
Proof.
  destruct (read_is_little_or_big_endian_value
              4 (skipn 4 samples.uint_hex_arg)
              ltac:(cbn; tauto) ltac:(cbn; lia)) as (Hle & Hbe & _).
  split; [exact Hle | exact Hbe].
Defined.

(** X8: a value that [read<T>] returns for a type of 1, 2, 4 or 8 bytes fits
    the width of the type, with and without the byte swap, and is returned
    only when the buffer holds that many bytes. *)
Theorem read_value_fits_the_type :
  forall (size : nat) (buf : list byte) (big_endian : bool) (val : Z),
    In size [1; 2; 4; 8]%nat ->
    endian.read size buf big_endian = Ret val ->
    0 <= val < 2 ^ (8 * Z.of_nat size) /\ (size <= List.length buf)%nat.
Proof.
  intros size buf big_endian val Hsize Hread.
  pose proof (read_returns_when_bytes_present _ _ _ _ Hsize Hread) as Hlen.
  split; [|assumption].
  rewrite (read_value size buf big_endian Hsize Hlen) in Hread.
  injection Hread as <-.
  set (bs := if big_endian then rev (firstn size buf) else firstn size buf).
  assert (Hbs : List.length bs = size).
  { unfold bs. destruct big_endian; rewrite ?length_rev, length_firstn; lia. }
  pose proof (le_load_bound bs) as Hb. rewrite Hbs in Hb.
  replace (2 ^ (8 * Z.of_nat size)) with (256 ^ Z.of_nat size); [assumption|].
  change 256 with (2 ^ 8). rewrite <- Z.pow_mul_r by lia. reflexivity.
Qed.

Lemma read_value_fits_the_type_witness :
  0 <= 0x78563412 < 2 ^ (8 * Z.of_nat 4)
  /\ (4 <= List.length (skipn 4 samples.uint_hex_arg))%nat.
Proof.
  apply (read_value_fits_the_type 4 (skipn 4 samples.uint_hex_arg) true).
  - cbn. tauto.
  - vm_compute. reflexivity.
Defined.

(* ================================================================== *)
(** * More on the argument parser *)

Lemma length_raw_hex (bs : list byte) :
  String.length (ArgParser.raw_hex bs) = (2 * List.length bs)%nat.
Proof.
  induction bs as [|b bs IH]; [reflexivity|].
  cbn [ArgParser.raw_hex String.length List.length]. rewrite IH. lia.
Qed.

(** Growing the output by more than a text and storing the text at the old
    end leaves the padding of [resize] after the text. *)
Lemma write_at_end_of_resized_more (s t : string) (k : nat) :
  write_at (String.length s) t
           (resize (String.length s + String.length t + k) s)
  = (s ++ t ++ resize k EmptyString)%string.
Proof.
  induction s as [|c s IH]; cbn.
  - revert k. induction t as [|c t IHt]; intros k; cbn.
    + destruct (resize k EmptyString); reflexivity.
    + destruct k; cbn; f_equal.
      * specialize (IHt 0%nat). cbn in IHt.
        destruct t; cbn in *; [reflexivity|]. exact IHt.
      * specialize (IHt (S k)). destruct t; cbn in *; [reflexivity|]. exact IHt.
  - now rewrite IH.
Qed.

(** X9: a RAW argument.  When RAW is the kind that decides, the 16-bit
    length [len] is readable and [len] bytes follow it, [parse] returns
    having consumed the type-info word, the length and exactly [len] bytes,
    and has appended two uppercase hexadecimal digits for each byte, high
    nibble first, and one NUL character after them. *)
Theorem raw_argument_parsed :
  forall (FF : fmt.FloatFormat) (BigEndian : bool) (p : ArgParser.t)
         (type len : Z),
    endian.read 4 (ArgParser.payload_ p) BigEndian = Ret type ->
    dispatched type = Some conformance_arg.INFO_RAWD ->
    endian.read 2 (skipn 4 (ArgParser.payload_ p)) BigEndian = Ret len ->
    (Z.to_nat len <= List.length (skipn 6 (ArgParser.payload_ p)))%nat ->
    ArgParser.parse BigEndian p
    = Ret (ArgParser.mk
             (skipn (Z.to_nat len) (skipn 6 (ArgParser.payload_ p)))
             (ArgParser.output_ p
              ++ ArgParser.raw_hex
                   (firstn (Z.to_nat len) (skipn 6 (ArgParser.payload_ p)))
              ++ String Ascii.zero EmptyString)%string) /\
    String.length
      (ArgParser.raw_hex (firstn (Z.to_nat len) (skipn 6 (ArgParser.payload_ p))))
    = Z.to_nat (2 * len).
Proof.
  intros FF BigEndian p type len Htype Hkind Hlen Hdata.
  pose proof (read_2_nonneg _ _ _ Hlen) as Hnn.
  split.
  2:{ rewrite length_raw_hex, length_firstn. lia. }
  unfold ArgParser.parse. rewrite Htype. cbn [bind].
  unfold dispatched in Hkind. cbn [find] in Hkind.
  destruct (ArgParser.has type conformance_arg.INFO_STRG); [discriminate|].
  destruct (ArgParser.has type conformance_arg.INFO_UINT); [discriminate|].
  destruct (ArgParser.has type conformance_arg.INFO_SINT); [discriminate|].
  destruct (ArgParser.has type conformance_arg.INFO_FLOA); [discriminate|].
  destruct (ArgParser.has type conformance_arg.INFO_BOOL); [discriminate|].
  destruct (ArgParser.has type conformance_arg.INFO_RAWD); [|discriminate].
  unfold ArgParser.parseRaw. cbn [ArgParser.payload_ ArgParser.output_].
  rewrite Hlen. cbn [bind].
  rewrite skipn_skipn. change (2 + 4)%nat with 6%nat.
  set (data := skipn 6 (ArgParser.payload_ p)) in *.
  destruct (Nat.ltb_spec (List.length data) (Z.to_nat len)); [lia|].
  f_equal. f_equal.
  set (text := ArgParser.raw_hex (firstn (Z.to_nat len) data)).
  assert (Htext : String.length text = (2 * Z.to_nat len)%nat).
  { unfold text. rewrite length_raw_hex, length_firstn. lia. }
  replace (Z.to_nat (Z.of_nat (String.length (ArgParser.output_ p)) + len * 2 + 1))
    with (String.length (ArgParser.output_ p) + String.length text + 1)%nat by lia.
  apply write_at_end_of_resized_more.
Qed.

Lemma raw_argument_parsed_witness :
  ArgParser.parse (FF := samples.bit_patterns) false
                  (ArgParser.mk samples.raw_arg EmptyString)
  = Ret (ArgParser.mk [] ("DEADBE" ++ String Ascii.zero EmptyString)%string).
Proof.
  apply (raw_argument_parsed samples.bit_patterns false
           (ArgParser.mk samples.raw_arg EmptyString) 0x400 3
           eq_refl eq_refl eq_refl).
  cbn. lia.
Defined.

(** X10: a type-info word with none of the STRING, UINT, SINT, FLOAT, BOOL
    and RAW bits is never parsed: [parse] throws "not supported yet" when
    one of FIXED-POINT, TRACE-INFO and STRUCT is set and "unknown argument
    type" otherwise (an ARRAY or VARIABLE bit alone, or no bit at all),
    whatever follows the word. *)
Theorem argument_of_no_known_kind_is_rejected :
  forall (FF : fmt.FloatFormat) (BigEndian : bool) (p : ArgParser.t) (type : Z),
    endian.read 4 (ArgParser.payload_ p) BigEndian = Ret type ->
    dispatched type = None ->
    ArgParser.parse BigEndian p
    = Throw (parse_exception
               (if ArgParser.has type conformance_arg.INFO_FIXP
                   || ArgParser.has type conformance_arg.INFO_TRAI
                   || ArgParser.has type conformance_arg.INFO_STRU
                then "not supported yet" else "unknown argument type")
               false).
Proof.
  intros FF BigEndian p type Htype Hkind.
  unfold ArgParser.parse. rewrite Htype. cbn [bind].
  unfold dispatched in Hkind. cbn [find] in Hkind.
  destruct (ArgParser.has type conformance_arg.INFO_STRG); [discriminate|].
  destruct (ArgParser.has type conformance_arg.INFO_UINT); [discriminate|].
  destruct (ArgParser.has type conformance_arg.INFO_SINT); [discriminate|].
  destruct (ArgParser.has type conformance_arg.INFO_FLOA); [discriminate|].
  destruct (ArgParser.has type conformance_arg.INFO_BOOL); [discriminate|].
  destruct (ArgParser.has type conformance_arg.INFO_RAWD); [discriminate|].
  destruct (_ || _ || _); reflexivity.
Qed.

Lemma argument_of_no_known_kind_is_rejected_witness :
  ArgParser.parse (FF := samples.bit_patterns) true
                  (ArgParser.mk [x00; x00; x41; x00] EmptyString)
  = Throw (parse_exception "not supported yet" false).
Proof.
  apply (argument_of_no_known_kind_is_rejected samples.bit_patterns true
           (ArgParser.mk [x00; x00; x41; x00] EmptyString) 0x4100
           eq_refl eq_refl).
Defined.

(** X11: an integer or float argument of a width the parser does not handle
    is rejected before any byte of the value is read.  For UINT and SINT a
    width code of 5 (128 bit) throws "not supported yet" and a code outside
    1..5 throws "unknown tyle type"; for FLOAT every width code other than 3
    and 4 throws "unknown tyle type". *)
Theorem argument_of_unhandled_width_is_rejected :
  forall (FF : fmt.FloatFormat) (BigEndian : bool) (p : ArgParser.t) (type : Z),
    endian.read 4 (ArgParser.payload_ p) BigEndian = Ret type ->
    ((dispatched type = Some conformance_arg.INFO_UINT \/
      dispatched type = Some conformance_arg.INFO_SINT) ->
     ~ 1 <= Z.land type conformance_arg.ArgTyleMask <= 4 ->
     ArgParser.parse BigEndian p
     = Throw (parse_exception
                (if Z.land type conformance_arg.ArgTyleMask =? 5
                 then "not supported yet" else "unknown tyle type")
                false)) /\
    (dispatched type = Some conformance_arg.INFO_FLOA ->
     ~ 3 <= Z.land type conformance_arg.ArgTyleMask <= 4 ->
     ArgParser.parse BigEndian p
     = Throw (parse_exception "unknown tyle type" false)).
Proof.
  intros FF BigEndian p type Htype.
  unfold ArgParser.parse. rewrite Htype. cbn [bind].
  unfold dispatched. cbn [find].
  set (tyle := Z.land type conformance_arg.ArgTyleMask).
  unfold ArgParser.parseUInt, ArgParser.parseSInt, ArgParser.parseFloat.
  fold tyle.
  unfold conformance_arg.TYLE_8BIT, conformance_arg.TYLE_16BIT,
    conformance_arg.TYLE_32BIT, conformance_arg.TYLE_64BIT,
    conformance_arg.TYLE_128BIT.
  split.
  - intros Hkind Hwidth.
    destruct (ArgParser.has type conformance_arg.INFO_STRG);
      [destruct Hkind; discriminate|].
    destruct (ArgParser.has type conformance_arg.INFO_UINT).
    + destruct (Z.eqb_spec tyle 1); [lia|]. destruct (Z.eqb_spec tyle 2); [lia|].
      destruct (Z.eqb_spec tyle 3); [lia|]. destruct (Z.eqb_spec tyle 4); [lia|].
      destruct (tyle =? 5); reflexivity.
    + destruct (ArgParser.has type conformance_arg.INFO_SINT).
      * destruct (Z.eqb_spec tyle 1); [lia|]. destruct (Z.eqb_spec tyle 2); [lia|].
        destruct (Z.eqb_spec tyle 3); [lia|]. destruct (Z.eqb_spec tyle 4); [lia|].
        destruct (tyle =? 5); reflexivity.
      * destruct Hkind as [H|H];
          repeat match type of H with
                 | (if ?c then _ else _) = _ => destruct c
                 end; discriminate.
  - intros Hkind Hwidth.
    destruct (ArgParser.has type conformance_arg.INFO_STRG); [discriminate|].
    destruct (ArgParser.has type conformance_arg.INFO_UINT); [discriminate|].
    destruct (ArgParser.has type conformance_arg.INFO_SINT); [discriminate|].
    destruct (ArgParser.has type conformance_arg.INFO_FLOA).
    + destruct (Z.eqb_spec tyle 3); [lia|]. destruct (Z.eqb_spec tyle 4); [lia|].
      reflexivity.
    + repeat match type of Hkind with
             | (if ?c then _ else _) = _ => destruct c
             end; discriminate.
Qed.

Lemma argument_of_unhandled_width_is_rejected_witness :
  ArgParser.parse (FF := samples.bit_patterns) false
                  (ArgParser.mk [x45; x00; x00; x00] EmptyString)
  = Throw (parse_exception "not supported yet" false).
Proof.
  destruct (argument_of_unhandled_width_is_rejected samples.bit_patterns false
              (ArgParser.mk [x45; x00; x00; x00] EmptyString) 0x45 eq_refl)
    as [H _].
  apply H.
  - left. reflexivity.
  - cbn. lia.
Defined.

(** The width code of a type-info word that [parseUInt] and [parseSInt]
    handle, as a number of bytes. *)
Lemma handled_width (tyle : Z) :
  1 <= tyle <= 4 -> tyle = 1 \/ tyle = 2 \/ tyle = 3 \/ tyle = 4.
Proof. lia. Qed.

(** X12: a SINT argument of 8, 16, 32 or 64 bits.  When the value bytes are
    in the buffer, [parse] consumes the type-info word and exactly the bytes
    of the value, and appends the decimal text of the two's complement
    number that these bytes hold in the byte order of the record. *)
Theorem sint_argument_parsed :
  forall (FF : fmt.FloatFormat) (BigEndian : bool) (p : ArgParser.t)
         (type : Z) (size : nat),
    endian.read 4 (ArgParser.payload_ p) BigEndian = Ret type ->
    dispatched type = Some conformance_arg.INFO_SINT ->
    1 <= Z.land type conformance_arg.ArgTyleMask <= 4 ->
    size = Nat.pow 2 (Z.to_nat (Z.land type conformance_arg.ArgTyleMask - 1)) ->
    (size <= List.length (skipn 4 (ArgParser.payload_ p)))%nat ->
    ArgParser.parse BigEndian p
    = Ret (ArgParser.mk
             (skipn size (skipn 4 (ArgParser.payload_ p)))
             (ArgParser.output_ p
              ++ fmt.dec (to_signed
                            (8 * Z.of_nat size)
                            (le_load (in_order BigEndian
                                        (firstn size
                                           (skipn 4 (ArgParser.payload_ p)))))))%string).
Proof.
  intros FF BigEndian p type size Htype Hkind Hwidth Hsize Hdata.
  unfold ArgParser.parse. rewrite Htype. cbn [bind].
  unfold dispatched in Hkind. cbn [find] in Hkind.
  destruct (ArgParser.has type conformance_arg.INFO_STRG); [discriminate|].
  destruct (ArgParser.has type conformance_arg.INFO_UINT); [discriminate|].
  destruct (ArgParser.has type conformance_arg.INFO_SINT).
  2:{ repeat match type of Hkind with
             | (if ?c then _ else _) = _ => destruct c
             end; discriminate. }
  unfold ArgParser.parseSInt.
  set (data := skipn 4 (ArgParser.payload_ p)) in *.
  destruct (handled_width _ Hwidth) as [E|[E|[E|E]]]; rewrite E in Hsize |- *;
    cbn in Hsize; subst size;
    cbn [Z.eqb Pos.eqb conformance_arg.TYLE_8BIT conformance_arg.TYLE_16BIT
         conformance_arg.TYLE_32BIT conformance_arg.TYLE_64BIT];
    unfold ArgParser.parseTyle_radix, endian.extract;
    cbn [ArgParser.sizeof ArgParser.payload_ ArgParser.output_];
    rewrite read_value by (cbn; tauto || assumption);
    reflexivity.
Qed.

Lemma sint_argument_parsed_witness :
  ArgParser.parse (FF := samples.bit_patterns) true
                  (ArgParser.mk [x00; x00; x00; x22; xff; xfe] EmptyString)
  = Ret (ArgParser.mk [] "-2"%string).
Proof.
  apply (sint_argument_parsed samples.bit_patterns true
           (ArgParser.mk [x00; x00; x00; x22; xff; xfe] EmptyString) 0x22 2
           eq_refl eq_refl).
  - cbn. lia.
  - reflexivity.
  - cbn. lia.
Defined.

(** X13: a UINT argument of 8, 16, 32 or 64 bits whose coding is neither HEX
    nor BIN.  When the value bytes are in the buffer, [parse] consumes the
    type-info word and exactly the bytes of the value, and appends the
    decimal text of the unsigned number that these bytes hold in the byte
    order of the record. *)
Theorem uint_decimal_argument_parsed :
  forall (FF : fmt.FloatFormat) (BigEndian : bool) (p : ArgParser.t)
         (type : Z) (size : nat),
    endian.read 4 (ArgParser.payload_ p) BigEndian = Ret type ->
    dispatched type = Some conformance_arg.INFO_UINT ->
    1 <= Z.land type conformance_arg.ArgTyleMask <= 4 ->
    Z.land type conformance_arg.ArgCodingMask <> conformance_arg.SCOD_HEX ->
    Z.land type conformance_arg.ArgCodingMask <> conformance_arg.SCOD_BIN ->
    size = Nat.pow 2 (Z.to_nat (Z.land type conformance_arg.ArgTyleMask - 1)) ->
    (size <= List.length (skipn 4 (ArgParser.payload_ p)))%nat ->
    ArgParser.parse BigEndian p
    = Ret (ArgParser.mk
             (skipn size (skipn 4 (ArgParser.payload_ p)))
             (ArgParser.output_ p
              ++ fmt.dec (le_load (in_order BigEndian
                                     (firstn size
                                        (skipn 4 (ArgParser.payload_ p))))))%string).
Proof.
  intros FF BigEndian p type size Htype Hkind Hwidth Hhex Hbin Hsize Hdata.
  unfold ArgParser.parse. rewrite Htype. cbn [bind].
  unfold dispatched in Hkind. cbn [find] in Hkind.
  destruct (ArgParser.has type conformance_arg.INFO_STRG); [discriminate|].
  destruct (ArgParser.has type conformance_arg.INFO_UINT).
  2:{ repeat match type of Hkind with
             | (if ?c then _ else _) = _ => destruct c
             end; discriminate. }
  unfold ArgParser.parseUInt, ArgParser.parseTyle.
  destruct (Z.eqb_spec (Z.land type conformance_arg.ArgCodingMask)
                       conformance_arg.SCOD_HEX); [contradiction|].
  destruct (Z.eqb_spec (Z.land type conformance_arg.ArgCodingMask)
                       conformance_arg.SCOD_BIN); [contradiction|].
  set (data := skipn 4 (ArgParser.payload_ p)) in *.
  destruct (handled_width _ Hwidth) as [E|[E|[E|E]]]; rewrite E in Hsize |- *;
    cbn in Hsize; subst size;
    cbn [Z.eqb Pos.eqb conformance_arg.TYLE_8BIT conformance_arg.TYLE_16BIT
         conformance_arg.TYLE_32BIT conformance_arg.TYLE_64BIT];
    unfold ArgParser.parseTyle_radix, endian.extract;
    cbn [ArgParser.sizeof ArgParser.payload_ ArgParser.output_];
    rewrite read_value by (cbn; tauto || assumption);
    reflexivity.
Qed.

Lemma uint_decimal_argument_parsed_witness :
  ArgParser.parse (FF := samples.bit_patterns) false
                  (ArgParser.mk [x42; x00; x00; x00; x34; x12] EmptyString)
  = Ret (ArgParser.mk [] "4660"%string).
Proof.
  apply (uint_decimal_argument_parsed samples.bit_patterns false
           (ArgParser.mk [x42; x00; x00; x00; x34; x12] EmptyString) 0x42 2
           eq_refl eq_refl).
  - cbn. lia.
  - discriminate.
  - discriminate.
  - reflexivity.
  - cbn. lia.
Defined.

(* ================================================================== *)
(** * Files without a signature *)

Lemma precache_read_inside (r : fs.reader) (n : Z) :
  precache_cursor r -> 0 <= n -> fs.pos_ r + n <= fs.len_ r ->
  exists r1,
    fs.read r n = (Ret (fs.pos_ r), r1) /\
    fs.pos_ r1 = fs.pos_ r + n /\
    fs.impl r1 = fs.impl r /\ fs.data_ r1 = fs.data_ r /\
    fs.len_ r1 = fs.len_ r /\
    fs.first_valid_offset_ r1 = fs.first_valid_offset_ r.
Proof.
  intros (Himpl & Hlen & Hpos & Hsmall) Hn Hin.
  unfold fs.read. rewrite Himpl. unfold fs.file_precache_read.
  rewrite size_t_small by lia.
  destruct (Z.ltb_spec (fs.len_ r) (fs.pos_ r + n)); [lia|].
  eexists. split; [reflexivity|].
  destruct (fs.chunk_len_ r <? fs.pos_ r + n); cbn; repeat split;
    reflexivity || assumption.
Qed.

Lemma precache_read_past_end (r : fs.reader) (n : Z) :
  precache_cursor r -> 0 <= n < 2 ^ 63 -> fs.len_ r < fs.pos_ r + n ->
  fs.read r n
  = (Throw (parse_exception "file ended with incomplete record" true),
     fs.with_overrun fs.OVERRUN_EOF r).
Proof.
  intros (Himpl & Hlen & Hpos & Hsmall) Hn Hout.
  unfold fs.read. rewrite Himpl. unfold fs.file_precache_read.
  rewrite size_t_small by lia.
  destruct (Z.ltb_spec (fs.len_ r) (fs.pos_ r + n)); [reflexivity|lia].
Qed.

Section Garbage.
Context {FF : fmt.FloatFormat}.

Lemma parse_reader_without_signature (r : fs.reader) (self : Impl.t) :
  precache_cursor r ->
  fs.pos_ r + 4 <= fs.len_ r ->
  Impl.signature_ok (firstn 4 (skipn (Z.to_nat (fs.pos_ r)) (fs.data_ r))) = false ->
  exists r1 self1,
    Impl.parse_reader r self
    = (Throw (parse_exception "invalid DLT signature" false), r1, self1) /\
    fs.pos_ r1 = fs.pos_ r + 4 /\
    fs.impl r1 = fs.impl r /\ fs.data_ r1 = fs.data_ r /\
    fs.len_ r1 = fs.len_ r /\
    fs.first_valid_offset_ r1 = fs.first_valid_offset_ r.
Proof.
  intros Hr Hin Hsig.
  destruct (precache_read_inside r 4 Hr ltac:(lia) Hin)
    as (r1 & Hread & Hpos1 & Himpl1 & Hdata1 & Hlen1 & Hfvo1).
  exists r1. eexists. split; [|repeat split; assumption].
  unfold Impl.parse_reader, Impl.parse_body, Impl.parse_headers.
  unfold Impl.seq_ at 1. unfold Impl.seq_ at 1.
  unfold Impl.readData at 1. unfold Impl.reader_read.
  cbn [Impl.p_reader Impl.p_self Impl.p_len].
  rewrite Hread. cbn [Impl.p_reader Impl.p_self Impl.p_len].
  unfold Impl.seq_ at 1, Impl.get_self. cbn [Impl.p_self].
  set (b := firstn (Z.to_nat 4) (fs.deref r1 (fs.pos_ r))).
  change (conformance.pattern (Impl.storageHeader_ (Impl.store_pattern b self)))
    with b.
  assert (Hb : b = firstn 4 (skipn (Z.to_nat (fs.pos_ r)) (fs.data_ r))).
  { unfold b, fs.deref. now rewrite Hdata1. }
  rewrite Hb, Hsig. cbn. reflexivity.
Qed.

Lemma parse_reader_at_end_of_file (r : fs.reader) (self : Impl.t) :
  precache_cursor r ->
  fs.len_ r < fs.pos_ r + 4 ->
  Impl.parse_reader r self
  = (Throw (parse_exception "file ended with incomplete record" true),
     fs.with_overrun fs.OVERRUN_EOF r, self).
Proof.
  intros Hr Hout.
  pose proof (precache_read_past_end r 4 Hr ltac:(lia) Hout) as Hread.
  unfold Impl.parse_reader, Impl.parse_body, Impl.parse_headers.
  unfold Impl.seq_ at 1. unfold Impl.seq_ at 1.
  unfold Impl.readData at 1. unfold Impl.reader_read.
  cbn [Impl.p_reader Impl.p_self Impl.p_len].
  rewrite Hread. reflexivity.
Qed.

(** A second placeholder in a row is not recorded. *)
Lemma handler_absorbs (first second : Record) (records : list Record) :
  Impl.isCorrupted first = true ->
  task.parse_exception_handler second
    (task.parse_exception_handler first records)
  = task.parse_exception_handler first records.
Proof.
  intros Hfirst.
  assert (Hlast : (List.length (task.parse_exception_handler first records) =? 0)%nat
                  || negb (Impl.isCorrupted
                             (last (task.parse_exception_handler first records)
                                   Impl.default)) = false).
  { unfold task.parse_exception_handler.
    destruct ((List.length records =? 0)%nat
              || negb (Impl.isCorrupted (last records Impl.default))) eqn:E.
    - rewrite length_app, last_last, Hfirst. cbn [List.length negb].
      replace (List.length records + 1 =? 0)%nat with false
        by (symmetry; apply Nat.eqb_neq; lia).
      reflexivity.
    - exact E. }
  unfold task.parse_exception_handler at 1. now rewrite Hlast.
Qed.

Lemma isCorrupted_with_cause (what : string) (self : Impl.t) :
  Impl.isCorrupted (Impl.with_corruptionCause (Some what) self) = true.
Proof. reflexivity. Qed.

(** [Record::parse] on a file without signature, from any offset: it ends
    with [eof] after the handler has seen a placeholder for the first
    attempt, and every later placeholder was absorbed. *)
Lemma parse_file_without_signature (assertions : bool) (fuel : nat) :
  forall (r : fs.reader) (self : Impl.t) (records : list Record),
    precache_cursor r ->
    no_signature (fs.data_ r) ->
    fs.len_ r - fs.pos_ r < Z.of_nat fuel ->
    exists r' self' placeholder,
      Impl.parse assertions fuel (Some task.parse_exception_handler)
                 r self records
      = (Throw eof, r', self',
         task.parse_exception_handler placeholder records) /\
      Impl.corruptionCause_ placeholder
      = Some (cause_at (fs.pos_ r) (fs.len_ r)) /\
      fs.get_overrun r' = fs.OVERRUN_EOF /\
      fs.get_first_valid_offset r' = fs.get_first_valid_offset r.
Proof.
  induction fuel as [|fuel IH]; intros r self records Hr Hnosig Hfuel.
  { destruct Hr as (_ & _ & Hpos & _). lia. }
  cbn [Impl.parse].
  destruct (Z.le_gt_cases (fs.pos_ r + 4) (fs.len_ r)) as [Hin|Hout].
  - destruct (parse_reader_without_signature r self Hr Hin (Hnosig _))
      as (r1 & self1 & Hparse & Hpos1 & Himpl1 & Hdata1 & Hlen1 & Hfvo1).
    rewrite Hparse.
    unfold fs.set_pos, fs.get_pos.
    destruct Hr as (Himpl & Hlen & Hpos & Hsmall).
    rewrite size_t_small by lia. rewrite Hlen1.
    destruct (Z.ltb_spec (fs.pos_ r + 1) (fs.len_ r)) as [_|]; [|lia].
    cbn [negb]. rewrite andb_false_r.
    set (r2 := fs.with_pos (fs.pos_ r + 1) r1).
    set (self2 := Impl.with_corruptionCause None self1).
    set (first := Impl.with_corruptionCause (Some "invalid DLT signature"%string) self1).
    destruct (IH r2 self2 (task.parse_exception_handler first records))
      as (r' & self' & second & Hrec & _ & Hover & Hfvo).
    + unfold precache_cursor, r2. cbn. rewrite Himpl1, Hdata1, Hlen1.
      repeat split; try assumption; lia.
    + unfold r2. cbn. now rewrite Hdata1.
    + unfold r2. cbn. rewrite Hlen1. lia.
    + exists r', self', first. rewrite Hrec.
      rewrite handler_absorbs by reflexivity.
      split; [reflexivity|]. split.
      * unfold cause_at. destruct (Z.leb_spec (fs.pos_ r + 4) (fs.len_ r)); [reflexivity|lia].
      * split; [assumption|]. rewrite Hfvo. unfold r2. cbn. exact Hfvo1.
  - rewrite (parse_reader_at_end_of_file r self Hr Hout).
    eexists. eexists. eexists. split; [reflexivity|].
    split.
    + cbn. unfold cause_at.
      destruct (Z.leb_spec (fs.pos_ r + 4) (fs.len_ r)); [lia|reflexivity].
    + split; reflexivity.
Qed.

Lemma task_on_file_without_signature
      (assertions : bool) (holder : option exn) (tk : task.t) :
  ready_on_garbage tk ->
  exists tk',
    task.execute assertions holder tk = (Ret tt, tk', holder) /\
    spent_on_garbage tk' /\
    (forall placeholder,
        task.records_ tk' = [placeholder] ->
        Impl.corruptionCause_ placeholder
        = Some (cause_at (fs.pos_ (task.reader_ tk)) (fs.len_ (task.reader_ tk)))).
Proof.
  intros (Hrecords & Hr & Hnosig & Hfvo).
  unfold task.execute, task.fuel_for. cbn [task.execute_loop].
  destruct (parse_file_without_signature
              assertions (S (Z.to_nat (fs.len_ (task.reader_ tk))))
              (task.reader_ tk) Impl.default (task.records_ tk) Hr Hnosig)
    as (r' & self' & placeholder & Hparse & Hcause & Hover & Hfvo').
  { destruct Hr as (_ & _ & Hpos & _). lia. }
  rewrite Hparse, Hrecords. eexists. split; [reflexivity|].
  split.
  - exists placeholder. cbn. repeat split; try assumption.
    + unfold Impl.isCorrupted. now rewrite Hcause.
    + congruence.
  - cbn. intros ph Hph. injection Hph as <-. exact Hcause.
Qed.

Lemma run_tasks_without_signature (assertions : bool) (tasks : list task.t) :
  Forall ready_on_garbage tasks ->
  exists tasks',
    supervisor.run_tasks assertions None tasks = (Ret tasks', None) /\
    Forall spent_on_garbage tasks' /\
    List.length tasks' = List.length tasks.
Proof.
  induction tasks as [|tk rest IH]; intros Hready.
  - exists []. repeat split. constructor.
  - inversion Hready as [|? ? Htk Hrest]; subst.
    destruct (task_on_file_without_signature assertions None tk Htk)
      as (tk' & Hexec & Hspent & _).
    destruct (IH Hrest) as (rest' & Hrun & Hspents & Hlen).
    exists (tk' :: rest'). cbn [supervisor.run_tasks].
    rewrite Hexec, Hrun. split; [reflexivity|].
    split; [now constructor | cbn; now rewrite Hlen].
Qed.
End Garbage.

Lemma spent_chunk_is_dropped (tasks : list task.t) (i : nat) :
  Forall spent_on_garbage tasks ->
  (1 <= i < List.length tasks)%nat ->
  assert_fails tasks (map task.result tasks) i = false /\
  chunk_contribution tasks (map task.result tasks) i = [].
Proof.
  intros Hspent Hi.
  rewrite Forall_forall in Hspent.
  assert (Hcur : spent_on_garbage (nth i tasks supervisor.default_task))
    by (apply Hspent, nth_In; lia).
  assert (Hprev : spent_on_garbage (nth (i - 1) tasks supervisor.default_task))
    by (apply Hspent, nth_In; lia).
  destruct Hcur as (ph & Hrec & Hcorrupt & Hover & Hfvo).
  destruct Hprev as (_ & _ & _ & Hoverp & _).
  unfold assert_fails, chunk_contribution, leading_record_dropped.
  change (@nil Record) with (task.result supervisor.default_task).
  rewrite map_nth. unfold task.result, task.get_reader.
  rewrite Hrec, Hcorrupt, Hover, Hoverp, Hfvo.
  split; reflexivity.
Qed.

Lemma existsb_all_false {A : Type} (f : A -> bool) (l : list A) :
  (forall x, In x l -> f x = false) -> existsb f l = false.
Proof.
  induction l as [|x l IH]; intros H; [reflexivity|].
  cbn. rewrite (H x (or_introl eq_refl)), IH; [reflexivity|].
  intros y Hy. apply H. now right.
Qed.

Lemma concat_all_nil {A B : Type} (f : A -> list B) (l : list A) :
  (forall x, In x l -> f x = []) -> List.concat (map f l) = [].
Proof.
  induction l as [|x l IH]; intros H; [reflexivity|].
  cbn. rewrite (H x (or_introl eq_refl)), IH; [reflexivity|].
  intros y Hy. apply H. now right.
Qed.

Lemma split_readers_ready (data : list byte) (n : Z) :
  data <> [] -> Z.of_nat (List.length data) < 2 ^ 63 -> 1 <= n <= 255 ->
  no_signature data ->
  exists first rest,
    fs.split (fs.factory fs.file_precache data) n = Ret (first :: rest) /\
    List.length (first :: rest) = Z.to_nat n /\
    fs.pos_ first = 0 /\
    fs.len_ first = Z.of_nat (List.length data) /\
    Forall ready_on_garbage (map task.make (first :: rest)).
Proof.
  intros Hdata Hsmall Hn Hnosig.
  assert (Hlen : 0 < Z.of_nat (List.length data)).
  { destruct data; [contradiction|]. cbn [List.length]. lia. }
  unfold fs.split. cbn [fs.factory fs.len_].
  destruct (Z.eqb_spec (Z.of_nat (List.length data)) 0); [lia|].
  set (f := fun k : nat => _).
  assert (Hall : Forall ready_on_garbage (map task.make (map f (seq 0 (Z.to_nat n))))).
  { rewrite Forall_forall. intros tk Htk.
    apply in_map_iff in Htk. destruct Htk as (r & <- & Hr).
    apply in_map_iff in Hr. destruct Hr as (k & <- & Hk).
    apply in_seq in Hk.
    set (len := Z.of_nat (List.length data)) in *.
    assert (0 <= len / n) by (apply Z.div_pos; lia).
    assert (n * (len / n) <= len) by (apply Z.mul_div_le; lia).
    unfold ready_on_garbage, precache_cursor, f. cbn.
    rewrite size_t_small by nia.
    repeat split; try assumption; try reflexivity; nia. }
  assert (Hcount : List.length (map f (seq 0 (Z.to_nat n))) = Z.to_nat n)
    by now rewrite length_map, length_seq.
  destruct (Z.to_nat n) as [|m] eqn:En; [lia|].
  exists (f 0%nat), (map f (seq 1 m)).
  split; [reflexivity|]. split; [exact Hcount|].
  split; [unfold f; cbn; now rewrite Z.mul_0_r|].
  split; [reflexivity|]. exact Hall.
Qed.

(** X14: a file of [file_precache] that is not empty and in which no offset
    starts with the signature "DLT\x01" yields exactly one record, a
    corrupted placeholder, whatever the number of workers: every worker
    resynchronises byte by byte to the end of the file and keeps one
    placeholder, and the merge drops the placeholder of every chunk but the
    first.  Its cause is "invalid DLT signature" when the file has at least
    four bytes and "file ended with incomplete record" otherwise. *)
Theorem file_without_signature_yields_one_placeholder :
  forall (FF : fmt.FloatFormat) (assertions : bool) (data : list byte)
         (cores_num : Z),
    data <> [] ->
    Z.of_nat (List.length data) < 2 ^ 63 ->
    1 <= cores_num <= 255 ->
    no_signature data ->
    exists placeholder,
      supervisor.parse_file assertions fs.file_precache data cores_num
      = Ret [placeholder] /\
      Impl.getCorruptionCause placeholder
      = Ret (cause_at 0 (Z.of_nat (List.length data))).
Proof.
  intros FF assertions data n Hdata Hsmall Hn Hnosig.
  destruct (split_readers_ready data n Hdata Hsmall Hn Hnosig)
    as (first & rest & Hsplit & Hcount & Hpos0 & Hlen0 & Hready).
  unfold supervisor.parse_file, supervisor.make.
  assert (Hu8 : uint8_t n = n) by (unfold uint8_t, wrap; apply Z.mod_small; lia).
  rewrite Hu8, Hsplit. cbn [bind].
  unfold supervisor.execute. cbn [supervisor.tasks_ supervisor.threads_num_].
  cbn [map] in Hready |- *.
  inversion Hready as [|? ? Hfirst Hrest]; subst.
  cbn [supervisor.run_tasks].
  destruct (task_on_file_without_signature assertions None (task.make first) Hfirst)
    as (first' & Hexec & Hspent & Hcause).
  destruct (run_tasks_without_signature assertions _ Hrest)
    as (rest' & Hrun & Hspents & Hlen).
  rewrite Hexec, Hrun.
  assert (Hall : Forall spent_on_garbage (first' :: rest')) by now constructor.
  destruct Hspent as (placeholder & Hrec & Hcorrupt & _).
  assert (Hres : map task.result (first' :: rest')
                 = [placeholder] :: map task.result rest').
  { cbn [map]. unfold task.result at 1. now rewrite Hrec. }
  unfold supervisor.merge. rewrite Hres. rewrite <- Hres.
  rewrite merge_loop_spec.
  assert (Hcount' : (Z.to_nat n - 1 = List.length rest')%nat).
  { rewrite Hlen, length_map. cbn [List.length] in Hcount. lia. }
  rewrite existsb_all_false, concat_all_nil.
  - rewrite andb_false_r. cbn [bind app].
    exists placeholder. split; [reflexivity|].
    unfold Impl.getCorruptionCause. rewrite (Hcause placeholder Hrec).
    cbn [task.make task.reader_]. now rewrite Hpos0, Hlen0.
  - intros i Hi. apply in_seq in Hi.
    apply spent_chunk_is_dropped; [assumption|cbn [List.length]; lia].
  - intros i Hi. apply in_seq in Hi.
    apply spent_chunk_is_dropped; [assumption|cbn [List.length]; lia].
Qed.

Lemma five_bytes_without_signature : no_signature samples.five_bytes.
Proof.
  intros p. do 5 (destruct p as [|p]; [reflexivity|]).
  destruct p; reflexivity.
Qed.

Lemma file_without_signature_yields_one_placeholder_witness :
  exists placeholder,
    supervisor.parse_file (FF := samples.bit_patterns) true fs.file_precache
                          samples.five_bytes 2
    = Ret [placeholder] /\
    Impl.getCorruptionCause placeholder = Ret "invalid DLT signature"%string.
Proof.
  apply (file_without_signature_yields_one_placeholder
           samples.bit_patterns true samples.five_bytes 2).
  - discriminate.
  - cbn. lia.
  - lia.
  - exact five_bytes_without_signature.
Defined.

(* ================================================================== *)
(** * The worker: placeholders never come in pairs *)

Lemma no_corrupted_pair_push_valid (records : list Record) (record : Record) :
  no_corrupted_pair records = true ->
  Impl.isCorrupted record = false ->
  no_corrupted_pair (records ++ [record]) = true.
Proof.
  intros Hok Hvalid.
  induction records as [|a rest IH]; [reflexivity|].
  cbn [app no_corrupted_pair] in *.
  apply andb_prop in Hok. destruct Hok as [Hhead Htail].
  rewrite (IH Htail), andb_true_r.
  destruct rest as [|b rest']; cbn [app]; [|exact Hhead].
  now rewrite Hvalid, andb_false_r.
Qed.

Lemma no_corrupted_pair_push_after_valid (records : list Record) (record : Record) :
  no_corrupted_pair records = true ->
  (List.length records =? 0)%nat
  || negb (Impl.isCorrupted (last records Impl.default)) = true ->
  no_corrupted_pair (records ++ [record]) = true.
Proof.
  intros Hok Hlast.
  induction records as [|a rest IH]; [reflexivity|].
  cbn [app no_corrupted_pair] in *.
  apply andb_prop in Hok. destruct Hok as [Hhead Htail].
  destruct rest as [|b rest'].
  - cbn [app no_corrupted_pair]. cbn in Hlast.
    apply negb_true_iff in Hlast. now rewrite Hlast.
  - cbn [app]. cbn [app] in IH. rewrite Hhead. cbn [andb].
    apply IH; [assumption|].
    cbn [List.length Nat.eqb orb] in Hlast |- *. exact Hlast.
Qed.

Lemma handler_keeps_no_corrupted_pair (record : Record) (records : list Record) :
  no_corrupted_pair records = true ->
  no_corrupted_pair (task.parse_exception_handler record records) = true.
Proof.
  intros Hok. unfold task.parse_exception_handler.
  destruct ((List.length records =? 0)%nat
            || negb (Impl.isCorrupted (last records Impl.default))) eqn:E;
    [|assumption].
  now apply no_corrupted_pair_push_after_valid.
Qed.

Lemma parse_headers_keeps_cause :
  keeps Impl.corruptionCause_ Impl.parse_headers.
Proof.
  unfold Impl.parse_headers.
  repeat keeps_step.
  all: try (intro s; reflexivity).
  apply keeps_modify. intros r. unfold Impl.store_msin_fields.
  destruct (negb _); reflexivity.
Qed.

Lemma assembleMessage_keeps_cause {FF : fmt.FloatFormat} (payload : list byte) :
  keeps Impl.corruptionCause_ (Impl.assembleMessage payload).
Proof.
  unfold Impl.assembleMessage, Impl.control_response_details.
  repeat keeps_step.
Qed.

(** The private [parse(reader)] never touches [corruptionCause_]. *)
Lemma parse_reader_keeps_cause {FF : fmt.FloatFormat}
      (reader : fs.reader) (self : Impl.t) :
  Impl.corruptionCause_ (snd (Impl.parse_reader reader self))
  = Impl.corruptionCause_ self.
Proof.
  unfold Impl.parse_reader.
  assert (H : keeps Impl.corruptionCause_ Impl.parse_body).
  { unfold Impl.parse_body.
    apply keeps_seq; [apply parse_headers_keeps_cause|]. intros len.
    apply keeps_seq; [apply keeps_reader_read|]. intros data.
    apply assembleMessage_keeps_cause. }
  specialize (H (Impl.mk_pstate reader self 0)).
  destruct (Impl.parse_body (Impl.mk_pstate reader self 0)) as [o s].
  exact H.
Qed.

(** [Record::parse] with the handler of the worker: the record list stays
    free of pairs of placeholders, and the record is handed back without a
    corruption cause. *)
Lemma parse_keeps_no_corrupted_pair {FF : fmt.FloatFormat}
      (assertions : bool) (fuel : nat) :
  forall (reader : fs.reader) (self : Impl.t) (records : list Record),
    no_corrupted_pair records = true ->
    Impl.corruptionCause_ self = None ->
    no_corrupted_pair
      (snd (Impl.parse assertions fuel (Some task.parse_exception_handler)
                       reader self records)) = true /\
    Impl.corruptionCause_
      (snd (fst (Impl.parse assertions fuel (Some task.parse_exception_handler)
                            reader self records))) = None.
Proof.
  induction fuel as [|fuel IH]; intros reader self records Hok Hcause.
  { cbn. split; assumption. }
  cbn [Impl.parse].
  pose proof (parse_reader_keeps_cause reader self) as Hkeep.
  destruct (Impl.parse_reader reader self) as [[o reader1] self1].
  cbn [snd] in Hkeep. rewrite Hcause in Hkeep.
  destruct o as [u | e | | | ].
  - destruct (fs.notify_success reader1 (fs.get_pos reader)) as [o2 reader2].
    cbn. split; assumption.
  - destruct e as [ | what nested | ]; try (cbn; split; assumption).
    destruct nested.
    + cbn. split; [now apply handler_keeps_no_corrupted_pair | reflexivity].
    + destruct (fs.set_pos assertions reader1 (size_t (fs.get_pos reader + 1)))
        as [[u | e | | | ] reader2];
        try (cbn; split; [now apply handler_keeps_no_corrupted_pair | reflexivity]).
      apply IH; [now apply handler_keeps_no_corrupted_pair | reflexivity].
  - cbn. split; assumption.
  - cbn. split; assumption.
  - cbn. split; assumption.
Qed.

(** X15: however a worker ends, on whatever bytes and with either reader,
    its record list never holds two corrupted placeholders in a row when it
    held none before: a stretch of bytes that is skipped leaves at most one
    placeholder. *)
Theorem worker_never_records_two_placeholders_in_a_row :
  forall (FF : fmt.FloatFormat) (assertions : bool) (fuel inner : nat)
         (holder : option exn) (tk : task.t),
    no_corrupted_pair (task.records_ tk) = true ->
    no_corrupted_pair
      (task.result
         (snd (fst (task.execute_loop assertions fuel inner holder tk)))) = true /\
    no_corrupted_pair
      (task.result (snd (fst (task.execute assertions holder tk)))) = true.
Proof.
  intros FF assertions fuel inner holder tk Hok.
  assert (Hloop : forall fuel inner tk,
             no_corrupted_pair (task.records_ tk) = true ->
             no_corrupted_pair
               (task.result
                  (snd (fst (task.execute_loop assertions fuel inner holder tk))))
             = true).
  { clear. intros fuel inner.
    induction fuel as [|fuel IH]; intros tk Hok; [exact Hok|].
    cbn [task.execute_loop].
    destruct (parse_keeps_no_corrupted_pair
                assertions inner (task.reader_ tk) Impl.default (task.records_ tk)
                Hok eq_refl) as [Hrecords Hcause].
    destruct (Impl.parse assertions inner (Some task.parse_exception_handler)
                         (task.reader_ tk) Impl.default (task.records_ tk))
      as [[[o reader] record] records].
    cbn [fst snd] in Hrecords, Hcause.
    assert (Hpushed : no_corrupted_pair (records ++ [record]) = true).
    { apply no_corrupted_pair_push_valid; [assumption|].
      unfold Impl.isCorrupted. now rewrite Hcause. }
    destruct o as [u | e | | | ]; try exact Hrecords.
    - destruct (0 <? fs.get_overrun reader); [exact Hpushed|].
      destruct holder; [exact Hpushed|].
      apply IH. exact Hpushed.
    - destruct e; exact Hrecords. }
  split; [now apply Hloop|].
  unfold task.execute. now apply Hloop.
Qed.

Lemma worker_never_records_two_placeholders_in_a_row_witness :
  no_corrupted_pair
    (task.result
       (snd (fst (task.execute (FF := samples.bit_patterns) true None
                               (task.make (fs.factory fs.file_precache
                                             samples.five_bytes))))))
  = true.
Proof.
  apply (worker_never_records_two_placeholders_in_a_row
           samples.bit_patterns true 0 0 None
           (task.make (fs.factory fs.file_precache samples.five_bytes))).
  reflexivity.
Defined.

(* ================================================================== *)
(** * The supervisor: what the merge keeps *)

Lemma chunk_contribution_within_chunk (tasks : list task.t)
      (results : list (list Record)) (i : nat) (r : Record) :
  In r (chunk_contribution tasks results i) -> In r (nth i results []).
Proof.
  unfold chunk_contribution.
  destruct (leading_record_dropped _ _ _); [|tauto].
  destruct (nth i results []); [tauto|]. cbn. tauto.
Qed.

Lemma chunk_contribution_keeps_valid (tasks : list task.t)
      (results : list (list Record)) (i : nat) (r : Record) :
  In r (nth i results []) -> Impl.isCorrupted r = false ->
  In r (chunk_contribution tasks results i).
Proof.
  unfold chunk_contribution, leading_record_dropped.
  destruct (nth i results []) as [|first rest]; [tauto|].
  intros Hin Hvalid.
  destruct (Impl.isCorrupted first) eqn:Hfirst; cbn [andb]; [|exact Hin].
  destruct (_ || _); [|exact Hin].
  destruct Hin as [->|Hin]; [congruence|exact Hin].
Qed.

(** X16: when the merge returns, it has lost no valid record and invented
    none: every record of every chunk that is not a corrupted placeholder is
    in the merged list, and every record of the merged list comes from the
    list of some chunk. *)
Theorem merge_keeps_every_valid_record :
  forall (assertions : bool) (threads_num : Z) (tasks : list task.t)
         (results : list (list Record)) (records : list Record),
    1 <= threads_num ->
    supervisor.merge assertions threads_num tasks results = Ret records ->
    (forall (i : nat) (r : Record),
        (i < Z.to_nat threads_num)%nat ->
        In r (nth i results []) ->
        Impl.isCorrupted r = false ->
        In r records) /\
    (forall r : Record,
        In r records ->
        exists i : nat, (i < Z.to_nat threads_num)%nat /\ In r (nth i results [])).
Proof.
  intros assertions n tasks results records Hn Hmerge.
  unfold supervisor.merge in Hmerge.
  destruct results as [|results_0 others]; [discriminate|].
  rewrite merge_loop_spec in Hmerge.
  destruct (assertions && _); [discriminate|].
  injection Hmerge as <-.
  split.
  - intros i r Hi Hin Hvalid. apply in_or_app.
    destruct i as [|i]; [left; exact Hin|].
    right. apply in_concat.
    exists (chunk_contribution tasks (results_0 :: others) (S i)).
    split.
    + apply in_map, in_seq. lia.
    + now apply chunk_contribution_keeps_valid.
  - intros r Hin. apply in_app_or in Hin. destruct Hin as [Hin|Hin].
    + exists 0%nat. split; [lia | exact Hin].
    + apply in_concat in Hin. destruct Hin as (chunk & Hchunk & Hr).
      apply in_map_iff in Hchunk. destruct Hchunk as (i & <- & Hi).
      apply in_seq in Hi. exists i. split; [lia|].
      now apply chunk_contribution_within_chunk in Hr.
Qed.

Lemma merge_keeps_every_valid_record_witness :
  exists i : nat,
    (i < Z.to_nat 2)%nat /\
    In Impl.default (nth i [[Impl.default]; [Impl.default]] []).
Proof.
  apply (proj2 (merge_keeps_every_valid_record
                  true 2
                  [task.make (fs.factory fs.file_precache samples.five_bytes);
                   task.make (fs.factory fs.file_precache samples.five_bytes)]
                  [[Impl.default]; [Impl.default]]
                  [Impl.default; Impl.default]
                  ltac:(lia) eq_refl)
               Impl.default).
  left. reflexivity.
Defined.

(* ================================================================== *)
(** * The public record view, continued *)

(** X17: the identifier accessors undo the zero padding: for a tag of at
    most four bytes, none of them zero, stored zero-padded to four bytes,
    [get_view] (behind [getApid], [getCtid] and [getEcu]) returns exactly
    the bytes of the tag. *)
Theorem get_view_undoes_zero_padding :
  forall tag : list byte,
    (List.length tag <= 4)%nat ->
    Forall (fun b => byte_val b <> 0) tag ->
    Impl.get_view (tag ++ repeat x00 (4 - List.length tag)) = text_of_bytes tag.
Proof.
  intros tag Hlen Hnz.
  assert (Hne : forall b, byte_val b <> 0 -> negb (byte_val b =? 0) = true).
  { intros b Hb. apply negb_true_iff, Z.eqb_neq, Hb. }
  destruct tag as [|a [|b [|c [|d [|e rest]]]]];
    try (cbn in Hlen; lia);
    repeat match goal with
           | H : Forall _ (_ :: _) |- _ => inversion H; subst; clear H
           end;
    unfold Impl.get_view; cbn [List.length Nat.sub repeat app nth];
    repeat match goal with
           | H : byte_val ?x <> 0 |- _ => rewrite (Hne x H); clear H
           end;
    reflexivity.
Qed.

Lemma get_view_undoes_zero_padding_witness :
  Impl.get_view ([x45; x43] ++ repeat x00 (4 - List.length [x45; x43]))
  = text_of_bytes [x45; x43].
Proof.
  apply (get_view_undoes_zero_padding [x45; x43]).
  - cbn. lia.
  - repeat constructor; discriminate.
Defined.

Lemma wrap_small (bits x : Z) : 0 <= x < 2 ^ bits -> wrap bits x = x.
Proof. intros H. unfold wrap. now apply Z.mod_small. Qed.

(** X18: the time stamp of a record is exact: with the seconds and the
    microseconds as the parser stores them from their four bytes each,
    [getTimestamp] is seconds times 1000000 plus microseconds, without any
    wrap-around of the 64-bit result. *)
Theorem getTimestamp_is_exact :
  forall (r : Record) (seconds microseconds : list byte),
    List.length seconds = 4%nat ->
    List.length microseconds = 4%nat ->
    view.getTimestamp
      (Impl.store_microseconds microseconds (Impl.store_seconds seconds r))
    = le_load seconds * 1000000 + le_load microseconds.
Proof.
  intros r seconds microseconds Hs Hm.
  unfold view.getTimestamp. cbn.
  pose proof (le_load_bound seconds) as Bs. rewrite Hs in Bs.
  pose proof (le_load_bound microseconds) as Bm. rewrite Hm in Bm.
  change (256 ^ Z.of_nat 4) with 4294967296 in Bs, Bm.
  rewrite (wrap_small 64 (le_load seconds * 1000000)) by lia.
  apply wrap_small. lia.
Qed.

Lemma getTimestamp_is_exact_witness :
  view.getTimestamp
    (Impl.store_microseconds [x02; x00; x00; x00]
       (Impl.store_seconds [x01; x00; x00; x00] Impl.default))
  = le_load [x01; x00; x00; x00] * 1000000 + le_load [x02; x00; x00; x00].
Proof.
  apply (getTimestamp_is_exact Impl.default
           [x01; x00; x00; x00] [x02; x00; x00; x00]);
    reflexivity.
Defined.

Lemma c_str_splits (s : string) :
  exists rest,
    s = (c_str s ++ rest)%string /\
    (rest = EmptyString \/ exists t, rest = String Ascii.zero t) /\
    has_nul (c_str s) = false.
Proof.
  induction s as [|c s (rest & Hs & Hrest & Hnul)].
  - exists EmptyString. repeat split. now left.
  - cbn [c_str]. destruct (Ascii.eqb_spec c Ascii.zero) as [->|Hc].
    + exists (String Ascii.zero s). repeat split. right. now exists s.
    + exists rest. cbn [append has_nul].
      rewrite <- Hs. split; [reflexivity|]. split; [assumption|].
      rewrite Hnul, orb_false_r. now apply Ascii.eqb_neq.
Qed.

Lemma c_str_without_nul (s : string) : has_nul s = false -> c_str s = s.
Proof.
  induction s as [|c s IH]; [reflexivity|].
  cbn [has_nul c_str]. intros H.
  apply orb_false_elim in H. destruct H as [Hc Hs].
  rewrite Hc. f_equal. now apply IH.
Qed.

(** X19: [getMessage] hands out the message up to its first NUL character:
    the text it shows holds no NUL, and what it leaves out is nothing or
    starts with a NUL.  A message without NUL is shown whole. *)
Theorem getMessage_stops_at_first_nul :
  forall r : Record,
    (exists rest,
        Impl.message_ r = (Impl.getMessage r ++ rest)%string /\
        (rest = EmptyString \/ exists t, rest = String Ascii.zero t)) /\
    has_nul (Impl.getMessage r) = false /\
    (has_nul (Impl.message_ r) = false -> Impl.getMessage r = Impl.message_ r).
Proof.
  intros r. unfold Impl.getMessage.
  destruct (c_str_splits (Impl.message_ r)) as (rest & Hs & Hrest & Hnul).
  split; [exists rest; split; assumption|].
  split; [assumption|].
  apply c_str_without_nul.
Qed.

(* ================================================================== *)
(** * The lazy string *)

Lemma string_append_nil_r (s : string) : (s ++ EmptyString)%string = s.
Proof. induction s as [|c s IH]; cbn; [reflexivity | now rewrite IH]. Qed.

Lemma plus_all_parts (parts : list string) :
  forall s : lazy.t,
    lazy.parts_ (fold_left lazy.plus parts s) = lazy.parts_ s ++ parts /\
    lazy.is_evaluated_ (fold_left lazy.plus parts s) = lazy.is_evaluated_ s.
Proof.
  induction parts as [|p parts IH]; intros s; cbn [fold_left].
  - now rewrite app_nil_r.
  - destruct (IH (lazy.plus s p)) as [Hparts Hflag].
    rewrite Hparts, Hflag. cbn. now rewrite <- app_assoc.
Qed.

Lemma append_all_parts (parts : list string) :
  forall acc : string,
    fold_left String.append parts acc
    = (acc ++ String.concat EmptyString parts)%string.
Proof.
  induction parts as [|p parts IH]; intros acc; cbn [fold_left].
  - cbn. now rewrite string_append_nil_r.
  - rewrite IH. destruct parts as [|q parts].
    + cbn. now rewrite string_append_nil_r.
    + cbn [String.concat]. cbn [append]. now rewrite string_append_assoc.
Qed.

(** X20: a lazy string evaluates to its parts joined in the order they were
    added, and it evaluates once: after an evaluation every further
    evaluation throws [std::logic_error], also when parts were added in
    between. *)
Theorem lazy_string_evaluates_once_to_its_parts :
  forall parts more : list string,
    fst (lazy.to_string (fold_left lazy.plus parts lazy.empty))
    = lazy.evaluated (String.concat EmptyString parts) /\
    fst (lazy.to_string
           (fold_left lazy.plus more
              (snd (lazy.to_string (fold_left lazy.plus parts lazy.empty)))))
    = lazy.logic_error "this string is already evaluated".
Proof.
  intros parts more.
  destruct (plus_all_parts parts lazy.empty) as [Hparts Hflag].
  cbn in Hparts, Hflag.
  split.
  - unfold lazy.to_string. rewrite Hflag, Hparts.
    cbn [fst]. now rewrite append_all_parts.
  - unfold lazy.to_string at 2. rewrite Hflag. cbn [snd].
    destruct (plus_all_parts more
                (lazy.mk (lazy.parts_ (fold_left lazy.plus parts lazy.empty)) true))
      as [_ Hflag'].
    unfold lazy.to_string. rewrite Hflag'. reflexivity.
Qed.

(* ================================================================== *)
(** * The loops end *)

Lemma reader_advanced_refl (r : fs.reader) : cursor_ok r -> reader_advanced r r.
Proof. intros [H _]. unfold reader_advanced. repeat split; lia. Qed.

Lemma reader_advanced_trans (a b c : fs.reader) :
  reader_advanced a b -> reader_advanced b c -> reader_advanced a c.
Proof.
  unfold reader_advanced.
  intros (? & ? & ? & ? & ? & ?) (? & ? & ? & ? & ? & ?).
  repeat split; try congruence; lia.
Qed.

Lemma reader_advanced_ok (r r' : fs.reader) :
  cursor_ok r -> reader_advanced r r' -> cursor_ok r'.
Proof.
  unfold cursor_ok, reader_advanced.
  intros [? ?] (? & ? & Hlen & ? & ? & ?). rewrite Hlen in *. lia.
Qed.

(** What [read] does to a cursor, in both implementations. *)
Lemma read_advances (r : fs.reader) (n : Z) :
  cursor_ok r -> 0 <= n < 2 ^ 63 ->
  reader_advanced r (snd (fs.read r n)) /\
  fst (fs.read r n) <> OutOfFuel /\
  (forall ptr, fst (fs.read r n) = Ret ptr ->
               fs.pos_ (snd (fs.read r n)) = fs.pos_ r + n) /\
  (forall what, fst (fs.read r n) <> Throw (parse_exception what false)).
Proof.
  intros [Hpos Hsmall] Hn.
  unfold fs.read, fs.file_precache_read, fs.file_map_read, reader_advanced.
  rewrite size_t_small by lia.
  destruct (fs.impl r) eqn:Himpl;
    destruct (Z.ltb_spec (fs.len_ r) (fs.pos_ r + n));
    try destruct (fs.chunk_len_ r <? fs.pos_ r + n);
    cbn; repeat split; intros;
    first [reflexivity | assumption | lia | discriminate].
Qed.

Section Steps.
Import Impl.

Lemma step_ret {A : Type} (a : A) : sound_step (ret a).
Proof. intros s Hok. split; [now apply reader_advanced_refl | discriminate]. Qed.

Lemma step_throw {A : Type} (e : exn) : sound_step (@throw A e).
Proof. intros s Hok. split; [now apply reader_advanced_refl | discriminate]. Qed.

Lemma step_lift {A : Type} (o : outcome A) :
  o <> OutOfFuel -> sound_step (lift o).
Proof. intros Ho s Hok. split; [now apply reader_advanced_refl | exact Ho]. Qed.

Lemma step_get_self : sound_step get_self.
Proof. intros s Hok. split; [now apply reader_advanced_refl | discriminate]. Qed.

Lemma step_modify (f : Impl.t -> Impl.t) : sound_step (modify f).
Proof. intros s Hok. split; [now apply reader_advanced_refl | discriminate]. Qed.

Lemma step_reader_read (n : Z) : 0 <= n < 2 ^ 63 -> sound_step (reader_read n).
Proof.
  intros Hn s Hok. unfold reader_read.
  destruct (read_advances (p_reader s) n Hok Hn) as (Hadv & Hfuel & _).
  destruct (fs.read (p_reader s) n) as [[ptr | e | | | ] rd]; cbn in *;
    (split; [assumption | congruence]).
Qed.

Lemma step_readData (n : Z) (store : list byte -> Impl.t -> Impl.t) :
  0 <= n < 2 ^ 63 -> sound_step (readData n store).
Proof.
  intros Hn s Hok. unfold readData.
  destruct (step_reader_read n Hn s Hok) as [Hadv Hfuel].
  destruct (reader_read n s) as [[data | e | | | ] s1]; cbn in *;
    (split; [assumption | congruence]).
Qed.

Lemma step_seq {A B : Type} (m : M A) (k : A -> M B) :
  sound_step m -> (forall a, sound_step (k a)) -> sound_step (seq_ m k).
Proof.
  intros Hm Hk s Hok. unfold seq_.
  destruct (Hm s Hok) as [Hadv Hfuel].
  destruct (m s) as [[a | e | | | ] s1]; cbn in *;
    try (split; [assumption | congruence]).
  destruct (Hk a s1 (reader_advanced_ok _ _ Hok Hadv)) as [Hadv' Hfuel'].
  split; [eapply reader_advanced_trans; eassumption | assumption].
Qed.

Lemma step_seq_in {A B : Type} (P : A -> Prop) (m : M A) (k : A -> M B) :
  sound_step m -> returns_in P m -> (forall a, P a -> sound_step (k a)) ->
  sound_step (seq_ m k).
Proof.
  intros Hm HP Hk s Hok. unfold seq_.
  destruct (Hm s Hok) as [Hadv Hfuel].
  specialize (HP s).
  destruct (m s) as [[a | e | | | ] s1]; cbn in *;
    try (split; [assumption | congruence]).
  destruct (Hk a (HP a eq_refl) s1 (reader_advanced_ok _ _ Hok Hadv))
    as [Hadv' Hfuel'].
  split; [eapply reader_advanced_trans; eassumption | assumption].
Qed.

Lemma step_when (c : bool) (m : M unit) : sound_step m -> sound_step (when c m).
Proof. intros Hm. destruct c; [assumption | apply step_ret]. Qed.

Lemma returns_seq {A B : Type} (P : B -> Prop) (m : M A) (k : A -> M B) :
  (forall a, returns_in P (k a)) -> returns_in P (seq_ m k).
Proof.
  intros Hk s b. unfold seq_.
  destruct (m s) as [[a | e | | | ] s1]; cbn; try discriminate.
  apply Hk.
Qed.

Lemma returns_throw {A : Type} (P : A -> Prop) (e : exn) : returns_in P (throw e).
Proof. intros s a. discriminate. Qed.

End Steps.

#[local] Ltac step_tac :=
  first
    [ apply step_ret | apply step_throw | apply step_get_self
    | apply step_modify | apply step_when
    | apply step_reader_read; lia
    | apply step_readData;
      unfold conformance.sizeof_DltStandardHeader,
        conformance.sizeof_DltExtendedHeader; lia
    | apply step_seq; [ | intros ? ]
    | match goal with
      | |- sound_step (if ?c then _ else _) => destruct c
      | |- sound_step (match ?x with _ => _ end) => destruct x
      end ].

Lemma parse_headers_sound : sound_step Impl.parse_headers.
Proof.
  unfold Impl.parse_headers.
  repeat step_tac.
  intros s Hok. split; [now apply reader_advanced_refl | discriminate].
Qed.

Lemma parse_headers_length : returns_in (fun len => 0 <= len < 2 ^ 16) Impl.parse_headers.
Proof.
  unfold Impl.parse_headers.
  repeat first [ apply returns_seq; intros ?
               | apply returns_throw
               | match goal with
                 | |- returns_in _ (if ?c then _ else _) => destruct c
                 end ].
  intros s len H. cbn in H. injection H as <-.
  unfold uint16_t, wrap. now apply Z.mod_pos_bound.
Qed.

(** Nothing in the argument parser depends on fuel. *)
Lemma bind_not_out_of_fuel {A B : Type} (c : outcome A) (k : A -> outcome B) :
  c <> OutOfFuel -> (forall a, k a <> OutOfFuel) -> bind c k <> OutOfFuel.
Proof. intros Hc Hk. destruct c; cbn; first [apply Hk | congruence]. Qed.

Lemma load_not_out_of_fuel (n : nat) (buf : list byte) :
  endian.load n buf <> OutOfFuel.
Proof. unfold endian.load. destruct (_ <? _)%nat; discriminate. Qed.

Lemma read_not_out_of_fuel (size : nat) (buf : list byte) (be : bool) :
  endian.read size buf be <> OutOfFuel.
Proof.
  unfold endian.read, endian.read8, endian.read16, endian.read32, endian.read64.
  destruct size as [|[|[|[|[|?]]]]];
    first [ apply load_not_out_of_fuel
          | apply bind_not_out_of_fuel;
            [apply load_not_out_of_fuel | discriminate] ].
Qed.

Lemma extract_not_out_of_fuel (size : nat) (buf : list byte) (be : bool) :
  endian.extract size buf be <> OutOfFuel.
Proof.
  unfold endian.extract.
  apply bind_not_out_of_fuel; [apply read_not_out_of_fuel | discriminate].
Qed.

Section ArgumentsFuel.
Context {FF : fmt.FloatFormat}.
Variable BigEndian : bool.

Lemma parseTyle_radix_not_out_of_fuel T R p :
  ArgParser.parseTyle_radix BigEndian T R p <> OutOfFuel.
Proof.
  unfold ArgParser.parseTyle_radix.
  apply bind_not_out_of_fuel; [apply extract_not_out_of_fuel | discriminate].
Qed.

Lemma parse_argument_not_out_of_fuel p :
  ArgParser.parse BigEndian p <> OutOfFuel.
Proof.
  unfold ArgParser.parse.
  apply bind_not_out_of_fuel; [apply read_not_out_of_fuel|]. intros type.
  unfold ArgParser.parseStr, ArgParser.parseUInt, ArgParser.parseSInt,
    ArgParser.parseFloat, ArgParser.parseBool, ArgParser.parseRaw,
    ArgParser.parseTyle.
  repeat match goal with
         | |- (if ?c then _ else _) <> _ => destruct c
         | |- match ?x with _ => _ end <> _ => destruct x
         | |- ArgParser.parseTyle_radix _ _ _ _ <> _ =>
             apply parseTyle_radix_not_out_of_fuel
         | |- bind _ _ <> _ =>
             apply bind_not_out_of_fuel; [apply read_not_out_of_fuel | intros ?]
         | |- _ => discriminate
         end.
Qed.

Lemma parse_args_not_out_of_fuel count :
  forall p, ArgParser.parse_args BigEndian count p <> OutOfFuel.
Proof.
  induction count as [|count IH]; intros p; [discriminate|].
  cbn [ArgParser.parse_args]. destruct count as [|count'].
  - apply parse_argument_not_out_of_fuel.
  - apply bind_not_out_of_fuel; [apply parse_argument_not_out_of_fuel|].
    intros p1. apply IH.
Qed.

Lemma run_not_out_of_fuel payload count :
  ArgParser.run BigEndian payload count <> OutOfFuel.
Proof.
  unfold ArgParser.run.
  apply bind_not_out_of_fuel; [apply parse_args_not_out_of_fuel | discriminate].
Qed.

End ArgumentsFuel.

#[local] Ltac step_tac2 :=
  first
    [ step_tac
    | apply step_lift;
      first [ apply extract_not_out_of_fuel
            | apply run_not_out_of_fuel
            | discriminate
            | unfold conformance.getCtrlReturnTypeName;
              match goal with |- (if ?c then _ else _) <> _ => destruct c end;
              discriminate ] ].

Lemma assembleMessage_sound {FF : fmt.FloatFormat} (payload : list byte) :
  sound_step (Impl.assembleMessage payload).
Proof.
  unfold Impl.assembleMessage, Impl.control_response_details.
  repeat step_tac2.
Qed.

Lemma parse_body_sound {FF : fmt.FloatFormat} : sound_step Impl.parse_body.
Proof.
  unfold Impl.parse_body.
  apply (step_seq_in (fun len => 0 <= len < 2 ^ 16));
    [apply parse_headers_sound | apply parse_headers_length |].
  intros len Hlen.
  apply step_seq; [apply step_reader_read; lia|].
  intros data. apply assembleMessage_sound.
Qed.

Lemma readData_progress (n : Z) (store : list byte -> Impl.t -> Impl.t)
      (s : Impl.pstate) :
  cursor_ok (Impl.p_reader s) -> 0 <= n < 2 ^ 63 ->
  match fst (Impl.readData n store s) with
  | Ret _ => fs.pos_ (Impl.p_reader (snd (Impl.readData n store s)))
             = fs.pos_ (Impl.p_reader s) + n
  | o => past_signature o = false
  end.
Proof.
  intros Hok Hn. unfold Impl.readData, Impl.reader_read.
  destruct (read_advances (Impl.p_reader s) n Hok Hn) as (_ & _ & Hret & Hplain).
  destruct (fs.read (Impl.p_reader s) n) as [[ptr | e | | | ] rd]; cbn in *;
    try reflexivity.
  - now apply (Hret ptr).
  - destruct e as [ | what [|] | ]; try reflexivity.
    exfalso. now apply (Hplain what).
Qed.

Lemma seq_readData_progress {B : Type} (n : Z)
      (store : list byte -> Impl.t -> Impl.t) (k : unit -> Impl.M B) :
  0 <= n < 2 ^ 63 ->
  (forall a, sound_step (k a)) ->
  forall s,
    cursor_ok (Impl.p_reader s) ->
    past_signature (fst (Impl.seq_ (Impl.readData n store) k s)) = true ->
    fs.pos_ (Impl.p_reader s) + n
    <= fs.pos_ (Impl.p_reader (snd (Impl.seq_ (Impl.readData n store) k s))).
Proof.
  intros Hn Hk s Hok. unfold Impl.seq_.
  pose proof (readData_progress n store s Hok Hn) as Hfirst.
  destruct (step_readData n store Hn s Hok) as [Hadv _].
  destruct (Impl.readData n store s) as [[u | e | | | ] s1]; cbn in *;
    try (intros H; congruence).
  intros _.
  destruct (Hk u s1 (reader_advanced_ok _ _ Hok Hadv)) as [Hadv' _].
  destruct Hadv' as (_ & _ & _ & _ & _ & Hpos). lia.
Qed.

Lemma parse_headers_progress (s : Impl.pstate) :
  cursor_ok (Impl.p_reader s) ->
  past_signature (fst (Impl.parse_headers s)) = true ->
  fs.pos_ (Impl.p_reader s) + 4
  <= fs.pos_ (Impl.p_reader (snd (Impl.parse_headers s))).
Proof.
  unfold Impl.parse_headers.
  apply seq_readData_progress; [lia|]. intros u.
  repeat step_tac.
  intros s' Hok. split; [now apply reader_advanced_refl | discriminate].
Qed.

Section Termination.
Context {FF : fmt.FloatFormat}.

Lemma seq_progress {A B : Type} (P : A -> Prop) (m : Impl.M A)
      (k : A -> Impl.M B) :
  sound_step m -> returns_in P m -> (forall a, P a -> sound_step (k a)) ->
  (forall s, cursor_ok (Impl.p_reader s) ->
             past_signature (fst (m s)) = true ->
             fs.pos_ (Impl.p_reader s) + 4 <= fs.pos_ (Impl.p_reader (snd (m s)))) ->
  forall s,
    cursor_ok (Impl.p_reader s) ->
    past_signature (fst (Impl.seq_ m k s)) = true ->
    fs.pos_ (Impl.p_reader s) + 4
    <= fs.pos_ (Impl.p_reader (snd (Impl.seq_ m k s))).
Proof.
  intros Hm HP Hk Hprog s Hok. unfold Impl.seq_.
  specialize (Hprog s Hok). specialize (HP s).
  destruct (Hm s Hok) as [Hadv _].
  destruct (m s) as [[a | e | | | ] s1]; cbn in *;
    try (intros H; now apply Hprog).
  intros _. specialize (Hprog eq_refl).
  destruct (Hk a (HP a eq_refl) s1 (reader_advanced_ok _ _ Hok Hadv))
    as [Hadv' _].
  destruct Hadv' as (_ & _ & _ & _ & _ & Hpos). lia.
Qed.

Lemma parse_body_progress (s : Impl.pstate) :
  cursor_ok (Impl.p_reader s) ->
  past_signature (fst (Impl.parse_body s)) = true ->
  fs.pos_ (Impl.p_reader s) + 4
  <= fs.pos_ (Impl.p_reader (snd (Impl.parse_body s))).
Proof.
  unfold Impl.parse_body.
  apply (seq_progress (fun len => 0 <= len < 2 ^ 16));
    [ apply parse_headers_sound | apply parse_headers_length
    | | apply parse_headers_progress ].
  intros len Hlen.
  apply step_seq; [apply step_reader_read; lia|].
  intros data. apply assembleMessage_sound.
Qed.

(** What the private [parse(reader)] does to the reader. *)
Lemma parse_reader_sound (reader : fs.reader) (self : Impl.t) :
  cursor_ok reader ->
  reader_advanced reader (snd (fst (Impl.parse_reader reader self))) /\
  fst (fst (Impl.parse_reader reader self)) <> OutOfFuel /\
  (past_signature (fst (fst (Impl.parse_reader reader self))) = true ->
   fs.pos_ reader + 4 <= fs.pos_ (snd (fst (Impl.parse_reader reader self)))).
Proof.
  intros Hok. unfold Impl.parse_reader.
  destruct (parse_body_sound (Impl.mk_pstate reader self 0) Hok) as [Hadv Hfuel].
  pose proof (parse_body_progress (Impl.mk_pstate reader self 0) Hok) as Hprog.
  destruct (Impl.parse_body (Impl.mk_pstate reader self 0)) as [o s].
  cbn in *. split; [exact Hadv | split; [exact Hfuel | exact Hprog]].
Qed.

Lemma same_file_of_advanced (r r' : fs.reader) :
  reader_advanced r r' -> same_file r r'.
Proof. unfold reader_advanced, same_file. tauto. Qed.

Lemma same_file_trans (a b c : fs.reader) :
  same_file a b -> same_file b c -> same_file a c.
Proof. unfold same_file. intuition congruence. Qed.

(** [Record::parse] ends within [len - pos + 1] attempts. *)
Lemma parse_ends {H : Type} (assertions : bool)
      (handler : option (Impl.t -> H -> H)) (fuel : nat) :
  forall (reader : fs.reader) (self : Impl.t) (h : H),
    cursor_ok reader ->
    fs.len_ reader - fs.pos_ reader < Z.of_nat fuel ->
    fst (fst (fst (Impl.parse assertions fuel handler reader self h)))
    <> OutOfFuel /\
    same_file reader
      (snd (fst (fst (Impl.parse assertions fuel handler reader self h)))) /\
    cursor_ok (snd (fst (fst (Impl.parse assertions fuel handler reader self h)))) /\
    (forall u,
        fst (fst (fst (Impl.parse assertions fuel handler reader self h))) = Ret u ->
        fs.pos_ reader + 4
        <= fs.pos_ (snd (fst (fst (Impl.parse assertions fuel handler reader self h))))).
Proof.
  induction fuel as [|fuel IH]; intros reader self h Hok Hfuel.
  { destruct Hok as [Hpos _]. lia. }
  cbn [Impl.parse].
  destruct (parse_reader_sound reader self Hok) as (Hadv & Hnofuel & Hprog).
  destruct (Impl.parse_reader reader self) as [[o reader1] self1].
  cbn [fst snd] in Hadv, Hnofuel, Hprog.
  pose proof (reader_advanced_ok _ _ Hok Hadv) as Hok1.
  pose proof (same_file_of_advanced _ _ Hadv) as Hsame1.
  assert (Hstop : forall (o' : outcome unit) (self' : Impl.t) (h' : H),
             o' <> OutOfFuel -> (forall u, o' <> Ret u) ->
             fst (fst (fst (o', reader1, self', h'))) <> OutOfFuel /\
             same_file reader (snd (fst (fst (o', reader1, self', h')))) /\
             cursor_ok (snd (fst (fst (o', reader1, self', h')))) /\
             (forall u,
                 fst (fst (fst (o', reader1, self', h'))) = Ret u ->
                 fs.pos_ reader + 4
                 <= fs.pos_ (snd (fst (fst (o', reader1, self', h')))))).
  { intros o' self' h' Hfuel' Hret'. cbn.
    split; [assumption|]. split; [assumption|]. split; [assumption|].
    intros u Hu. now apply Hret' in Hu. }
  destruct o as [u | e | | | ].
  - specialize (Hprog eq_refl).
    unfold fs.notify_success.
    set (r2 := if fs.first_valid_offset_ reader1 =? 0 then _ else _).
    assert (Hr2 : same_file reader r2 /\ cursor_ok r2 /\ fs.pos_ r2 = fs.pos_ reader1).
    { unfold r2. destruct (fs.first_valid_offset_ reader1 =? 0);
        repeat split; try apply Hsame1; try apply Hok1. }
    destruct Hr2 as (Hs2 & Hok2 & Hp2).
    destruct (fs.pos_ r2 =? fs.len_ r2); cbn;
      (split; [discriminate|]); (split; [exact Hs2|]); (split; [exact Hok2|]);
      intros; first [discriminate | lia].
  - destruct e as [ | what nested | ];
      try (apply Hstop; [discriminate | intros; discriminate]).
    assert (Hgo : forall (self2 : Impl.t) (h1 : H),
               let res :=
                 if nested then (Throw eof, reader1, self2, h1)
                 else
                   match fs.set_pos assertions reader1
                                    (size_t (fs.get_pos reader + 1)) with
                   | (Ret _, reader2) =>
                       Impl.parse assertions fuel handler reader2 self2 h1
                   | (o, reader2) => (o, reader2, self2, h1)
                   end in
               fst (fst (fst res)) <> OutOfFuel /\
               same_file reader (snd (fst (fst res))) /\
               cursor_ok (snd (fst (fst res))) /\
               (forall u, fst (fst (fst res)) = Ret u ->
                          fs.pos_ reader + 4 <= fs.pos_ (snd (fst (fst res))))).
    { intros self2 h1. destruct nested.
      - apply Hstop; [discriminate | intros; discriminate].
      - specialize (Hprog eq_refl).
        unfold fs.set_pos, fs.get_pos.
        destruct Hok as [Hpos Hsmall].
        destruct Hadv as (Hi & Hd & Hl & Hc & Hf & Hp).
        rewrite size_t_small by lia.
        destruct (Z.ltb_spec (fs.pos_ reader + 1) (fs.len_ reader1)) as [_|]; [|lia].
        cbn [negb]. rewrite andb_false_r.
        destruct (IH (fs.with_pos (fs.pos_ reader + 1) reader1) self2 h1)
          as (Hn' & Hs' & Hok' & Hret').
        + unfold cursor_ok. cbn. lia.
        + cbn. lia.
        + cbv zeta. split; [assumption|]. split.
          * eapply same_file_trans; [exact Hsame1|].
            destruct Hs' as (? & ? & ? & ?). cbn in *.
            unfold same_file. repeat split; assumption.
          * split; [assumption|].
            intros u Hu. specialize (Hret' u Hu). cbn in Hret'. lia. }
    destruct handler as [handler|]; apply Hgo.
  - apply Hstop; [discriminate | intros; discriminate].
  - apply Hstop; [discriminate | intros; discriminate].
  - exfalso. now apply Hnofuel.
Qed.

End Termination.

Section WorkerEnds.
Context {FF : fmt.FloatFormat}.

Lemma execute_loop_ends (assertions : bool) (holder : option exn) (fuel : nat) :
  forall (inner : nat) (tk : task.t),
    cursor_ok (task.reader_ tk) ->
    fs.len_ (task.reader_ tk) - fs.pos_ (task.reader_ tk) < Z.of_nat fuel ->
    fs.len_ (task.reader_ tk) - fs.pos_ (task.reader_ tk) < Z.of_nat inner ->
    fst (fst (task.execute_loop assertions fuel inner holder tk)) <> OutOfFuel /\
    same_file (task.reader_ tk)
      (task.reader_ (snd (fst (task.execute_loop assertions fuel inner holder tk)))) /\
    cursor_ok
      (task.reader_ (snd (fst (task.execute_loop assertions fuel inner holder tk)))).
Proof.
  induction fuel as [|fuel IH]; intros inner tk Hok Hfuel Hinner.
  { destruct Hok as [Hpos _]. lia. }
  cbn [task.execute_loop].
  destruct (parse_ends assertions (Some task.parse_exception_handler) inner
              (task.reader_ tk) Impl.default (task.records_ tk) Hok Hinner)
    as (Hnofuel & Hsame & Hok' & Hret).
  destruct (Impl.parse assertions inner (Some task.parse_exception_handler)
                       (task.reader_ tk) Impl.default (task.records_ tk))
    as [[[o reader] record] records].
  cbn [fst snd] in Hnofuel, Hsame, Hok', Hret.
  destruct o as [u | e | | | ].
  - specialize (Hret u eq_refl).
    destruct (0 <? fs.get_overrun reader);
      [cbn; split; [discriminate | split; assumption]|].
    destruct holder; [cbn; split; [discriminate | split; assumption]|].
    destruct (IH inner (task.mk reader (records ++ [record])))
      as (Hn2 & Hs2 & Hok2).
    + exact Hok'.
    + cbn. destruct Hsame as (_ & _ & Hl & _). rewrite Hl. lia.
    + cbn. destruct Hsame as (_ & _ & Hl & _). rewrite Hl. lia.
    + split; [assumption|]. split; [|assumption].
      eapply same_file_trans; [exact Hsame | exact Hs2].
  - destruct e; cbn; (split; [discriminate | split; assumption]).
  - cbn. split; [discriminate | split; assumption].
  - cbn. split; [discriminate | split; assumption].
  - exfalso. now apply Hnofuel.
Qed.

Lemma execute_ends (assertions : bool) (holder : option exn) (tk : task.t) :
  cursor_ok (task.reader_ tk) ->
  fst (fst (task.execute assertions holder tk)) <> OutOfFuel /\
  same_file (task.reader_ tk)
    (task.reader_ (snd (fst (task.execute assertions holder tk)))) /\
  cursor_ok (task.reader_ (snd (fst (task.execute assertions holder tk)))).
Proof.
  intros Hok. unfold task.execute, task.fuel_for.
  destruct Hok as [Hpos Hsmall].
  apply execute_loop_ends; [split; assumption | lia | lia].
Qed.

Lemma run_tasks_end (assertions : bool) (tasks : list task.t) :
  forall holder,
    Forall (fun tk => cursor_ok (task.reader_ tk)) tasks ->
    fst (supervisor.run_tasks assertions holder tasks) <> OutOfFuel.
Proof.
  induction tasks as [|tk rest IH]; intros holder Hall; [discriminate|].
  inversion Hall as [|? ? Htk Hrest]; subst.
  cbn [supervisor.run_tasks].
  destruct (execute_ends assertions holder tk Htk) as (Hnofuel & _).
  destruct (task.execute assertions holder tk) as [[o tk1] holder1].
  cbn [fst] in Hnofuel.
  destruct o as [u | e | | | ]; try discriminate; [|now exfalso; apply Hnofuel].
  specialize (IH holder1 Hrest).
  destruct (supervisor.run_tasks assertions holder1 rest) as [o2 holder2].
  destruct o2; cbn in *; congruence.
Qed.

Lemma merge_not_out_of_fuel (assertions : bool) (threads_num : Z)
      (tasks : list task.t) (results : list (list Record)) :
  supervisor.merge assertions threads_num tasks results <> OutOfFuel.
Proof.
  unfold supervisor.merge. destruct results; [discriminate|].
  rewrite merge_loop_spec. destruct (assertions && _); discriminate.
Qed.

Lemma split_cursors_ok (type : fs.reader_type) (data : list byte) (n : Z)
      (readers : list fs.reader) :
  Z.of_nat (List.length data) < 2 ^ 63 ->
  0 <= n ->
  fs.split (fs.factory type data) n = Ret readers ->
  Forall (fun tk => cursor_ok (task.reader_ tk)) (map task.make readers).
Proof.
  intros Hsmall Hn. unfold fs.split. cbn [fs.factory fs.len_].
  destruct (Z.of_nat (List.length data) =? 0); [discriminate|].
  intros H. injection H as <-.
  rewrite Forall_forall. intros tk Htk.
  apply in_map_iff in Htk. destruct Htk as (r & <- & Hr).
  apply in_map_iff in Hr. destruct Hr as (k & <- & Hk).
  apply in_seq in Hk.
  set (len := Z.of_nat (List.length data)) in *.
  assert (Hn1 : 1 <= n) by lia.
  assert (0 <= len / n) by (apply Z.div_pos; lia).
  assert (n * (len / n) <= len) by (apply Z.mul_div_le; lia).
  unfold cursor_ok. cbn. fold len.
  rewrite size_t_small by nia. nia.
Qed.

End WorkerEnds.

(** X21: the private [parse(reader)] on a cursor inside its file never
    changes the kind, the bytes, the length, the fence or the first valid
    offset of the reader, never moves the cursor back and leaves it inside
    the file; when it returns a record or throws a parse failure that is not
    the end of the file, the cursor is at least four bytes further. *)
Theorem parse_reader_moves_cursor_forward_inside_file :
  forall (FF : fmt.FloatFormat) (reader : fs.reader) (self : Impl.t),
    cursor_ok reader ->
    reader_advanced reader (snd (fst (Impl.parse_reader reader self))) /\
    (past_signature (fst (fst (Impl.parse_reader reader self))) = true ->
     fs.pos_ reader + 4 <= fs.pos_ (snd (fst (Impl.parse_reader reader self)))).
Proof.
  intros FF reader self Hok.
  destruct (parse_reader_sound reader self Hok) as (Hadv & _ & Hprog).
  split; assumption.
Qed.

(** X22: a worker always ends.  On a cursor inside its file, with either
    reader and on any bytes, the two nested loops of [task::execute] and
    [Record::parse] finish within the fuel the embedding gives them (one
    more than the length of the file), and they leave the worker with a
    cursor inside the same file. *)
Theorem worker_ends_within_its_fuel :
  forall (FF : fmt.FloatFormat) (assertions : bool) (holder : option exn)
         (tk : task.t),
    cursor_ok (task.reader_ tk) ->
    fst (fst (task.execute assertions holder tk)) <> OutOfFuel /\
    same_file (task.reader_ tk)
      (task.reader_ (snd (fst (task.execute assertions holder tk)))) /\
    cursor_ok (task.reader_ (snd (fst (task.execute assertions holder tk)))).
Proof. intros FF assertions holder tk. apply execute_ends. Qed.

(** X23: parsing a file always ends, whatever its bytes, the reader and the
    number of cores: the supervisor never runs out of the fuel of the
    embedding. *)
Theorem parse_file_ends :
  forall (FF : fmt.FloatFormat) (assertions : bool) (type : fs.reader_type)
         (data : list byte) (cores_num : Z),
    Z.of_nat (List.length data) < 2 ^ 63 ->
    supervisor.parse_file assertions type data cores_num <> OutOfFuel.
Proof.
  intros FF assertions type data cores Hsmall.
  unfold supervisor.parse_file, supervisor.make.
  assert (Hn : 0 <= uint8_t cores) by (unfold uint8_t, wrap; apply Z.mod_pos_bound; lia).
  pose proof (split_cursors_ok type data (uint8_t cores)) as Hsplit.
  destruct (fs.split (fs.factory type data) (uint8_t cores)) as [readers|e| | |] eqn:E;
    cbn [bind]; try discriminate.
  2:{ destruct e; discriminate. }
  specialize (Hsplit readers Hsmall Hn eq_refl).
  unfold supervisor.execute. cbn [supervisor.tasks_ supervisor.threads_num_].
  pose proof (run_tasks_end assertions (map task.make readers) None Hsplit) as Hrun.
  destruct (supervisor.run_tasks assertions None (map task.make readers))
    as [[tasks | e | | | ] holder]; cbn [fst] in Hrun;
    try discriminate; try (destruct e; discriminate); [|now exfalso; apply Hrun].
  pose proof (merge_not_out_of_fuel assertions (uint8_t cores) tasks
                (map task.result tasks)) as Hmerge.
  destruct (supervisor.merge assertions (uint8_t cores) tasks (map task.result tasks))
    as [records | e | | | ]; cbn [bind]; try discriminate;
    try (destruct e; discriminate); try congruence.
  all: try (destruct holder as [e|]; [destruct e|]; discriminate).
  unfold fs.split in E. destruct (fs.len_ _ =? 0); discriminate.
Qed.

Lemma parse_reader_moves_cursor_forward_inside_file_witness :
  reader_advanced (fs.factory fs.file_precache samples.verbose_empty_record)
                  (snd (fst samples.verbose_empty_parse)) /\
  (past_signature (fst (fst samples.verbose_empty_parse)) = true ->
   fs.pos_ (fs.factory fs.file_precache samples.verbose_empty_record) + 4
   <= fs.pos_ (snd (fst samples.verbose_empty_parse))).
Proof.
  apply (parse_reader_moves_cursor_forward_inside_file
           samples.bit_patterns
           (fs.factory fs.file_precache samples.verbose_empty_record)
           Impl.default).
  unfold cursor_ok. cbn. lia.
Defined.

Lemma worker_ends_within_its_fuel_witness :
  fst (fst (task.execute (FF := samples.bit_patterns) true None
                         (task.make (fs.factory fs.file_precache
                                       samples.five_bytes))))
  <> OutOfFuel.
Proof.
  apply (worker_ends_within_its_fuel
           samples.bit_patterns true None
           (task.make (fs.factory fs.file_precache samples.five_bytes))).
  unfold cursor_ok. cbn. lia.
Defined.

Lemma parse_file_ends_witness :
  supervisor.parse_file (FF := samples.bit_patterns) true fs.file_map
                        samples.five_bytes 2
  <> OutOfFuel.
Proof.
  apply (parse_file_ends samples.bit_patterns true fs.file_map
                         samples.five_bytes 2).
  cbn. lia.
Defined.

(* ================================================================== *)
(** * The span of a record *)

Lemma bswap16_range (v : Z) : 0 <= endian.bswap16 v < 2 ^ 16.
Proof.
  unfold endian.bswap16.
  assert (Ha : 0 <= Z.land (Z.shiftr v 8) 255 < 256).
  { change 255 with (Z.ones 8). rewrite Z.land_ones by lia.
    apply Z.mod_pos_bound. lia. }
  assert (Hb : Z.land (Z.shiftl v 8) 65280 = (v mod 256) * 256).
  { change 65280 with (Z.shiftl 255 8). rewrite mask_field by lia.
    rewrite Z.shiftl_mul_pow2 by lia.
    rewrite Z.div_mul by lia. reflexivity. }
  rewrite Hb.
  assert (Hs : Z.lor (Z.land (Z.shiftr v 8) 255) (v mod 256 * 256)
               = Z.land (Z.shiftr v 8) 255 + v mod 256 * 256).
  { apply (lor_sum _ _ (v mod 256) 256 8); [lia | reflexivity | exact Ha | reflexivity]. }
  rewrite Hs.
  pose proof (Z.mod_pos_bound v 256 ltac:(lia)). lia.
Qed.

Lemma header_size_range (htyp : Z) : 4 <= header_size htyp <= 26.
Proof.
  unfold header_size, conformance.sizeof_DltStandardHeader,
    conformance.sizeof_DltExtendedHeader.
  destruct (conformance.extractHtyp htyp conformance.WEID),
           (conformance.extractHtyp htyp conformance.WSID),
           (conformance.extractHtyp htyp conformance.WTMS),
           (conformance.extractHtyp htyp conformance.UEH); lia.
Qed.

Section Framing.
Import Impl.

Lemma seq_ret_inv {A B : Type} (m : M A) (k : A -> M B) s b s' :
  seq_ m k s = (Ret b, s') ->
  exists a s1, m s = (Ret a, s1) /\ k a s1 = (Ret b, s').
Proof.
  unfold seq_. destruct (m s) as [[a| | | |] s1]; intros H;
    try discriminate.
  exists a, s1. split; [reflexivity | exact H].
Qed.

Lemma readData_ret (n : Z) (store : list byte -> Impl.t -> Impl.t) s u s' :
  cursor_ok (p_reader s) -> 0 <= n < 2 ^ 63 ->
  readData n store s = (Ret u, s') ->
  cursor_ok (p_reader s') /\
  fs.pos_ (p_reader s') = fs.pos_ (p_reader s) + n /\
  p_len s' = uint16_t (p_len s + n) /\
  exists b, p_self s' = store b (p_self s).
Proof.
  intros Hok Hn. unfold readData, reader_read.
  destruct (read_advances (p_reader s) n Hok Hn) as (Hadv & _ & Hpos & _).
  destruct (fs.read (p_reader s) n) as [[ptr| | | |] rd] eqn:E;
    intros H; try discriminate.
  injection H as _ <-. cbn in *.
  split; [| split; [| split]].
  - apply (reader_advanced_ok _ _ Hok Hadv).
  - apply (Hpos ptr). reflexivity.
  - reflexivity.
  - eexists. reflexivity.
Qed.

Lemma when_readData_ret (c : bool) (n : Z)
      (store : list byte -> Impl.t -> Impl.t) s u s' :
  (forall b r, standardHeader_ (store b r) = standardHeader_ r) ->
  cursor_ok (p_reader s) -> 0 <= n < 2 ^ 63 ->
  when c (readData n store) s = (Ret u, s') ->
  cursor_ok (p_reader s') /\
  fs.pos_ (p_reader s') = fs.pos_ (p_reader s) + (if c then n else 0) /\
  p_len s' = (if c then uint16_t (p_len s + n) else p_len s) /\
  standardHeader_ (p_self s') = standardHeader_ (p_self s).
Proof.
  intros Hstore Hok Hn. destruct c; cbn.
  - intros H.
    destruct (readData_ret _ _ _ _ _ Hok Hn H) as (? & ? & ? & b & Hb).
    rewrite Hb, Hstore.
    split; [assumption | split; [assumption | split; [assumption | reflexivity]]].
  - unfold ret. intros H. injection H as _ <-.
    rewrite Z.add_0_r.
    split; [assumption | split; [reflexivity | split; reflexivity]].
Qed.

Lemma when_extended_ret (c : bool) s u s' :
  cursor_ok (p_reader s) ->
  when c (_ <~ readData conformance.sizeof_DltExtendedHeader
                        store_extendedHeader ;;
          modify store_msin_fields) s = (Ret u, s') ->
  cursor_ok (p_reader s') /\
  fs.pos_ (p_reader s')
  = fs.pos_ (p_reader s)
    + (if c then conformance.sizeof_DltExtendedHeader else 0) /\
  p_len s' = (if c
              then uint16_t (p_len s + conformance.sizeof_DltExtendedHeader)
              else p_len s) /\
  standardHeader_ (p_self s') = standardHeader_ (p_self s).
Proof.
  intros Hok. destruct c; cbn.
  - intros H. apply seq_ret_inv in H. destruct H as (a & s1 & H1 & H).
    apply readData_ret in H1;
      [| exact Hok | unfold conformance.sizeof_DltExtendedHeader; lia].
    destruct H1 as (Hok1 & Hpos1 & Hlen1 & b & Hb).
    unfold modify in H. injection H as _ <-. cbn.
    split; [exact Hok1 | split; [exact Hpos1 | split; [exact Hlen1 |]]].
    rewrite Hb. unfold store_msin_fields.
    destruct (negb _); reflexivity.
  - unfold ret. intros H. injection H as _ <-.
    rewrite Z.add_0_r.
    split; [assumption | split; [reflexivity | split; reflexivity]].
Qed.

Lemma parse_headers_span s body s' :
  cursor_ok (p_reader s) -> p_len s = 0 ->
  parse_headers s = (Ret body, s') ->
  cursor_ok (p_reader s') /\
  fs.pos_ (p_reader s')
  = fs.pos_ (p_reader s) + conformance.sizeof_DltStorageHeader
    + header_size (conformance.htyp (standardHeader_ (p_self s'))) /\
  body = (declared_length (p_self s')
          - header_size (conformance.htyp (standardHeader_ (p_self s'))))
         mod 2 ^ 16.
Proof.
  intros Hok Hlen H. unfold parse_headers in H.
  apply seq_ret_inv in H. destruct H as (u1 & s1 & H1 & H).
  apply readData_ret in H1; [| exact Hok | lia].
  destruct H1 as (Hok1 & Hpos1 & Hlen1 & _).
  apply seq_ret_inv in H. destruct H as (self1 & s1' & Hs1 & H).
  unfold get_self in Hs1. injection Hs1 as <- <-.
  destruct (negb (signature_ok _)); [discriminate |].
  apply seq_ret_inv in H. destruct H as (u2 & s2 & H2 & H).
  apply readData_ret in H2; [| exact Hok1 | lia].
  destruct H2 as (Hok2 & Hpos2 & Hlen2 & _).
  apply seq_ret_inv in H. destruct H as (u3 & s3 & H3 & H).
  apply readData_ret in H3; [| exact Hok2 | lia].
  destruct H3 as (Hok3 & Hpos3 & Hlen3 & _).
  apply seq_ret_inv in H. destruct H as (u4 & s4 & H4 & H).
  apply readData_ret in H4; [| exact Hok3 | lia].
  destruct H4 as (Hok4 & Hpos4 & Hlen4 & _).
  apply seq_ret_inv in H. destruct H as (u5 & s5 & H5 & H).
  apply readData_ret in H5;
    [| exact Hok4 | unfold conformance.sizeof_DltStandardHeader; lia].
  destruct H5 as (Hok5 & Hpos5 & Hlen5 & _).
  apply seq_ret_inv in H. destruct H as (self5 & s5' & Hs5 & H).
  unfold get_self in Hs5. injection Hs5 as <- <-.
  apply seq_ret_inv in H. destruct H as (u6 & s6 & H6 & H).
  unfold modify in H6. injection H6 as _ <-. cbn [p_reader p_self p_len] in H.
  apply seq_ret_inv in H. destruct H as (u7 & s7 & H7 & H).
  apply when_readData_ret in H7; [| reflexivity | exact Hok5 | lia].
  cbn [p_reader p_self p_len] in H7.
  destruct H7 as (Hok7 & Hpos7 & Hlen7 & Hstd7).
  apply seq_ret_inv in H. destruct H as (u8 & s8 & H8 & H).
  apply when_readData_ret in H8; [| reflexivity | exact Hok7 | lia].
  destruct H8 as (Hok8 & Hpos8 & Hlen8 & Hstd8).
  apply seq_ret_inv in H. destruct H as (u9 & s9 & H9 & H).
  apply when_readData_ret in H9; [| reflexivity | exact Hok8 | lia].
  destruct H9 as (Hok9 & Hpos9 & Hlen9 & Hstd9).
  apply seq_ret_inv in H. destruct H as (u10 & s10 & H10 & H).
  apply when_extended_ret in H10; [| exact Hok9].
  destruct H10 as (Hok10 & Hpos10 & Hlen10 & Hstd10).
  injection H as <- <-.
  assert (Hstd : standardHeader_ (p_self s10) = standardHeader_ (p_self s5)).
  { rewrite Hstd10, Hstd9, Hstd8, Hstd7. reflexivity. }
  unfold declared_length. rewrite Hstd.
  set (h := conformance.htyp (standardHeader_ (p_self s5))) in *.
  set (d := endian.read16_swap _ true).
  split; [exact Hok10 |].
  unfold header_size, conformance.sizeof_DltStandardHeader,
    conformance.sizeof_DltExtendedHeader,
    conformance.sizeof_DltStorageHeader in *.
  unfold uint16_t, size_t, wrap in *.
  rewrite Hlen in *.
  destruct (conformance.extractHtyp h conformance.WEID),
           (conformance.extractHtyp h conformance.WSID),
           (conformance.extractHtyp h conformance.WTMS),
           (conformance.extractHtyp h conformance.UEH);
    (split; [lia |]);
    rewrite Hlen10, ?Hlen9, ?Hlen8, ?Hlen7, Hlen5, Hlen4, Hlen3, Hlen2, Hlen1;
    cbn -[Z.modulo Z.pow d];
    Z.div_mod_to_equations; lia.
Qed.

Lemma leaves_ret {A : Type} (a : A) : leaves_reader (ret a).
Proof. intro s. reflexivity. Qed.

Lemma leaves_throw {A : Type} (e : exn) : leaves_reader (@throw A e).
Proof. intro s. reflexivity. Qed.

Lemma leaves_lift {A : Type} (o : outcome A) : leaves_reader (lift o).
Proof. intro s. reflexivity. Qed.

Lemma leaves_get_self : leaves_reader get_self.
Proof. intro s. reflexivity. Qed.

Lemma leaves_modify (f : Impl.t -> Impl.t) : leaves_reader (modify f).
Proof. intro s. reflexivity. Qed.

Lemma leaves_seq {A B : Type} (m : M A) (k : A -> M B) :
  leaves_reader m -> (forall a, leaves_reader (k a)) ->
  leaves_reader (seq_ m k).
Proof.
  intros Hm Hk s. unfold seq_. specialize (Hm s).
  destruct (m s) as [[a| | | |] s1]; cbn in *; try exact Hm.
  rewrite Hk. exact Hm.
Qed.

End Framing.

#[local] Ltac leaves_step :=
  first
    [ apply leaves_ret | apply leaves_throw | apply leaves_lift
    | apply leaves_get_self | apply leaves_modify
    | apply leaves_seq; [ | intros ? ]
    | match goal with
      | |- leaves_reader (if ?c then _ else _) => destruct c
      | |- leaves_reader (match ?x with _ => _ end) => destruct x
      end ].

Lemma assembleMessage_leaves_reader {FF : fmt.FloatFormat} (payload : list byte) :
  leaves_reader (Impl.assembleMessage payload).
Proof.
  unfold Impl.assembleMessage, Impl.control_response_details.
  repeat leaves_step.
Qed.

Lemma assembleMessage_keeps_standardHeader {FF : fmt.FloatFormat}
      (payload : list byte) :
  keeps Impl.standardHeader_ (Impl.assembleMessage payload).
Proof.
  unfold Impl.assembleMessage, Impl.control_response_details.
  repeat keeps_step.
Qed.

Lemma parse_body_span {FF : fmt.FloatFormat} s u s' :
  cursor_ok (Impl.p_reader s) -> Impl.p_len s = 0 ->
  Impl.parse_body s = (Ret u, s') ->
  fs.pos_ (Impl.p_reader s')
  = fs.pos_ (Impl.p_reader s) + conformance.sizeof_DltStorageHeader
    + header_size (conformance.htyp (Impl.standardHeader_ (Impl.p_self s')))
    + (declared_length (Impl.p_self s')
       - header_size (conformance.htyp (Impl.standardHeader_ (Impl.p_self s'))))
      mod 2 ^ 16.
Proof.
  intros Hok Hlen H. unfold Impl.parse_body in H.
  apply seq_ret_inv in H. destruct H as (body & s1 & H1 & H).
  apply parse_headers_span in H1; [| exact Hok | exact Hlen].
  destruct H1 as (Hok1 & Hpos1 & Hbody).
  apply seq_ret_inv in H. destruct H as (data & s2 & H2 & H).
  assert (Hb : 0 <= body < 2 ^ 63).
  { rewrite Hbody.
    pose proof (Z.mod_pos_bound
                  (declared_length (Impl.p_self s1)
                   - header_size (conformance.htyp
                                    (Impl.standardHeader_ (Impl.p_self s1))))
                  (2 ^ 16) ltac:(lia)).
    lia. }
  destruct (read_advances (Impl.p_reader s1) body Hok1 Hb) as (_ & _ & Hpos & _).
  unfold Impl.reader_read in H2.
  destruct (fs.read (Impl.p_reader s1) body) as [[ptr| | | |] rd] eqn:E;
    try discriminate.
  injection H2 as _ <-.
  pose proof (assembleMessage_leaves_reader data
                (Impl.mk_pstate rd (Impl.p_self s1) (Impl.p_len s1))) as Hrd.
  pose proof (assembleMessage_keeps_standardHeader data
                (Impl.mk_pstate rd (Impl.p_self s1) (Impl.p_len s1))) as Hstd.
  rewrite H in Hrd, Hstd. cbn in Hrd, Hstd.
  unfold declared_length in *.
  rewrite Hrd, Hstd. cbn in Hpos.
  rewrite (Hpos ptr eq_refl), Hpos1, Hbody. reflexivity.
Qed.

(** X24: a record spans what its header declares.  When the private
    [parse(reader)] returns a record from a cursor inside its file, the
    cursor has moved by the 16 bytes of the storage header, the bytes of the
    headers that [htyp] announces and the 16-bit difference between the
    declared length and these headers; when the declared length covers the
    headers this is the storage header plus the declared length, whatever
    the payload holds. *)
Theorem record_spans_its_declared_length :
  forall (FF : fmt.FloatFormat) (reader : fs.reader) (self : Impl.t),
    cursor_ok reader ->
    fst (fst (Impl.parse_reader reader self)) = Ret tt ->
    let reader' := snd (fst (Impl.parse_reader reader self)) in
    let record := snd (Impl.parse_reader reader self) in
    let headers :=
      header_size (conformance.htyp (Impl.standardHeader_ record)) in
    0 <= declared_length record < 2 ^ 16 /\
    fs.pos_ reader'
    = fs.pos_ reader + conformance.sizeof_DltStorageHeader + headers
      + (declared_length record - headers) mod 2 ^ 16 /\
    (headers <= declared_length record ->
     fs.pos_ reader'
     = fs.pos_ reader + conformance.sizeof_DltStorageHeader
       + declared_length record).
Proof.
  intros FF reader self Hok Hret reader' record headers.
  assert (Hd : 0 <= declared_length record < 2 ^ 16).
  { unfold declared_length, endian.read16_swap. cbn [negb].
    apply bswap16_range. }
  assert (Hspan : fs.pos_ reader'
                  = fs.pos_ reader + conformance.sizeof_DltStorageHeader
                    + headers + (declared_length record - headers) mod 2 ^ 16).
  { subst reader' record headers. unfold Impl.parse_reader in *.
    destruct (Impl.parse_body (Impl.mk_pstate reader self 0))
      as [o s'] eqn:E.
    cbn in Hret. subst o. cbn.
    apply (parse_body_span (Impl.mk_pstate reader self 0) tt s' Hok eq_refl E). }
  split; [exact Hd | split; [exact Hspan |]].
  intros Hle. rewrite Hspan.
  pose proof (header_size_range
                (conformance.htyp (Impl.standardHeader_ record))) as Hh.
  fold headers in Hh.
  rewrite Z.mod_small by lia. lia.
Qed.


Lemma record_spans_its_declared_length_witness :
  fs.pos_ (snd (fst samples.verbose_empty_parse))
  = fs.pos_ (fs.factory fs.file_precache samples.verbose_empty_record)
    + conformance.sizeof_DltStorageHeader
    + declared_length (snd samples.verbose_empty_parse).
Proof.
  refine (proj2 (proj2 (record_spans_its_declared_length
                          samples.bit_patterns
                          (fs.factory fs.file_precache
                                      samples.verbose_empty_record)
                          Impl.default _ _)) _).
  - unfold cursor_ok. cbn. lia.
  - vm_compute. reflexivity.
  - vm_compute. discriminate.
Defined.

(* ================================================================== *)
(** * What escapes *)

Lemma bind_no_bad_access {A B : Type} (c : outcome A) (k : A -> outcome B) :
  no_bad_access c -> (forall a, no_bad_access (k a)) -> no_bad_access (bind c k).
Proof.
  unfold no_bad_access. intros Hc Hk.
  destruct c; cbn; first [apply Hk | congruence].
Qed.

Lemma load_no_bad_access (n : nat) (buf : list byte) :
  no_bad_access (endian.load n buf).
Proof.
  unfold no_bad_access, endian.load. destruct (_ <? _)%nat; discriminate.
Qed.

Lemma read_no_bad_access (size : nat) (buf : list byte) (be : bool) :
  no_bad_access (endian.read size buf be).
Proof.
  unfold endian.read, endian.read8, endian.read16, endian.read32, endian.read64.
  destruct size as [|[|[|[|[|?]]]]];
    first [ apply load_no_bad_access
          | apply bind_no_bad_access;
            [apply load_no_bad_access | discriminate]
          | discriminate ].
Qed.

Lemma extract_no_bad_access (size : nat) (buf : list byte) (be : bool) :
  no_bad_access (endian.extract size buf be).
Proof.
  unfold endian.extract.
  apply bind_no_bad_access; [apply read_no_bad_access | discriminate].
Qed.

Section ArgumentsEscape.
Context {FF : fmt.FloatFormat}.
Variable BigEndian : bool.

Lemma parseTyle_radix_no_bad_access T R p :
  no_bad_access (ArgParser.parseTyle_radix BigEndian T R p).
Proof.
  unfold ArgParser.parseTyle_radix.
  apply bind_no_bad_access; [apply extract_no_bad_access | discriminate].
Qed.

Lemma parse_argument_no_bad_access p :
  no_bad_access (ArgParser.parse BigEndian p).
Proof.
  unfold ArgParser.parse.
  apply bind_no_bad_access; [apply read_no_bad_access|]. intros type.
  unfold ArgParser.parseStr, ArgParser.parseUInt, ArgParser.parseSInt,
    ArgParser.parseFloat, ArgParser.parseBool, ArgParser.parseRaw,
    ArgParser.parseTyle.
  repeat match goal with
         | |- no_bad_access (if ?c then _ else _) => destruct c
         | |- no_bad_access (match ?x with _ => _ end) => destruct x
         | |- no_bad_access (ArgParser.parseTyle_radix _ _ _ _) =>
             apply parseTyle_radix_no_bad_access
         | |- no_bad_access (bind _ _) =>
             apply bind_no_bad_access; [apply read_no_bad_access | intros ?]
         | |- _ => discriminate
         end.
Qed.

Lemma parse_args_no_bad_access count :
  forall p, no_bad_access (ArgParser.parse_args BigEndian count p).
Proof.
  induction count as [|count IH]; intros p; [discriminate|].
  cbn [ArgParser.parse_args]. destruct count as [|count'].
  - apply parse_argument_no_bad_access.
  - apply bind_no_bad_access; [apply parse_argument_no_bad_access|].
    intros p1. apply IH.
Qed.

Lemma run_no_bad_access payload count :
  no_bad_access (ArgParser.run BigEndian payload count).
Proof.
  unfold ArgParser.run.
  apply bind_no_bad_access; [apply parse_args_no_bad_access | discriminate].
Qed.

End ArgumentsEscape.

Section Escape.
Import Impl.

Lemma escape_ret {A : Type} (a : A) : step_no_bad_access (ret a).
Proof. intros s. discriminate. Qed.

Lemma escape_throw {A : Type} (e : exn) :
  e <> bad_optional_access -> step_no_bad_access (@throw A e).
Proof. intros He s. unfold throw, no_bad_access. cbn. congruence. Qed.

Lemma escape_lift {A : Type} (o : outcome A) :
  no_bad_access o -> step_no_bad_access (lift o).
Proof. intros Ho s. exact Ho. Qed.

Lemma escape_get_self : step_no_bad_access get_self.
Proof. intros s. discriminate. Qed.

Lemma escape_modify (f : Impl.t -> Impl.t) : step_no_bad_access (modify f).
Proof. intros s. discriminate. Qed.

Lemma read_no_bad_access_of_reader (r : fs.reader) (n : Z) :
  no_bad_access (fst (fs.read r n)).
Proof.
  unfold fs.read, fs.file_precache_read, fs.file_map_read.
  destruct (fs.impl r); destruct (_ <? _); discriminate.
Qed.

Lemma escape_reader_read (n : Z) : step_no_bad_access (reader_read n).
Proof.
  intros s. unfold reader_read.
  pose proof (read_no_bad_access_of_reader (p_reader s) n) as H.
  unfold no_bad_access in *.
  destruct (fs.read (p_reader s) n) as [[ptr | e | | | ] rd]; cbn in *;
    congruence.
Qed.

Lemma escape_readData (n : Z) (store : list byte -> Impl.t -> Impl.t) :
  step_no_bad_access (readData n store).
Proof.
  intros s. unfold readData.
  pose proof (escape_reader_read n s) as H. unfold no_bad_access in *.
  destruct (reader_read n s) as [[data | e | | | ] s1]; cbn in *; congruence.
Qed.

Lemma escape_seq {A B : Type} (m : M A) (k : A -> M B) :
  step_no_bad_access m -> (forall a, step_no_bad_access (k a)) ->
  step_no_bad_access (seq_ m k).
Proof.
  intros Hm Hk s. unfold seq_. specialize (Hm s). unfold no_bad_access in *.
  destruct (m s) as [[a | e | | | ] s1]; cbn in *;
    first [apply Hk | congruence].
Qed.

Lemma escape_when (c : bool) (m : M unit) :
  step_no_bad_access m -> step_no_bad_access (when c m).
Proof. intros Hm. destruct c; [assumption | apply escape_ret]. Qed.

End Escape.

#[local] Ltac escape_tac :=
  first
    [ apply escape_ret | apply escape_throw; discriminate
    | apply escape_get_self
    | apply escape_modify | apply escape_when
    | apply escape_reader_read
    | apply escape_readData
    | apply escape_seq; [ | intros ? ]
    | apply escape_lift;
      first [ apply extract_no_bad_access
            | apply run_no_bad_access
            | discriminate
            | unfold conformance.getCtrlReturnTypeName;
              match goal with
              | |- no_bad_access (if ?c then _ else _) => destruct c
              end;
              discriminate ]
    | match goal with
      | |- step_no_bad_access (if ?c then _ else _) => destruct c
      | |- step_no_bad_access (match ?x with _ => _ end) => destruct x
      end ].

Lemma parse_body_no_bad_access {FF : fmt.FloatFormat} :
  step_no_bad_access Impl.parse_body.
Proof.
  unfold Impl.parse_body, Impl.parse_headers, Impl.assembleMessage,
    Impl.control_response_details.
  repeat escape_tac.
  all: intros s; discriminate.
Qed.

Lemma parse_reader_no_bad_access {FF : fmt.FloatFormat}
      (reader : fs.reader) (self : Impl.t) :
  fst (fst (Impl.parse_reader reader self)) <> Throw bad_optional_access.
Proof.
  unfold Impl.parse_reader.
  pose proof (parse_body_no_bad_access (Impl.mk_pstate reader self 0)) as H.
  destruct (Impl.parse_body _) as [o s]. exact H.
Qed.

Lemma parse_throws_only_eof {FF : fmt.FloatFormat} {H : Type}
      (assertions : bool) (fuel : nat) (handler : option (Impl.t -> H -> H)) :
  forall (reader : fs.reader) (self : Impl.t) (h : H) (e : exn),
    fst (fst (fst (Impl.parse assertions fuel handler reader self h)))
    = Throw e ->
    e = eof.
Proof.
  induction fuel as [|fuel IH]; intros reader self h e; [discriminate|].
  cbn [Impl.parse].
  pose proof (parse_reader_no_bad_access reader self) as Hbad.
  destruct (Impl.parse_reader reader self) as [[o reader1] self1].
  cbn in Hbad.
  destruct o as [u | [ | what nested | ] | | | ]; cbn; try discriminate.
  - unfold fs.notify_success.
    destruct (fs.pos_ _ =? fs.len_ _); cbn; congruence.
  - congruence.
  - destruct (match handler with Some _ => _ | None => _ end) as [self2 h1].
    destruct nested; [cbn; congruence|].
    unfold fs.set_pos.
    destruct (assertions && _); [discriminate|].
    apply IH.
  - congruence.
Qed.

Lemma execute_loop_stores_no_exception {FF : fmt.FloatFormat}
      (assertions : bool) (fuel inner : nat) :
  forall tk : task.t,
    snd (task.execute_loop assertions fuel inner None tk) = None /\
    forall e, fst (fst (task.execute_loop assertions fuel inner None tk))
              <> Throw e.
Proof.
  induction fuel as [|fuel IH]; intros tk; [split; [reflexivity | discriminate]|].
  cbn [task.execute_loop].
  pose proof (parse_throws_only_eof assertions inner
                (Some task.parse_exception_handler)
                (task.reader_ tk) Impl.default (task.records_ tk)) as Heof.
  destruct (Impl.parse assertions inner _ _ _ _) as [[[o reader] record] records].
  cbn in Heof.
  destruct o as [u | e0 | | | ].
  - destruct (0 <? fs.get_overrun reader);
      [split; [reflexivity | discriminate] | apply IH].
  - rewrite (Heof e0 eq_refl). split; [reflexivity | discriminate].
  - split; [reflexivity | discriminate].
  - split; [reflexivity | discriminate].
  - split; [reflexivity | discriminate].
Qed.

Lemma run_tasks_stores_no_exception {FF : fmt.FloatFormat} (assertions : bool) :
  forall tasks : list task.t,
    snd (supervisor.run_tasks assertions None tasks) = None /\
    forall e, fst (supervisor.run_tasks assertions None tasks) <> Throw e.
Proof.
  induction tasks as [|tk rest IH]; [split; [reflexivity | discriminate]|].
  cbn [supervisor.run_tasks]. unfold task.execute.
  destruct (execute_loop_stores_no_exception
              assertions (task.fuel_for tk) (task.fuel_for tk) tk)
    as [Hholder Hthrow].
  destruct (task.execute_loop _ _ _ _ _) as [[o tk1] holder1].
  cbn in Hholder, Hthrow. subst holder1.
  destruct o as [u | e0 | | | ]; try (split; [reflexivity | discriminate]).
  - destruct IH as [IHh IHt].
    destruct (supervisor.run_tasks assertions None rest) as [o2 holder2].
    cbn in IHh, IHt. subst holder2.
    destruct o2; cbn; split; try reflexivity; try discriminate.
    exact IHt.
  - exfalso. apply (Hthrow e0). reflexivity.
Qed.

Lemma merge_loop_never_throws (assertions : bool) (tasks : list task.t)
      (results : list (list Record)) (count : nat) :
  forall (i : nat) (records : list Record) (e : exn),
    supervisor.merge_loop assertions tasks results count i records <> Throw e.
Proof.
  induction count as [|count IH]; intros i records e; [discriminate|].
  cbn [supervisor.merge_loop]. unfold supervisor.skip_first_record.
  repeat match goal with
         | |- context [if ?c then _ else _] => destruct c; cbn [bind]
         end;
    first [discriminate | apply IH].
Qed.

(** X25: no exception leaves the parsing of a file.  Whatever the bytes,
    the reader, the number of cores and the build, every parse failure ends
    in a placeholder record or in the end of a worker: no worker stores an
    exception for the supervisor to rethrow, and the one [eof] that can
    leave the supervisor (an empty file) is swallowed by its caller. *)
Theorem parse_file_lets_no_exception_escape :
  forall (FF : fmt.FloatFormat) (assertions : bool) (type : fs.reader_type)
         (data : list byte) (cores_num : Z) (e : exn),
    supervisor.parse_file assertions type data cores_num <> Throw e.
Proof.
  intros FF assertions type data cores_num e.
  unfold supervisor.parse_file, supervisor.make, fs.split.
  destruct (fs.len_ _ =? 0); [discriminate|].
  cbn [bind]. unfold supervisor.execute. cbn [supervisor.tasks_ supervisor.threads_num_].
  match goal with
  | |- context [supervisor.run_tasks assertions None ?ts] =>
      destruct (run_tasks_stores_no_exception assertions ts) as [Hh Ht];
      destruct (supervisor.run_tasks assertions None ts) as [o holder]
  end.
  cbn in Hh, Ht. subst holder.
  destruct o as [tasks | e0 | | | ]; try discriminate.
  - unfold supervisor.merge.
    destruct (map task.result tasks) as [|r0 rs] eqn:Er; [discriminate|].
    pose proof (merge_loop_never_throws assertions tasks (r0 :: rs)
                  (Z.to_nat (uint8_t cores_num) - 1) 1 r0) as Hm.
    destruct (supervisor.merge_loop _ _ _ _ _ _) as [records | e1 | | | ];
      try discriminate.
    exfalso. apply (Hm e1). reflexivity.
  - exfalso. apply (Ht e0). reflexivity.
Qed.

(** X26: the only exception that leaves [Record::parse] is [eof], with or
    without a handler for parse failures: a [parse_exception] is either
    absorbed by moving the cursor one byte on or, when it nests the end of
    the file, replaced by the [eof] it nests. *)
Theorem record_parse_lets_only_eof_escape :
  forall (FF : fmt.FloatFormat) (H : Type) (assertions : bool) (fuel : nat)
         (handler : option (Impl.t -> H -> H))
         (reader : fs.reader) (self : Impl.t) (h : H) (e : exn),
    fst (fst (fst (Impl.parse assertions fuel handler reader self h)))
    = Throw e ->
    e = eof.
Proof.
  intros FF H assertions fuel handler reader self h e.
  apply parse_throws_only_eof.
Qed.

Lemma record_parse_lets_only_eof_escape_witness :
  fst (fst (fst (Impl.parse (FF := samples.bit_patterns) true 6
                            (Some task.parse_exception_handler)
                            (fs.factory fs.file_precache samples.five_bytes)
                            Impl.default [])))
  = Throw eof /\
  eof = eof.
Proof.
  split; [vm_compute; reflexivity |].
  apply (record_parse_lets_only_eof_escape
           samples.bit_patterns (list Record) true 6
           (Some task.parse_exception_handler)
           (fs.factory fs.file_precache samples.five_bytes)
           Impl.default [] eof).
  vm_compute. reflexivity.
Defined.

(* ================================================================== *)
(** * The arguments of a verbose record *)

Section Appended.
Context {FF : fmt.FloatFormat}.
Variable BigEndian : bool.

Lemma parseTyle_radix_appends T R payload output :
  ArgParser.parseTyle_radix BigEndian T R (ArgParser.mk payload output)
  = match ArgParser.parseTyle_radix BigEndian T R
            (ArgParser.mk payload EmptyString) with
    | Ret q => Ret (ArgParser.mk (ArgParser.payload_ q)
                                 (output ++ ArgParser.output_ q))
    | other => other
    end.
Proof.
  unfold ArgParser.parseTyle_radix. cbn [ArgParser.payload_ ArgParser.output_].
  destruct (endian.extract _ payload BigEndian) as [[val rest]| | | |];
    cbn [bind]; try reflexivity.
  cbn [fst snd ArgParser.payload_ ArgParser.output_].
  destruct R; cbn [append]; now rewrite ?string_append_assoc.
Qed.

Lemma parseStr_appends scod payload output :
  ArgParser.parseStr BigEndian scod (ArgParser.mk payload output)
  = match ArgParser.parseStr BigEndian scod
            (ArgParser.mk payload EmptyString) with
    | Ret q => Ret (ArgParser.mk (ArgParser.payload_ q)
                                 (output ++ ArgParser.output_ q))
    | other => other
    end.
Proof.
  unfold ArgParser.parseStr. cbn [ArgParser.payload_ ArgParser.output_].
  destruct (endian.read 2 payload BigEndian) as [len| | | |] eqn:Hlen;
    cbn [bind]; try reflexivity.
  pose proof (read_2_nonneg _ _ _ Hlen) as Hnn.
  destruct (Z.eqb_spec len 0) as [E0 | N0]; [reflexivity|].
  destruct (scod =? conformance_arg.SCOD_ASCII).
  2:{ destruct (scod =? conformance_arg.SCOD_UTF8); reflexivity. }
  destruct (nth_error (skipn 2 payload) (Z.to_nat (len - 1))) as [last|] eqn:Hnth;
    [|reflexivity].
  destruct (negb (byte_val last =? 0)); [reflexivity|].
  cbn [ArgParser.payload_ ArgParser.output_]. f_equal. f_equal.
  assert (Hlt : (Z.to_nat (len - 1) < List.length (skipn 2 payload))%nat).
  { apply nth_error_Some. congruence. }
  set (text := text_of_bytes (firstn (Z.to_nat (len - 1)) (skipn 2 payload))).
  assert (Htext : String.length text = Z.to_nat (len - 1)).
  { unfold text. rewrite length_text_of_bytes, length_firstn. lia. }
  replace (Z.to_nat (Z.of_nat (String.length output) + len - 1))
    with (String.length output + String.length text)%nat by lia.
  replace (Z.to_nat (Z.of_nat (String.length EmptyString) + len - 1))
    with (String.length EmptyString + String.length text)%nat by (cbn; lia).
  now rewrite !write_at_end_of_resized.
Qed.

Lemma parseRaw_appends payload output :
  ArgParser.parseRaw BigEndian (ArgParser.mk payload output)
  = match ArgParser.parseRaw BigEndian (ArgParser.mk payload EmptyString) with
    | Ret q => Ret (ArgParser.mk (ArgParser.payload_ q)
                                 (output ++ ArgParser.output_ q))
    | other => other
    end.
Proof.
  unfold ArgParser.parseRaw. cbn [ArgParser.payload_ ArgParser.output_].
  destruct (endian.read 2 payload BigEndian) as [len| | | |] eqn:Hlen;
    cbn [bind]; try reflexivity.
  pose proof (read_2_nonneg _ _ _ Hlen) as Hnn.
  destruct (Nat.ltb_spec (List.length (skipn 2 payload)) (Z.to_nat len))
    as [Hshort | Hlong]; [reflexivity|].
  cbn [ArgParser.payload_ ArgParser.output_]. f_equal. f_equal.
  set (text := ArgParser.raw_hex (firstn (Z.to_nat len) (skipn 2 payload))).
  assert (Htext : String.length text = (2 * Z.to_nat len)%nat).
  { unfold text. rewrite length_raw_hex, length_firstn. lia. }
  replace (Z.to_nat (Z.of_nat (String.length output) + len * 2 + 1))
    with (String.length output + String.length text + 1)%nat by lia.
  replace (Z.to_nat (Z.of_nat (String.length EmptyString) + len * 2 + 1))
    with (String.length EmptyString + String.length text + 1)%nat by (cbn; lia).
  now rewrite !write_at_end_of_resized_more.
Qed.

Lemma parse_appends (p : ArgParser.t) :
  ArgParser.parse BigEndian p
  = match ArgParser.parse BigEndian
            (ArgParser.mk (ArgParser.payload_ p) EmptyString) with
    | Ret q => Ret (ArgParser.mk (ArgParser.payload_ q)
                                 (ArgParser.output_ p ++ ArgParser.output_ q))
    | other => other
    end.
Proof.
  unfold ArgParser.parse. cbn [ArgParser.payload_ ArgParser.output_].
  destruct (endian.read 4 (ArgParser.payload_ p) BigEndian) as [type| | | |];
    cbn [bind]; try reflexivity.
  unfold ArgParser.parseUInt, ArgParser.parseSInt, ArgParser.parseFloat,
    ArgParser.parseBool, ArgParser.parseTyle.
  repeat match goal with
         | |- (if ?c then _ else _) = _ => destruct c
         end;
    first [ reflexivity
          | apply parseStr_appends
          | apply parseRaw_appends
          | apply parseTyle_radix_appends ].
Qed.

Lemma argument_texts_length (count : nat) :
  forall payload texts,
    argument_texts BigEndian count payload = Ret texts ->
    List.length texts = count.
Proof.
  induction count as [|count IH]; intros payload texts; cbn [argument_texts].
  - intros H. injection H as <-. reflexivity.
  - destruct (ArgParser.parse BigEndian _) as [q| | | |]; cbn [bind];
      try discriminate.
    destruct (argument_texts BigEndian count (ArgParser.payload_ q))
      as [rest| | | |] eqn:E; cbn [bind]; try discriminate.
    intros H. injection H as <-. cbn. f_equal. now apply (IH _ _ E).
Qed.

Lemma parse_args_joined (count : nat) :
  forall p : ArgParser.t,
    (q <- ArgParser.parse_args BigEndian count p ;; Ret (ArgParser.output_ q))
    = (texts <- argument_texts BigEndian count (ArgParser.payload_ p) ;;
       Ret (ArgParser.output_ p ++ String.concat " " texts)%string).
Proof.
  induction count as [|count IH]; intros p.
  - cbn. now rewrite string_append_nil_r.
  - destruct count as [|count'].
    + cbn [ArgParser.parse_args argument_texts].
      rewrite parse_appends.
      destruct (ArgParser.parse BigEndian _) as [q| | | |]; reflexivity.
    + change (ArgParser.parse_args BigEndian (S (S count')) p)
        with (p1 <- ArgParser.parse BigEndian p ;;
              ArgParser.parse_args BigEndian (S count')
                (ArgParser.mk (ArgParser.payload_ p1)
                              (push_back " " (ArgParser.output_ p1)))).
      change (argument_texts BigEndian (S (S count')) (ArgParser.payload_ p))
        with (q <- ArgParser.parse BigEndian
                     (ArgParser.mk (ArgParser.payload_ p) EmptyString) ;;
              rest <- argument_texts BigEndian (S count') (ArgParser.payload_ q) ;;
              Ret (ArgParser.output_ q :: rest)).
      rewrite parse_appends.
      destruct (ArgParser.parse BigEndian _) as [q| | | |]; cbn [bind];
        try reflexivity.
      rewrite IH. cbn [ArgParser.payload_ ArgParser.output_].
      destruct (argument_texts BigEndian (S count') (ArgParser.payload_ q))
        as [rest| | | |] eqn:E; cbn [bind]; try reflexivity.
      apply argument_texts_length in E.
      destruct rest as [|t rest]; [discriminate|].
      unfold push_back. cbn [String.concat].
      now rewrite !string_append_assoc.
Qed.

End Appended.

(** X27: the text of an argument does not depend on what was rendered
    before it and leaves that text untouched: [parse] on a parser that
    already holds output ends as it does on the same payload with empty
    output, consumes the same bytes, and its output is the old output
    followed by the text of the argument. *)
Theorem argument_text_is_appended :
  forall (FF : fmt.FloatFormat) (BigEndian : bool) (p : ArgParser.t),
    ArgParser.parse BigEndian p
    = match ArgParser.parse BigEndian
              (ArgParser.mk (ArgParser.payload_ p) EmptyString) with
      | Ret q => Ret (ArgParser.mk (ArgParser.payload_ q)
                                   (ArgParser.output_ p ++ ArgParser.output_ q))
      | other => other
      end.
Proof. intros FF BigEndian p. apply parse_appends. Qed.

(** X28: the message of a verbose record is its arguments joined by single
    spaces, without a trailing space: the constructor of [ArgParser] for
    [count] arguments renders each argument from where the one before it
    ended, and fails as the first argument that fails. *)
Theorem arguments_are_joined_by_single_spaces :
  forall (FF : fmt.FloatFormat) (BigEndian : bool) (payload : list byte)
         (count : Z),
    ArgParser.run BigEndian payload count
    = (texts <- argument_texts BigEndian (Z.to_nat count) payload ;;
       Ret (String.concat " " texts)).
Proof.
  intros FF BigEndian payload count. unfold ArgParser.run.
  apply (parse_args_joined BigEndian (Z.to_nat count)
           (ArgParser.mk payload EmptyString)).
Qed.
